(** * bigcommerce-storefront-generator: the client library ([bigcommerce.go])
      and the generator script ([main.go])

    A shallow embedding of [QueryParams.ToValues], of the query building of
    [InventoryService.ListContext], of the request pipeline ([NewClient],
    [NewRequest], [Do], [CheckResponse], [ErrorResponse.Error]) and of the
    methods of [BrandsService] that change a brand, with the parts of Go's
    [strconv], [net/url] and [encoding/json] they call; and of the script
    in [main.go], every function of it, over the draws of its random
    sources and the answers of the server.

    Go's [int] is embedded in [Z], [float64] in the Standard Library's
    [spec_float], a [string] as the sequence of its bytes ([string] of
    [ascii]), [url.Values] (a [map[string][]string]) as a [gmap], a pointer
    that may be nil as an [option]. *)

From Stdlib Require Import ZArith String Ascii List DecimalString DecimalZ DecimalPos.
From Stdlib Require Import Floats.SpecFloat.
From stdpp Require Import gmap strings list fin_maps sorting.

Local Open Scope string_scope.
Local Open Scope list_scope.
Local Open Scope Z_scope.

(** ** strconv *)

Module strconv.

(** [strconv.Itoa]: decimal digits, a leading [-] for a negative number. *)
Definition Itoa (i : Z) : string := NilZero.string_of_int (Z.to_int i).

(** [strconv.FormatBool]. *)
Definition FormatBool (b : bool) : string := if b then "true" else "false".

(** Half-to-even rounding of [m * 2^e * 100] to an integer: the number of
    hundredths that [FormatFloat(_, 'f', 2, 64)] prints (its digits are
    computed exactly, and a tie goes to the even digit). *)
Definition hundredths (m : positive) (e : Z) : Z :=
  if 0 <=? e then Z.pos m * 2 ^ e * 100
  else
    let d := 2 ^ (- e) in
    let q := (Z.pos m * 100) / d in
    let r := (Z.pos m * 100) mod d in
    if 2 * r <? d then q
    else if d <? 2 * r then q + 1
    else if Z.even q then q else q + 1.

Definition two_digits (n : Z) : string :=
  if n <? 10 then "0" +:+ Itoa n else Itoa n.

Definition fixed2 (h : Z) : string :=
  Itoa (h / 100) +:+ "." +:+ two_digits (h mod 100).

(** [strconv.FormatFloat(x, 'f', 2, 64)]. *)
Definition FormatFloat_f2 (x : spec_float) : string :=
  match x with
  | S754_nan => "NaN"
  | S754_infinity s => if s then "-Inf" else "+Inf"
  | S754_zero s => (if s then "-" else "") +:+ "0.00"
  | S754_finite s m e => (if s then "-" else "") +:+ fixed2 (hundredths m e)
  end.

End strconv.

(** Go's [x > 0] on a [float64]: false on a NaN and on both zeros. *)
Definition float64_gt0 (x : spec_float) : bool := SFltb (S754_zero false) x.

(** ** net/url: [Values], [QueryEscape], [Values.Encode] *)

Module url.

(** [type Values map[string][]string] *)
Abbreviation Values := (gmap string (list string)).

(** [func (v Values) Add(key, value string)]:
    [v[key] = append(v[key], value)]. *)
Definition Add (key value : string) (v : Values) : Values :=
  <[key := v !!! key ++ [value]]> v.

Definition between (lo hi c : ascii) : bool :=
  ((nat_of_ascii lo <=? nat_of_ascii c)%nat && (nat_of_ascii c <=? nat_of_ascii hi)%nat)%bool.

(** [shouldEscape(c, encodeQueryComponent)]: everything but the
    unreserved characters of RFC 3986, section 2.3. *)
Definition shouldEscape (c : ascii) : bool :=
  if (between "a" "z" c || between "A" "Z" c || between "0" "9" c)%bool then false
  else if (Ascii.eqb c "-" || Ascii.eqb c "_" || Ascii.eqb c "." || Ascii.eqb c "~")%bool then false
  else true.

(** The digit of [upperhex], the sixteen digits 0 to 9 and A to F, at
    index [n < 16]. *)
Definition upperhex (n : nat) : ascii :=
  if (n <? 10)%nat then ascii_of_nat (48 + n) else ascii_of_nat (55 + n).

Definition escape_byte (c : ascii) : string :=
  if Ascii.eqb c " " then "+"
  else if shouldEscape c then
    String "%" (String (upperhex (nat_of_ascii c / 16)) (String (upperhex (nat_of_ascii c mod 16)) ""))
  else String c "".

(** [url.QueryEscape]. *)
Fixpoint QueryEscape (s : string) : string :=
  match s with
  | EmptyString => ""
  | String c s' => escape_byte c +:+ QueryEscape s'
  end.

(** Byte-wise lexicographic order, the order of Go's [<] on strings. *)
Definition string_le (a b : string) : Prop := String.leb a b = true.

#[global] Instance string_le_dec : RelDecision string_le.
Proof. intros a b. unfold string_le. apply _. Defined.

(** [slices.Sorted(maps.Keys(v))] *)
Definition sorted_keys (v : Values) : list string :=
  merge_sort string_le (map_to_list v).*1.

(** The (key, value) pairs in the order [Encode] writes them: keys
    ascending, the values of one key in the order they were added. *)
Definition entries (v : Values) : list (string * string) :=
  k ← sorted_keys v; (λ x, (k, x)) <$> (v !!! k).

Definition write_entry (e : string * string) : string :=
  QueryEscape e.1 +:+ "=" +:+ QueryEscape e.2.

(** [func (v Values) Encode() string]: the entries, each written as
    [QueryEscape(key) = QueryEscape(value)], with [&] between them. *)
Definition Encode (v : Values) : string :=
  String.concat "&" (write_entry <$> entries v).

(** *** Reading a query string back ([url.ParseQuery]) *)

Definition ishex (c : ascii) : bool :=
  (between "0" "9" c || between "a" "f" c || between "A" "F" c)%bool.

Definition unhex (c : ascii) : nat :=
  if between "0" "9" c then nat_of_ascii c - 48
  else if between "a" "f" c then nat_of_ascii c - 97 + 10
  else if between "A" "F" c then nat_of_ascii c - 65 + 10
  else 0.

(** [url.QueryUnescape]: [%XY] is the byte [XY], [+] a space; [None] is
    its [EscapeError]. *)
Fixpoint QueryUnescape (s : string) : option string :=
  match s with
  | EmptyString => Some ""
  | String c s' =>
      if Ascii.eqb c "%" then
        match s' with
        | String h (String l s'') =>
            if (ishex h && ishex l)%bool
            then String (ascii_of_nat (unhex h * 16 + unhex l)) <$> QueryUnescape s''
            else None
        | _ => None
        end
      else if Ascii.eqb c "+" then String " " <$> QueryUnescape s'
      else String c <$> QueryUnescape s'
  end.

(** [strings.Split(s, sep)] for a one-byte separator. *)
Fixpoint Split (sep : ascii) (s : string) : list string :=
  match s with
  | EmptyString => [""]
  | String c s' =>
      if Ascii.eqb c sep then "" :: Split sep s'
      else match Split sep s' with
           | seg :: segs => String c seg :: segs
           | [] => [String c ""]
           end
  end.

(** [strings.Cut(s, sep)] for a one-byte separator: the text before and
    after the first [sep]; all of [s] and nothing when there is none. *)
Fixpoint Cut (sep : ascii) (s : string) : string * string :=
  match s with
  | EmptyString => ("", "")
  | String c s' =>
      if Ascii.eqb c sep then ("", s')
      else let '(before, after) := Cut sep s' in (String c before, after)
  end.

Fixpoint Contains (c : ascii) (s : string) : bool :=
  match s with
  | EmptyString => false
  | String c' s' => (Ascii.eqb c' c || Contains c s')%bool
  end.

(** One [&]-separated piece of a query, as the loop of [parseQuery]
    treats it: a piece that is empty, holds a semicolon or does not
    unescape is passed over. *)
Definition parse_piece (piece : string) : list (string * string) :=
  if Contains ";" piece then []
  else if String.eqb piece "" then []
  else
    let '(key, value) := Cut "=" piece in
    match QueryUnescape key, QueryUnescape value with
    | Some key, Some value => [(key, value)]
    | _, _ => []
    end.

(** The entries [url.ParseQuery] reads from a query string, in the order
    they are written in it (ParseQuery appends each to its key's list). *)
Definition parse_entries (query : string) : list (string * string) :=
  Split "&" query ≫= parse_piece.

End url.

(** ** The query parameters *)

Record QueryParams := {
  Page : Z;
  Limit : Z;
  Direction : string;
  Sort : string;
  Include : list string;
  ID : list Z;
  IDIn : list Z;
  IDNotIn : list Z;
  IDMin : Z;
  IDMax : Z;
  IDGreater : Z;
  IDLess : Z;
  Name : string;
  SKU : string;
  Price : spec_float;
  PriceMin : spec_float;
  PriceMax : spec_float;
  Weight : spec_float;
  WeightMin : spec_float;
  WeightMax : spec_float;
  Condition : string;
  IsVisible : option bool;
  IsFeatured : option bool;
  CategoryID : list Z;
  BrandID : list Z;
  Keywords : string;
  IsActive : option bool;
  DateCreated : string;
  DateModified : string
}.

(** The statement forms of [ToValues]: [if cond { values.Add(k, x) }],
    [if p != nil { values.Add(k, f( *p)) }] and
    [for _, x := range xs { values.Add(k, f(x)) }]. *)
Definition if_then (cond : bool) (body : url.Values → url.Values) (values : url.Values) : url.Values :=
  if cond then body values else values.

Definition if_not_nil {A} (p : option A) (body : A → url.Values → url.Values) (values : url.Values) : url.Values :=
  match p with
  | Some x => body x values
  | None => values
  end.

Definition for_range {A} (xs : list A) (body : A → url.Values → url.Values) (values : url.Values) : url.Values :=
  foldl (λ values x, body x values) values xs.

Definition nonempty (s : string) : bool := negb (String.eqb s "").

(** [func (q *QueryParams) ToValues() url.Values] *)
Definition ToValues (q : QueryParams) : url.Values :=
  let values : url.Values := ∅ in
  let values := if_then (0 <? Page q) (url.Add "page" (strconv.Itoa (Page q))) values in
  let values := if_then (0 <? Limit q) (url.Add "limit" (strconv.Itoa (Limit q))) values in
  let values := if_then (nonempty (Direction q)) (url.Add "direction" (Direction q)) values in
  let values := if_then (nonempty (Sort q)) (url.Add "sort" (Sort q)) values in
  let values := for_range (Include q) (λ include, url.Add "include" include) values in
  let values := for_range (ID q) (λ id, url.Add "id" (strconv.Itoa id)) values in
  let values := for_range (IDIn q) (λ id, url.Add "id:in" (strconv.Itoa id)) values in
  let values := for_range (IDNotIn q) (λ id, url.Add "id:not_in" (strconv.Itoa id)) values in
  let values := if_then (0 <? IDMin q) (url.Add "id:min" (strconv.Itoa (IDMin q))) values in
  let values := if_then (0 <? IDMax q) (url.Add "id:max" (strconv.Itoa (IDMax q))) values in
  let values := if_then (0 <? IDGreater q) (url.Add "id:greater" (strconv.Itoa (IDGreater q))) values in
  let values := if_then (0 <? IDLess q) (url.Add "id:less" (strconv.Itoa (IDLess q))) values in
  let values := if_then (nonempty (Name q)) (url.Add "name" (Name q)) values in
  let values := if_then (nonempty (SKU q)) (url.Add "sku" (SKU q)) values in
  let values := if_then (float64_gt0 (Price q)) (url.Add "price" (strconv.FormatFloat_f2 (Price q))) values in
  let values := if_then (float64_gt0 (PriceMin q)) (url.Add "price:min" (strconv.FormatFloat_f2 (PriceMin q))) values in
  let values := if_then (float64_gt0 (PriceMax q)) (url.Add "price:max" (strconv.FormatFloat_f2 (PriceMax q))) values in
  let values := if_then (float64_gt0 (Weight q)) (url.Add "weight" (strconv.FormatFloat_f2 (Weight q))) values in
  let values := if_then (float64_gt0 (WeightMin q)) (url.Add "weight:min" (strconv.FormatFloat_f2 (WeightMin q))) values in
  let values := if_then (float64_gt0 (WeightMax q)) (url.Add "weight:max" (strconv.FormatFloat_f2 (WeightMax q))) values in
  let values := if_then (nonempty (Condition q)) (url.Add "condition" (Condition q)) values in
  let values := if_not_nil (IsVisible q) (λ b, url.Add "is_visible" (strconv.FormatBool b)) values in
  let values := if_not_nil (IsFeatured q) (λ b, url.Add "is_featured" (strconv.FormatBool b)) values in
  let values := for_range (CategoryID q) (λ categoryID, url.Add "categories" (strconv.Itoa categoryID)) values in
  let values := for_range (BrandID q) (λ brandID, url.Add "brand_id" (strconv.Itoa brandID)) values in
  let values := if_then (nonempty (Keywords q)) (url.Add "keyword" (Keywords q)) values in
  let values := if_not_nil (IsActive q) (λ b, url.Add "is_active" (strconv.FormatBool b)) values in
  let values := if_then (nonempty (DateCreated q)) (url.Add "date_created" (DateCreated q)) values in
  let values := if_then (nonempty (DateModified q)) (url.Add "date_modified" (DateModified q)) values in
  values.

(** The parameters of the scenario: page 2, limit 50, sort name, direction
    asc. *)
Definition scenario_params : QueryParams :=
  {| Page := 2; Limit := 50; Direction := "asc"; Sort := "name"; Include := [];
     ID := []; IDIn := []; IDNotIn := []; IDMin := 0; IDMax := 0;
     IDGreater := 0; IDLess := 0; Name := ""; SKU := "";
     Price := S754_zero false; PriceMin := S754_zero false; PriceMax := S754_zero false;
     Weight := S754_zero false; WeightMin := S754_zero false; WeightMax := S754_zero false;
     Condition := ""; IsVisible := None; IsFeatured := None;
     CategoryID := []; BrandID := []; Keywords := ""; IsActive := None;
     DateCreated := ""; DateModified := "" |}.

(** ** The fields of [QueryParams] as a table

    Each field has one parameter name and, by its type, one rule: when it
    is written ([present]) and how ([render]). [ToValues_lookup] below
    shows that [ToValues] computes exactly this table. *)

Inductive Field :=
  | FPage | FLimit | FDirection | FSort | FInclude | FID | FIDIn | FIDNotIn
  | FIDMin | FIDMax | FIDGreater | FIDLess | FName | FSKU
  | FPrice | FPriceMin | FPriceMax | FWeight | FWeightMin | FWeightMax
  | FCondition | FIsVisible | FIsFeatured | FCategoryID | FBrandID
  | FKeywords | FIsActive | FDateCreated | FDateModified.

(** The fields in the order the record declares them. *)
Definition declared_fields : list Field :=
  [FPage; FLimit; FDirection; FSort; FInclude; FID; FIDIn; FIDNotIn;
   FIDMin; FIDMax; FIDGreater; FIDLess; FName; FSKU;
   FPrice; FPriceMin; FPriceMax; FWeight; FWeightMin; FWeightMax;
   FCondition; FIsVisible; FIsFeatured; FCategoryID; FBrandID;
   FKeywords; FIsActive; FDateCreated; FDateModified].

(** The key each field's [values.Add] is called with. *)
Definition param_name (f : Field) : string :=
  match f with
  | FPage => "page" | FLimit => "limit" | FDirection => "direction"
  | FSort => "sort" | FInclude => "include" | FID => "id" | FIDIn => "id:in"
  | FIDNotIn => "id:not_in" | FIDMin => "id:min" | FIDMax => "id:max"
  | FIDGreater => "id:greater" | FIDLess => "id:less" | FName => "name"
  | FSKU => "sku" | FPrice => "price" | FPriceMin => "price:min"
  | FPriceMax => "price:max" | FWeight => "weight" | FWeightMin => "weight:min"
  | FWeightMax => "weight:max" | FCondition => "condition"
  | FIsVisible => "is_visible" | FIsFeatured => "is_featured"
  | FCategoryID => "categories" | FBrandID => "brand_id"
  | FKeywords => "keyword" | FIsActive => "is_active"
  | FDateCreated => "date_created" | FDateModified => "date_modified"
  end.

(** A field's value, tagged with its Go type. *)
Inductive FieldValue :=
  | VInt (x : Z)
  | VString (s : string)
  | VFloat (x : spec_float)
  | VStrings (l : list string)
  | VInts (l : list Z)
  | VOptBool (p : option bool).

Definition field_value (q : QueryParams) (f : Field) : FieldValue :=
  match f with
  | FPage => VInt (Page q) | FLimit => VInt (Limit q)
  | FDirection => VString (Direction q) | FSort => VString (Sort q)
  | FInclude => VStrings (Include q) | FID => VInts (ID q)
  | FIDIn => VInts (IDIn q) | FIDNotIn => VInts (IDNotIn q)
  | FIDMin => VInt (IDMin q) | FIDMax => VInt (IDMax q)
  | FIDGreater => VInt (IDGreater q) | FIDLess => VInt (IDLess q)
  | FName => VString (Name q) | FSKU => VString (SKU q)
  | FPrice => VFloat (Price q) | FPriceMin => VFloat (PriceMin q)
  | FPriceMax => VFloat (PriceMax q) | FWeight => VFloat (Weight q)
  | FWeightMin => VFloat (WeightMin q) | FWeightMax => VFloat (WeightMax q)
  | FCondition => VString (Condition q)
  | FIsVisible => VOptBool (IsVisible q) | FIsFeatured => VOptBool (IsFeatured q)
  | FCategoryID => VInts (CategoryID q) | FBrandID => VInts (BrandID q)
  | FKeywords => VString (Keywords q) | FIsActive => VOptBool (IsActive q)
  | FDateCreated => VString (DateCreated q) | FDateModified => VString (DateModified q)
  end.

(** The zero value of the field's type: zero, the empty string, a nil or
    empty slice, a nil pointer. *)
Definition is_zero (v : FieldValue) : Prop :=
  match v with
  | VInt x => x = 0
  | VString s => s = ""
  | VFloat x => match x with S754_zero _ => True | _ => False end
  | VStrings l => l = []
  | VInts l => l = []
  | VOptBool p => p = None
  end.

(** The guard [ToValues] puts before the field's [values.Add]: [> 0] for
    a number, not empty for a string, [!= nil] for an optional boolean,
    and one [Add] per element of a list. *)
Definition present (v : FieldValue) : bool :=
  match v with
  | VInt x => 0 <? x
  | VString s => nonempty s
  | VFloat x => float64_gt0 x
  | VStrings l => match l with [] => false | _ :: _ => true end
  | VInts l => match l with [] => false | _ :: _ => true end
  | VOptBool p => match p with None => false | Some _ => true end
  end.

(** How the value is written. *)
Definition render (v : FieldValue) : list string :=
  match v with
  | VInt x => [strconv.Itoa x]
  | VString s => [s]
  | VFloat x => [strconv.FormatFloat_f2 x]
  | VStrings l => l
  | VInts l => strconv.Itoa <$> l
  | VOptBool p => match p with Some b => [strconv.FormatBool b] | None => [] end
  end.

(** The values the field adds under its name. *)
Definition contribution (v : FieldValue) : list string :=
  if present v then render v else [].

(** The entries of one parameter name, in the order they are written. *)
Definition entries_of (k : string) (es : list (string * string)) : list (string * string) :=
  filter (λ e, e.1 = k) es.

(** The query string a request with these parameters carries:
    [req.URL.RawQuery = params.ToValues().Encode()]. *)
Definition encode (q : QueryParams) : string := url.Encode (ToValues q).

(** Where a parameter name stands in the declared field order. *)
Definition declared_position (k : string) : nat :=
  default (length declared_fields)
          (fst <$> list_find (λ f, param_name f = k) declared_fields).

(** A list of parameter names is in declared field order. *)
Definition in_declared_order (ks : list string) : Prop :=
  Sorted (λ a b, (declared_position a ≤ declared_position b)%nat) ks.

(** ** [InventoryService.ListContext]: the query of the request *)

(** The request is built for the path [catalog/products/inventory], which
    has no query, so [req.URL.Query()] starts empty. The [range] over the
    map [values] visits its keys in no fixed order; [values] has at most
    the one key [id:in]. *)
Definition InventoryService_ListContext_query (productIDs : list Z) : string :=
  let values : url.Values :=
    for_range productIDs (λ id, url.Add "id:in" (strconv.Itoa id)) ∅ in
  let query : url.Values := ∅ in
  let query :=
    map_fold (λ key vals query, for_range vals (λ val, url.Add key val) query) query values in
  url.Encode query.

(** ** encoding/json: reading a document *)

Module json.

#[warnings="-register-all"]
Inductive value :=
  | Null
  | Bool (b : bool)
  | Number (lit : string)
  | Str (s : string)
  | Array (vs : list value)
  | Object (ms : list (string * value)).

Definition byte (c : ascii) : Z := Z.of_nat (nat_of_ascii c).
Definition chr (n : Z) : ascii := ascii_of_nat (Z.to_nat n).

Definition in_range (lo hi : Z) (c : ascii) : bool := (lo <=? byte c) && (byte c <=? hi).

Definition is_space (c : ascii) : bool :=
  (byte c =? 32) || (byte c =? 9) || (byte c =? 13) || (byte c =? 10).

Definition is_digit (c : ascii) : bool := in_range 48 57 c.

(** *** Strings: [unquote] *)

Definition hex_digit (c : ascii) : option Z :=
  if in_range 48 57 c then Some (byte c - 48)
  else if in_range 97 102 c then Some (byte c - 97 + 10)
  else if in_range 65 70 c then Some (byte c - 65 + 10)
  else None.

(** [getu4] on the four digits after a backslash and a [u]. *)
Definition hex4 (a b c d : ascii) : option Z :=
  a ← hex_digit a; b ← hex_digit b; c ← hex_digit c; d ← hex_digit d;
  Some (((a * 16 + b) * 16 + c) * 16 + d).

Definition from_bytes (bs : list Z) : string := foldr (λ b s, String (chr b) s) "" bs.

(** [utf8.EncodeRune]; a surrogate or a value past U+10FFFF is written as
    U+FFFD. *)
Definition encode_rune (r : Z) : string :=
  if r <? 128 then from_bytes [r]
  else if r <? 2048 then from_bytes [192 + r / 64; 128 + r mod 64]
  else if ((55296 <=? r) && (r <=? 57343)) || (1114111 <? r) then from_bytes [239; 191; 189]
  else if r <? 65536 then from_bytes [224 + r / 4096; 128 + (r / 64) mod 64; 128 + r mod 64]
  else from_bytes [240 + r / 262144; 128 + (r / 4096) mod 64; 128 + (r / 64) mod 64; 128 + r mod 64].

Definition replacement : string := from_bytes [239; 191; 189].

(** The length of the well-formed UTF-8 sequence at the head of [s]
    ([utf8.DecodeRune] gives an error of width 1 when there is none: [0]
    here). *)
Definition utf8_len (s : string) : nat :=
  match s with
  | String c0 s1 =>
      let cont lo hi (s : string) : option string :=
        match s with
        | String c s' => if in_range lo hi c then Some s' else None
        | EmptyString => None
        end in
      let seq (first : Z * Z) (more : nat) (n : nat) : nat :=
        match cont (fst first) (snd first) s1 with
        | None => 0%nat
        | Some s2 =>
            match more with
            | O => n
            | S O => if cont 128 191 s2 is Some _ then n else 0%nat
            | _ => match cont 128 191 s2 with
                   | Some s3 => if cont 128 191 s3 is Some _ then n else 0%nat
                   | None => 0%nat
                   end
            end
        end in
      if in_range 194 223 c0 then seq (128, 191) 0%nat 2%nat
      else if byte c0 =? 224 then seq (160, 191) 1%nat 3%nat
      else if in_range 225 236 c0 || in_range 238 239 c0 then seq (128, 191) 1%nat 3%nat
      else if byte c0 =? 237 then seq (128, 159) 1%nat 3%nat
      else if byte c0 =? 240 then seq (144, 191) 2%nat 4%nat
      else if in_range 241 243 c0 then seq (128, 191) 2%nat 4%nat
      else if byte c0 =? 244 then seq (128, 143) 2%nat 4%nat
      else 0%nat
  | EmptyString => 0%nat
  end.

Definition simple_escape (c : ascii) : option ascii :=
  if byte c =? 34 then Some (chr 34)          (* a quote *)
  else if byte c =? 92 then Some (chr 92)     (* a backslash *)
  else if byte c =? 47 then Some (chr 47)     (* a slash *)
  else if byte c =? 98 then Some (chr 8)      (* b: backspace *)
  else if byte c =? 102 then Some (chr 12)    (* f: form feed *)
  else if byte c =? 110 then Some (chr 10)    (* n: line feed *)
  else if byte c =? 114 then Some (chr 13)    (* r: carriage return *)
  else if byte c =? 116 then Some (chr 9)     (* t: tab *)
  else None.

(** The text between the quotes of a string literal, as [unquote] reads
    it; [None] where the scanner finds a syntax error (a control
    character, a bad escape). *)
Fixpoint unquote (s : string) : option string :=
  match s with
  | EmptyString => Some ""
  | String c s1 =>
      if byte c =? 92 then
        match s1 with
        | String e s2 =>
            if byte e =? 117 then
              match s2 with
              | String h1 (String h2 (String h3 (String h4 s3))) =>
                  match hex4 h1 h2 h3 h4 with
                  | None => None
                  | Some r =>
                      if (55296 <=? r) && (r <=? 57343) then
                        (* a surrogate: a pair if a low one follows a high one *)
                        match s3 with
                        | String b' (String u' (String g1 (String g2 (String g3 (String g4 s4))))) =>
                            match (if (byte b' =? 92) && (byte u' =? 117) then hex4 g1 g2 g3 g4 else None) with
                            | Some r2 =>
                                if (r <? 56320) && (56320 <=? r2) && (r2 <=? 57343)
                                then (λ t, encode_rune ((r - 55296) * 1024 + (r2 - 56320) + 65536) +:+ t) <$> unquote s4
                                else (λ t, replacement +:+ t) <$> unquote s3
                            | None => (λ t, replacement +:+ t) <$> unquote s3
                            end
                        | _ => (λ t, replacement +:+ t) <$> unquote s3
                        end
                      else (λ t, encode_rune r +:+ t) <$> unquote s3
                  end
              | _ => None
              end
            else
              match simple_escape e with
              | Some b => String b <$> unquote s2
              | None => None
              end
        | EmptyString => None
        end
      else if (byte c <? 32) || (byte c =? 34) then None
      else if byte c <? 128 then String c <$> unquote s1
      else
        match utf8_len s, s1 with
        | 2%nat, String c1 s2 => (λ t, String c (String c1 t)) <$> unquote s2
        | 3%nat, String c1 (String c2 s3) => (λ t, String c (String c1 (String c2 t))) <$> unquote s3
        | 4%nat, String c1 (String c2 (String c3 s4)) =>
            (λ t, String c (String c1 (String c2 (String c3 t)))) <$> unquote s4
        | _, _ => (λ t, replacement +:+ t) <$> unquote s1
        end
  end.

(** *** Numbers *)

Fixpoint skip_digits (s : string) : string :=
  match s with
  | String c s' => if is_digit c then skip_digits s' else s
  | EmptyString => ""
  end.

(** One digit or more. *)
Definition digits1 (s : string) : option string :=
  match s with
  | String c s' => if is_digit c then Some (skip_digits s') else None
  | EmptyString => None
  end.

(** A number literal: an optional minus; a zero, or digits that begin
    with none; an optional point with digits; an optional exponent [e]
    or [E] with an optional sign and digits. *)
Definition valid_number (lit : string) : bool :=
  let s := match lit with
           | String c s' => if byte c =? 45 then s' else lit
           | EmptyString => lit
           end in
  let after_int :=
    match s with
    | String c s' =>
        if byte c =? 48 then Some s'
        else if is_digit c then Some (skip_digits s')
        else None
    | EmptyString => None
    end in
  let after_frac :=
    s ← after_int;
    match s with
    | String c s' => if byte c =? 46 then digits1 s' else Some s
    | EmptyString => Some s
    end in
  match after_frac with
  | None => false
  | Some EmptyString => true
  | Some (String c s') =>
      if (byte c =? 101) || (byte c =? 69) then
        let s'' := match s' with
                   | String g t => if (byte g =? 43) || (byte g =? 45) then t else s'
                   | EmptyString => s'
                   end in
        match digits1 s'' with
        | Some EmptyString => true
        | _ => false
        end
      else false
  end.

(** *** Tokens *)

Inductive token :=
  | LBrace | RBrace | LBracket | RBracket | Colon | Comma
  | TString (raw : string)     (* the text between the quotes *)
  | TWord (w : string).        (* a number or one of true, false, null *)

Inductive lex_state :=
  | Idle
  | InString (acc : string)    (* reversed *)
  | InEscape (acc : string)
  | InWord (acc : string).

Definition punct (c : ascii) : option token :=
  if byte c =? 123 then Some LBrace
  else if byte c =? 125 then Some RBrace
  else if byte c =? 91 then Some LBracket
  else if byte c =? 93 then Some RBracket
  else if byte c =? 58 then Some Colon
  else if byte c =? 44 then Some Comma
  else None.

Definition is_word_byte (c : ascii) : bool :=
  negb (is_space c || (byte c =? 34) || bool_decide (is_Some (punct c))).

(** A byte met between two tokens. *)
Definition idle_step (c : ascii) (out : list token) : lex_state * list token :=
  if is_space c then (Idle, out)
  else if byte c =? 34 then (InString "", out)
  else match punct c with
       | Some t => (Idle, t :: out)
       | None => (InWord (String c ""), out)
       end.

(** From the bytes to the tokens, the newest first. *)
Fixpoint lex (s : string) (st : lex_state) (out : list token) : option (list token) :=
  match s with
  | EmptyString =>
      match st with
      | Idle => Some out
      | InWord acc => Some (TWord (String.rev acc) :: out)
      | InString _ | InEscape _ => None
      end
  | String c s' =>
      match st with
      | Idle => let '(st', out') := idle_step c out in lex s' st' out'
      | InWord acc =>
          if is_word_byte c then lex s' (InWord (String c acc)) out
          else let '(st', out') := idle_step c (TWord (String.rev acc) :: out) in lex s' st' out'
      | InString acc =>
          if byte c =? 34 then lex s' Idle (TString (String.rev acc) :: out)
          else if byte c =? 92 then lex s' (InEscape (String c acc)) out
          else lex s' (InString (String c acc)) out
      | InEscape acc => lex s' (InString (String c acc)) out
      end
  end.

(** *** Values *)

(** An open array or object, its items the newest first. *)
Inductive frame :=
  | InArray (items : list value)
  | InObject (members : list (string * value)) (key : option string).

(** What the scanner expects next (its [step] function). *)
Inductive expect :=
  | BeginValue            (* stateBeginValue *)
  | BeginValueOrEmpty     (* stateBeginValueOrEmpty: after an opening bracket *)
  | BeginStringOrEmpty    (* stateBeginStringOrEmpty: after an opening brace *)
  | BeginString           (* stateBeginString: after a comma in an object *)
  | EndKey                (* stateEndValue, parseObjectKey: a colon *)
  | EndValue              (* stateEndValue, parseObjectValue or parseArrayValue *)
  | EndTop (v : value).   (* stateEndTop *)

Definition word_value (w : string) : option value :=
  if String.eqb w "true" then Some (Bool true)
  else if String.eqb w "false" then Some (Bool false)
  else if String.eqb w "null" then Some Null
  else if valid_number w then Some (Number w)
  else None.

Definition maxNestingDepth : Z := 10000.

Definition push (f : frame) (stack : list frame) (e : expect) : option (list frame * expect) :=
  if maxNestingDepth <? Z.of_nat (length (f :: stack)) then None else Some (f :: stack, e).

(** A value is complete: it goes to the innermost open array or object. *)
Definition close_value (v : value) (stack : list frame) : option (list frame * expect) :=
  match stack with
  | [] => Some ([], EndTop v)
  | InArray items :: stack' => Some (InArray (v :: items) :: stack', EndValue)
  | InObject ms (Some k) :: stack' => Some (InObject ((k, v) :: ms) None :: stack', EndValue)
  | InObject _ None :: _ => None
  end.

Definition close_array (stack : list frame) : option (list frame * expect) :=
  match stack with
  | InArray items :: stack' => close_value (Array (rev items)) stack'
  | _ => None
  end.

Definition close_object (stack : list frame) : option (list frame * expect) :=
  match stack with
  | InObject ms None :: stack' => close_value (Object (rev ms)) stack'
  | _ => None
  end.

Definition begin_value (t : token) (stack : list frame) : option (list frame * expect) :=
  match t with
  | LBrace => push (InObject [] None) stack BeginStringOrEmpty
  | LBracket => push (InArray []) stack BeginValueOrEmpty
  | TString raw => s ← unquote raw; close_value (Str s) stack
  | TWord w => v ← word_value w; close_value v stack
  | _ => None
  end.

Definition begin_string (t : token) (stack : list frame) : option (list frame * expect) :=
  match t, stack with
  | TString raw, InObject ms None :: stack' =>
      k ← unquote raw; Some (InObject ms (Some k) :: stack', EndKey)
  | _, _ => None
  end.

Definition step (t : token) (stack : list frame) (e : expect) : option (list frame * expect) :=
  match e with
  | BeginValue => begin_value t stack
  | BeginValueOrEmpty =>
      match t with RBracket => close_array stack | _ => begin_value t stack end
  | BeginStringOrEmpty =>
      match t with RBrace => close_object stack | _ => begin_string t stack end
  | BeginString => begin_string t stack
  | EndKey => match t with Colon => Some (stack, BeginValue) | _ => None end
  | EndValue =>
      match t, stack with
      | Comma, InArray _ :: _ => Some (stack, BeginValue)
      | Comma, InObject _ None :: _ => Some (stack, BeginString)
      | RBracket, _ => close_array stack
      | RBrace, _ => close_object stack
      | _, _ => None
      end
  | EndTop _ => None
  end.

Fixpoint run (ts : list token) (stack : list frame) (e : expect) : option value :=
  match ts with
  | [] => match e with EndTop v => Some v | _ => None end
  | t :: ts' => '(stack', e') ← step t stack e; run ts' stack' e'
  end.

(** The document in [data]; [None] is the [SyntaxError] of [checkValid]
    (which [Unmarshal] runs over all of [data] before it stores
    anything). *)
Definition parse (data : string) : option value :=
  ts ← lex data Idle []; run (rev ts) [] BeginValue.

(** *** Matching a key to a struct field *)

(** [foldName] on a key, so far as it bears on matching a name in ASCII:
    an ASCII letter goes to upper case, and so do the two letters outside
    ASCII that fold to one, U+017F (to S) and U+212A (to K). *)
Fixpoint fold_name (s : string) : string :=
  match s with
  | EmptyString => ""
  | String c s1 =>
      if in_range 97 122 c then String (chr (byte c - 32)) (fold_name s1)
      else
        match s1 with
        | String c1 s2 =>
            if (byte c =? 197) && (byte c1 =? 191) then String (chr 83) (fold_name s2)
            else
              match s2 with
              | String c2 s3 =>
                  if (byte c =? 226) && (byte c1 =? 132) && (byte c2 =? 170)
                  then String (chr 75) (fold_name s3)
                  else String c (fold_name s1)
              | EmptyString => String c (fold_name s1)
              end
        | EmptyString => String c ""
        end
  end.

(** A key names the field [name] when it is [name] or folds to what
    [name] folds to. *)
Definition names (key name : string) : bool :=
  String.eqb key name || String.eqb (fold_name key) (fold_name name).

(** [strconv.ParseInt(lit, 10, 64)] on a number literal: its value when
    the literal is an integer (an optional minus and digits) that fits
    64 bits. *)
Definition int64_of_literal (lit : string) : option Z :=
  d ← NilZero.int_of_string lit;
  let n := Z.of_int d in
  if (- 2 ^ 63 <=? n) && (n <? 2 ^ 63) then Some n else None.

(** What [UnmarshalTypeError] calls the kind of a value that the field
    it is stored in cannot hold. A number that a numeric field cannot
    hold is called by its literal as well, see [store_member]. *)
Definition kind (v : value) : string :=
  match v with
  | Null => "null"
  | Bool _ => "bool"
  | Number _ => "number"
  | Str _ => "string"
  | Array _ => "array"
  | Object _ => "object"
  end.

End json.

(** ** The transport core *)

(** An error value made by one of the libraries. *)
Inductive lib_error :=
  | SyntaxError                                   (* [*json.SyntaxError] *)
  | UnmarshalTypeError (value field : string)     (* [*json.UnmarshalTypeError] *)
  | OtherError (text : string).

Module io.

(** A response body, by what reading it to the end gives once: the bytes
    read, and the error that ended the reading if one did. *)
Record ReadCloser := {
  data : string;
  read_err : option lib_error;
  close_err : option lib_error
}.

(** [io.ReadAll] *)
Definition ReadAll (b : ReadCloser) : string * option lib_error := (data b, read_err b).

End io.

Module http.

(** [http.Header.Set], for a key in canonical form. *)
Definition Header_Set (key value : string) (h : gmap string (list string)) : gmap string (list string) :=
  <[key := [value]]> h.

Module Request.
Record t := mk {
  Method : string;
  URL : string;
  Header : gmap string (list string);
  Body : option string
}.
End Request.

Module Response.
Record t := mk {
  StatusCode : Z;
  Body : io.ReadCloser;
  Request : option Request.t
}.
End Response.

(** [http.Client]: the timeout, in nanoseconds. *)
Record Client := { Timeout : Z }.

End http.

(** [type ErrorResponse struct]; [Response] is the pointer's target, [None]
    for nil. *)
Record ErrorResponse := {
  Response : option http.Response.t;
  Status : Z;
  Title : string;
  Type_ : string;
  Errors : list string
}.

(** Go's [error]: an error of a library, or an [*ErrorResponse]. *)
Inductive error :=
  | LibError (err : lib_error)
  | APIError (e : ErrorResponse).

(** What [Do] is given to write the response body to. *)
Inductive target (W V : Type) :=
  | Writer (w : W)      (* an [io.Writer] *)
  | Value (x : V).      (* anything else: decoded into *)
Arguments Writer {W V} w.
Arguments Value {W V} x.

(** The library calls that are taken as they come: what each returns is a
    parameter of the development. *)
Record library := {
  URL : Type;
  Context : Type;
  Payload : Type;
  Sink : Type;
  GoValue : Type;
  (** [url.Parse] *)
  url_Parse : string → URL + lib_error;
  (** [(u *URL).ResolveReference(ref)]; [None] when it dereferences a nil [u] *)
  ResolveReference : option URL → URL → option URL;
  (** [(u *URL).String()] *)
  URL_String : URL → string;
  (** [json.NewEncoder(buf).Encode(body)]: the bytes written to [buf] *)
  json_Encode : Payload → string + lib_error;
  (** [http.NewRequestWithContext] *)
  http_NewRequestWithContext : Context → string → string → option string → http.Request.t + lib_error;
  (** [(c *http.Client).Do] *)
  client_Do : http.Client → http.Request.t → http.Response.t + lib_error;
  (** [io.Copy(w, body)] *)
  io_Copy : Sink → io.ReadCloser → Sink * option lib_error;
  (** [json.NewDecoder(body).Decode(v)] *)
  json_Decode : io.ReadCloser → GoValue → GoValue * option lib_error;
  (** [json.Unmarshal] into an [*ErrorResponse] of a document that names
      the field [Response] or names [errors] twice: the response the
      pointer leads to and the [ErrorResponse] after it, and its error *)
  json_Unmarshal_other :
    string → http.Response.t → ErrorResponse → http.Response.t * ErrorResponse * option lib_error
}.

(** *** [json.Unmarshal(data, errorResponse)] *)

Inductive field := fResponse | fStatus | fTitle | fType | fErrors.

#[export] Instance field_eq_dec : EqDecision field.
Proof. solve_decision. Defined.

(** The field a key of the document names: [Response] has no tag and goes
    by its name, the others by their tags. *)
Definition field_of_key (key : string) : option field :=
  if json.names key "Response" then Some fResponse
  else if json.names key "status" then Some fStatus
  else if json.names key "title" then Some fTitle
  else if json.names key "type" then Some fType
  else if json.names key "errors" then Some fErrors
  else None.

Definition keys_of (f : field) (ms : list (string * json.value)) : list string :=
  filter (λ k, field_of_key k = Some f) ms.*1.

(** The documents whose decoding is written out below: no key names
    [Response], and at most one names [errors]. *)
Definition plain (ms : list (string * json.value)) : bool :=
  bool_decide (keys_of fResponse ms = []) && bool_decide (length (keys_of fErrors ms) ≤ 1)%nat.

(** [d.saveError]: the first error is the one kept. *)
Definition saveError (err : lib_error) (saved : option lib_error) : option lib_error :=
  match saved with
  | Some _ => saved
  | None => Some err
  end.

(** One element of the array under [errors], stored in a fresh string;
    the error of an element that is no string names the field by the
    index of the element. *)
Definition store_element (st : list string * option lib_error) (v : json.value) :
    list string * option lib_error :=
  let '(elems, saved) := st in
  match v with
  | json.Str s => (elems ++ [s], saved)
  | json.Null => (elems ++ [""], saved)
  | _ =>
      let field := "errors." +:+ strconv.Itoa (Z.of_nat (length elems)) in
      (elems ++ [""], saveError (UnmarshalTypeError (json.kind v) field) saved)
  end.

(** One member of the object: a key that names no field is skipped, a
    null leaves a number or a string as it is and makes a slice nil, a
    value of the wrong kind is a type error and the decoding goes on. *)
Definition store_member (st : ErrorResponse * option lib_error) (m : string * json.value) :
    ErrorResponse * option lib_error :=
  let '(e, saved) := st in
  let '(key, v) := m in
  match field_of_key key with
  | Some fStatus =>
      match v with
      | json.Null => (e, saved)
      | json.Number lit =>
          match json.int64_of_literal lit with
          | Some n =>
              ({| Response := Response e; Status := n; Title := Title e;
                  Type_ := Type_ e; Errors := Errors e |}, saved)
          | None => (e, saveError (UnmarshalTypeError ("number " +:+ lit) "status") saved)
          end
      | _ => (e, saveError (UnmarshalTypeError (json.kind v) "status") saved)
      end
  | Some fTitle =>
      match v with
      | json.Null => (e, saved)
      | json.Str s =>
          ({| Response := Response e; Status := Status e; Title := s;
              Type_ := Type_ e; Errors := Errors e |}, saved)
      | _ => (e, saveError (UnmarshalTypeError (json.kind v) "title") saved)
      end
  | Some fType =>
      match v with
      | json.Null => (e, saved)
      | json.Str s =>
          ({| Response := Response e; Status := Status e; Title := Title e;
              Type_ := s; Errors := Errors e |}, saved)
      | _ => (e, saveError (UnmarshalTypeError (json.kind v) "type") saved)
      end
  | Some fErrors =>
      match v with
      | json.Null =>
          ({| Response := Response e; Status := Status e; Title := Title e;
              Type_ := Type_ e; Errors := [] |}, saved)
      | json.Array vs =>
          let '(elems, saved') := foldl store_element ([], saved) vs in
          ({| Response := Response e; Status := Status e; Title := Title e;
              Type_ := Type_ e; Errors := elems |}, saved')
      | _ => (e, saveError (UnmarshalTypeError (json.kind v) "errors") saved)
      end
  | Some fResponse | None => (e, saved)
  end.

(** How a call ends: with its result, with an error returned, or in a
    panic. *)
Inductive outcome (A : Type) :=
  | Ok (a : A)
  | Err (err : error)
  | Panic.
Arguments Ok {A} a.
Arguments Err {A} err.
Arguments Panic {A}.

Definition and_then {A B} (x : outcome A) (k : A → outcome B) : outcome B :=
  match x with
  | Ok a => k a
  | Err err => Err err
  | Panic => Panic
  end.

(** [x, err := call; if err != nil { return nil, err }] *)
Definition propagate {A} (x : A + lib_error) : outcome A :=
  match x with
  | inl a => Ok a
  | inr err => Err (LibError err)
  end.

Definition deref {A} (x : option A) : outcome A :=
  match x with
  | Some a => Ok a
  | None => Panic
  end.

(** [const ( defaultBaseURL; apiVersion; userAgent )] *)
Definition defaultBaseURL : string := "https://api.bigcommerce.com/stores/".
Definition apiVersion : string := "v3".
Definition userAgent_ : string := "bigcommerce-go-sdk/1.0".

(** [&ErrorResponse{Response: r}] *)
Definition new_ErrorResponse (r : http.Response.t) : ErrorResponse :=
  {| Response := Some r; Status := 0; Title := ""; Type_ := ""; Errors := [] |}.

Section transport.
Context (L : library).

(** [json.Unmarshal(data, errorResponse)], [r] being the response that
    [errorResponse.Response] points to. *)
Definition Unmarshal (data : string) (r : http.Response.t) (e : ErrorResponse) :
    http.Response.t * ErrorResponse * option lib_error :=
  match json.parse data with
  | None => (r, e, Some SyntaxError)
  | Some (json.Object ms) =>
      if plain ms then
        let '(e', saved) := foldl store_member (e, None) ms in (r, e', saved)
      else json_Unmarshal_other L data r e
  | Some json.Null => (r, e, None)
  | Some v => (r, e, Some (UnmarshalTypeError (json.kind v) ""))
  end.

(** [func CheckResponse(r *http.Response) error], with the response as
    it is afterwards. *)
Definition CheckResponse (r : http.Response.t) : http.Response.t * option error :=
  let c := http.Response.StatusCode r in
  if (200 <=? c) && (c <=? 299) then (r, None)
  else
    let errorResponse := new_ErrorResponse r in
    let '(data, err) := io.ReadAll (http.Response.Body r) in
    if bool_decide (err = None) && (0 <? String.length data)%nat then
      match Unmarshal data r errorResponse with
      | (r', _, Some err) => (r', Some (LibError err))
      | (r', errorResponse', None) => (r', Some (APIError errorResponse'))
      end
    else (r, Some (APIError errorResponse)).

(** [type Client struct], without the services (each holds only the
    pointer back to the client). *)
Record Client := {
  client : http.Client;
  baseURL : option (URL L);
  storeHash : string;
  authToken : string;
  userAgent : string
}.

(** [func NewClient(storeHash, authToken string) *Client] *)
Definition NewClient (storeHash authToken : string) : Client :=
  let httpClient := {| http.Timeout := 1000000000 * 30 |} in
  let baseURL :=
    match url_Parse L (defaultBaseURL +:+ storeHash +:+ "/" +:+ apiVersion +:+ "/") with
    | inl u => Some u
    | inr _ => None
    end in
  {| client := httpClient; baseURL := baseURL; storeHash := storeHash;
     authToken := authToken; userAgent := userAgent_ |}.

Notation "x ←! c ; k" := (and_then c (λ x, k))
  (at level 100, c at next level, right associativity, only parsing).

Definition set_headers (c : Client) (req : http.Request.t) : http.Request.t :=
  let h := http.Request.Header req in
  let h := http.Header_Set "X-Auth-Token" (authToken c) h in
  let h := http.Header_Set "User-Agent" (userAgent c) h in
  let h := http.Header_Set "Content-Type" "application/json" h in
  let h := http.Header_Set "Accept" "application/json" h in
  http.Request.mk (http.Request.Method req) (http.Request.URL req) h (http.Request.Body req).

(** [var buf io.ReadWriter; if body != nil { ... Encode(body) ... }] *)
Definition encode_body (body : option (Payload L)) : outcome (option string) :=
  match body with
  | Some body => bytes ←! propagate (json_Encode L body); Ok (Some bytes)
  | None => Ok None
  end.

(** [func (c *Client) NewRequest(ctx, method, urlStr, body)] *)
Definition NewRequest (c : Client) (ctx : Context L) (method urlStr : string)
    (body : option (Payload L)) : outcome http.Request.t :=
  rel ←! propagate (url_Parse L urlStr);
  u ←! deref (ResolveReference L (baseURL c) rel);
  buf ←! encode_body body;
  req ←! propagate (http_NewRequestWithContext L ctx method (URL_String L u) buf);
  Ok (set_headers c req).

(** [func (c *Client) Do(req, v)]: the response, [v] as it is afterwards,
    and the error. The deferred [resp.Body.Close()] has its result
    dropped. *)
Definition Do (c : Client) (req : http.Request.t) (v : option (target (Sink L) (GoValue L))) :
    option http.Response.t * option (target (Sink L) (GoValue L)) * option error :=
  match client_Do L (client c) req with
  | inr err => (None, v, Some (LibError err))
  | inl resp =>
      let '(resp, err) := CheckResponse resp in
      match err with
      | Some err => (Some resp, v, Some err)
      | None =>
          match v with
          | Some (Writer w) =>
              let '(w, err) := io_Copy L w (http.Response.Body resp) in
              (Some resp, Some (Writer w), LibError <$> err)
          | Some (Value x) =>
              let '(x, err) := json_Decode L (http.Response.Body resp) x in
              (Some resp, Some (Value x), LibError <$> err)
          | None => (Some resp, None, None)
          end
      end
  end.

End transport.

(** ** Examples *)

Fixpoint has_control_byte (s : string) : bool :=
  match s with
  | EmptyString => false
  | String c s' => (json.byte c <? 32) || (json.byte c =? 127) || has_control_byte s'
  end.

(** A library to run the examples with. Its [url.Parse] refuses a URL
    that holds an ASCII control byte, as the first check of the one of
    [net/url] does, and takes any other as it is written; its HTTP client
    reaches no server. *)
Definition example_library : library :=
  {| URL := string;
     Context := unit;
     Payload := string;
     Sink := string;
     GoValue := string;
     url_Parse s :=
       if has_control_byte s
       then inr (OtherError "net/url: invalid control character in URL")
       else inl s;
     ResolveReference base ref := (λ b, b +:+ ref) <$> base;
     URL_String u := u;
     json_Encode body := inl body;
     http_NewRequestWithContext _ method u body := inl (http.Request.mk method u ∅ body);
     client_Do _ _ := inr (OtherError "dial tcp: connection refused");
     io_Copy w body := (w +:+ io.data body, io.read_err body);
     json_Decode body _ := (io.data body, io.read_err body);
     json_Unmarshal_other _ r e := (r, e, None) |}.

(** The same text with each apostrophe turned into a double quote. *)
Fixpoint quoted (s : string) : string :=
  match s with
  | EmptyString => ""
  | String c s' => String (if json.byte c =? 39 then json.chr 34 else c) (quoted s')
  end.

Definition create_product : http.Request.t :=
  http.Request.mk "POST" "https://api.bigcommerce.com/stores/abc123/v3/catalog/products" ∅ None.

Definition response_of (status : Z) (body : io.ReadCloser) : http.Response.t :=
  http.Response.mk status body (Some create_product).

(** The response of the scenario: status 422 and the validation error. *)
Definition response_422 : http.Response.t :=
  response_of 422
    {| io.data := quoted "{'status':422,'title':'Validation Failed','errors':['price is required']}";
       io.read_err := None; io.close_err := None |}.

(** A response whose body breaks off while it is read. *)
Definition response_unreadable : http.Response.t :=
  response_of 500
    {| io.data := quoted "{'status':500,'tit";
       io.read_err := Some (OtherError "unexpected EOF"); io.close_err := None |}.

(** A store hash no URL can hold: the byte 127. *)
Definition bad_store_hash : string := String (json.chr 127) "".

(** The members of an error envelope, each of them there or not, in the
    order status, title, type, errors. *)
Definition envelope (status : option Z) (title type : option string)
    (errors : option (list string)) : list (string * json.value) :=
  option_list ((λ n, ("status", json.Number (strconv.Itoa n))) <$> status) ++
  option_list ((λ s, ("title", json.Str s)) <$> title) ++
  option_list ((λ s, ("type", json.Str s)) <$> type) ++
  option_list ((λ l, ("errors", json.Array (json.Str <$> l))) <$> errors).

(** ** Notions the theorems are stated with *)

(** The three bytes that structure a query string. *)
Definition structural (c : ascii) : Prop := c = "&"%char ∨ c = "="%char ∨ c = ";"%char.

(** The fields in the ascending order of their parameter names. *)
Definition fields_by_name : list Field :=
  [FBrandID; FCategoryID; FCondition; FDateCreated; FDateModified; FDirection;
   FID; FIDGreater; FIDIn; FIDLess; FIDMax; FIDMin; FIDNotIn; FInclude;
   FIsActive; FIsFeatured; FIsVisible; FKeywords; FLimit; FName; FPage;
   FPrice; FPriceMax; FPriceMin; FSKU; FSort; FWeight; FWeightMax; FWeightMin].

(** The entries a server reads from the query string of a request with
    the parameters [q]. *)
Definition query_entries (q : QueryParams) : list (string * string) :=
  url.parse_entries (encode q).

Definition page_minus_one : QueryParams :=
  {| Page := -1; Limit := 0; Direction := ""; Sort := ""; Include := [];
     ID := []; IDIn := []; IDNotIn := []; IDMin := 0; IDMax := 0;
     IDGreater := 0; IDLess := 0; Name := ""; SKU := "";
     Price := S754_zero false; PriceMin := S754_zero false; PriceMax := S754_zero false;
     Weight := S754_zero false; WeightMin := S754_zero false; WeightMax := S754_zero false;
     Condition := ""; IsVisible := None; IsFeatured := None;
     CategoryID := []; BrandID := []; Keywords := ""; IsActive := None;
     DateCreated := ""; DateModified := "" |}.

(** A list-valued field: one entry per element, in the list's order. *)
Definition one_entry_per_element {A} (name : string) (show : A → string) (l : list A)
    (es : list (string * string)) : Prop :=
  entries_of name es = (λ x, (name, show x)) <$> l ∧
  length (entries_of name es) = length l.

(** An optional boolean: no entry when nil, else one with the token. *)
Definition optional_boolean_entries (name : string) (p : option bool) : list (string * string) :=
  match p with
  | None => []
  | Some true => [(name, "true")]
  | Some false => [(name, "false")]
  end.

(** The status code is one of success. *)
Definition success (r : http.Response.t) : Prop :=
  200 ≤ http.Response.StatusCode r ≤ 299.

(** ** A JSON document as text *)

Module document.

Definition quote : ascii := json.chr 34.
Definition backslash : ascii := json.chr 92.

(** A hexadecimal digit, in lower case. *)
Definition hex (n : Z) : ascii := json.chr (if n <? 10 then 48 + n else 87 + n).

(** One byte of a string as it is written between the quotes of a
    literal: a quote or a backslash after a backslash, a control byte
    as the six bytes of its escape, any other byte as it is. *)
Definition escape (c : ascii) : string :=
  if (json.byte c =? 34) || (json.byte c =? 92) then String backslash (String c "")
  else if json.byte c <? 32 then
    String backslash (String "u" (String "0" (String "0"
      (String (hex (json.byte c / 16)) (String (hex (json.byte c mod 16)) "")))))
  else String c "".

Fixpoint escaped (s : string) : string :=
  match s with
  | EmptyString => ""
  | String c s' => escape c +:+ escaped s'
  end.

(** The string is UTF-8: each byte is below 128 or begins a well-formed
    sequence of two to four bytes. The first argument bounds the number
    of sequences. *)
Fixpoint utf8_within (n : nat) (s : string) : bool :=
  match s, n with
  | EmptyString, _ => true
  | _, O => false
  | String c s1, S n =>
      if json.byte c <? 128 then utf8_within n s1
      else
        match json.utf8_len s, s1 with
        | 2%nat, String _ s2 => utf8_within n s2
        | 3%nat, String _ (String _ s3) => utf8_within n s3
        | 4%nat, String _ (String _ (String _ s4)) => utf8_within n s4
        | _, _ => false
        end
  end.

Definition utf8 (s : string) : bool := utf8_within (String.length s) s.

(** The bytes of a token. *)
Definition token_text (t : json.token) : string :=
  match t with
  | json.LBrace => "{"
  | json.RBrace => "}"
  | json.LBracket => "["
  | json.RBracket => "]"
  | json.Colon => ":"
  | json.Comma => ","
  | json.TString raw => String quote (raw +:+ String quote "")
  | json.TWord w => w
  end.

Definition text (ts : list json.token) : string :=
  foldr (λ t s, token_text t +:+ s) "" ts.

(** The items of an array or an object, a comma between two of them. *)
Fixpoint separated (items : list (list json.token)) : list json.token :=
  match items with
  | [] => []
  | [item] => item
  | item :: items' => item ++ json.Comma :: separated items'
  end.

(** The tokens a value is written with. *)
Fixpoint tokens (v : json.value) : list json.token :=
  match v with
  | json.Null => [json.TWord "null"]
  | json.Bool b => [json.TWord (if b then "true" else "false")]
  | json.Number lit => [json.TWord lit]
  | json.Str s => [json.TString (escaped s)]
  | json.Array vs => json.LBracket :: separated (tokens <$> vs) ++ [json.RBracket]
  | json.Object ms =>
      json.LBrace ::
      separated ((λ m, let '(k, v) := m in
                       json.TString (escaped k) :: json.Colon :: tokens v) <$> ms) ++
      [json.RBrace]
  end.

(** The document that holds the value [v], written with no white space
    and no escape but those a string needs. *)
Definition write (v : json.value) : string := text (tokens v).

(** Every string of the value is UTF-8 and every number is a number
    literal of JSON. *)
Fixpoint well_formed (v : json.value) : bool :=
  match v with
  | json.Null | json.Bool _ => true
  | json.Number lit => json.valid_number lit
  | json.Str s => utf8 s
  | json.Array vs => forallb well_formed vs
  | json.Object ms => forallb (λ m, let '(k, v) := m in utf8 k && well_formed v) ms
  end.

(** How deep the arrays and objects of a value are nested. *)
Fixpoint depth (v : json.value) : nat :=
  match v with
  | json.Array vs => S (foldr max 0%nat (depth <$> vs))
  | json.Object ms => S (foldr max 0%nat ((λ m, let '(_, v) := m in depth v) <$> ms))
  | _ => 0%nat
  end.

(** A number or a word that comes before [rest] ends there. *)
Definition ends_word (rest : string) : Prop :=
  match rest with
  | EmptyString => True
  | String c _ => json.is_word_byte c = false
  end.

Fixpoint word (w : string) : bool :=
  match w with
  | EmptyString => true
  | String c w' => json.is_word_byte c && word w'
  end.

(** The scanner reads the tokens of [item] from their text, whatever
    comes after it. *)
Definition scanned (item : list json.token) : Prop :=
  ∀ rest out, ends_word rest →
    json.lex (text item +:+ rest) json.Idle out = json.lex rest json.Idle (rev item ++ out).

(** The parser reads [v] from its tokens and goes on with what comes
    after them, within any open arrays and objects that leave room
    for the depth of [v]. *)
Definition parsed (v : json.value) : Prop :=
  ∀ rest stack e,
    e = json.BeginValue ∨ e = json.BeginValueOrEmpty →
    Z.of_nat (length stack) + Z.of_nat (depth v) ≤ json.maxNestingDepth →
    json.run (tokens v ++ rest) stack e =
      '(stack', e') ← json.close_value v stack; json.run rest stack' e'.

(** The bytes a document can begin with: white space and the first
    byte of a value. *)
Definition begins_document (c : ascii) : bool :=
  json.is_space c || json.is_digit c ||
  bool_decide (c ∈ [quote; "{"; "["; "-"; "t"; "f"; "n"]%char).

End document.

(** ** What a document gives the fields of an [ErrorResponse] *)

(** The integer a member gives the field [Status]. *)
Definition status_in (m : string * json.value) : option Z :=
  match field_of_key m.1, m.2 with
  | Some fStatus, json.Number lit => json.int64_of_literal lit
  | _, _ => None
  end.

(** The string a member gives the field [f], [Title] or [Type]. *)
Definition string_in (f : field) (m : string * json.value) : option string :=
  match m.2 with
  | json.Str s => if decide (field_of_key m.1 = Some f) then Some s else None
  | _ => None
  end.

(** The list a member gives the field [Errors]: a null gives the nil
    slice, an array one string for each element, the empty string for an
    element that is no string. *)
Definition errors_in (m : string * json.value) : option (list string) :=
  match field_of_key m.1, m.2 with
  | Some fErrors, json.Null => Some []
  | Some fErrors, json.Array vs =>
      Some ((λ v, match v with json.Str s => s | _ => "" end) <$> vs)
  | _, _ => None
  end.

(** The [ErrorResponse] that [CheckResponse] made for [r], with each
    field as the last member that gives it one leaves it. *)
Definition decoded (r : http.Response.t) (ms : list (string * json.value)) : ErrorResponse :=
  {| Response := Some r;
     Status := default 0 (last (omap status_in ms));
     Title := default "" (last (omap (string_in fTitle) ms));
     Type_ := default "" (last (omap (string_in fType) ms));
     Errors := default [] (last (omap errors_in ms)) |}.

(** The error of the first element of an array under [errors] that is
    neither a string nor a null, [i] being the index of the first
    of [vs]. *)
Fixpoint mistyped_element (i : Z) (vs : list json.value) : option lib_error :=
  match vs with
  | [] => None
  | json.Str _ :: vs' | json.Null :: vs' => mistyped_element (i + 1) vs'
  | v :: _ => Some (UnmarshalTypeError (json.kind v) ("errors." +:+ strconv.Itoa i))
  end.

(** The error of a member whose value its field cannot hold. *)
Definition mistyped (m : string * json.value) : option lib_error :=
  match field_of_key m.1, m.2 with
  | Some fResponse, _ | None, _ | Some _, json.Null => None
  | Some fStatus, json.Number lit =>
      if json.int64_of_literal lit is Some _ then None
      else Some (UnmarshalTypeError ("number " +:+ lit) "status")
  | Some fStatus, v => Some (UnmarshalTypeError (json.kind v) "status")
  | Some fTitle, json.Str _ | Some fType, json.Str _ => None
  | Some fTitle, v => Some (UnmarshalTypeError (json.kind v) "title")
  | Some fType, v => Some (UnmarshalTypeError (json.kind v) "type")
  | Some fErrors, json.Array vs => mistyped_element 0 vs
  | Some fErrors, v => Some (UnmarshalTypeError (json.kind v) "errors")
  end.

(** The first such error of a document. *)
Definition type_error (ms : list (string * json.value)) : option lib_error :=
  head (omap mistyped ms).

(** The strings of an envelope are UTF-8. *)
Definition envelope_utf8 (title type : option string) (errors : option (list string)) : bool :=
  from_option document.utf8 true title && from_option document.utf8 true type &&
  from_option (forallb document.utf8) true errors.

(** A gateway's answer that is no JSON. *)
Definition response_502 : http.Response.t :=
  response_of 502
    {| io.data := "<html>Bad Gateway</html>"; io.read_err := None; io.close_err := None |}.

(** The response of the scenario with the members of its body in another
    order, white space between them, and a title written with escapes. *)
Definition response_422_reordered : http.Response.t :=
  response_of 422
    {| io.data := quoted "{ 'errors' : ['price is required'],
  'title' : 'Validation\u0020Failed',
  'status' : 422 }";
       io.read_err := None; io.close_err := None |}.

(** The members of the body of the scenario in another order, and the
    response whose body is these members as they are written. *)
Definition reordered_members : list (string * json.value) :=
  [("errors", json.Array [json.Str "price is required"]);
   ("title", json.Str "Validation Failed");
   ("status", json.Number "422")].

Definition response_422_written : http.Response.t :=
  response_of 422
    {| io.data := document.write (json.Object reordered_members);
       io.read_err := None; io.close_err := None |}.

(** ** The query string as a whole *)

(** [&QueryParams{IDIn: productIDs}]: every other field at its zero
    value. *)
Definition id_in_params (productIDs : list Z) : QueryParams :=
  {| Page := 0; Limit := 0; Direction := ""; Sort := ""; Include := [];
     ID := []; IDIn := productIDs; IDNotIn := []; IDMin := 0; IDMax := 0;
     IDGreater := 0; IDLess := 0; Name := ""; SKU := "";
     Price := S754_zero false; PriceMin := S754_zero false; PriceMax := S754_zero false;
     Weight := S754_zero false; WeightMin := S754_zero false; WeightMax := S754_zero false;
     Condition := ""; IsVisible := None; IsFeatured := None;
     CategoryID := []; BrandID := []; Keywords := ""; IsActive := None;
     DateCreated := ""; DateModified := "" |}.

(** The bytes a query string is written with: the unreserved characters
    of RFC 3986, the percent sign and the plus sign of an escape, and the
    two separators. *)
Definition query_byte (c : ascii) : bool :=
  negb (url.shouldEscape c) ||
  Ascii.eqb c "%" || Ascii.eqb c "+" || Ascii.eqb c "=" || Ascii.eqb c "&".

Fixpoint all_bytes (p : ascii → bool) (s : string) : bool :=
  match s with
  | EmptyString => true
  | String c s' => p c && all_bytes p s'
  end.

(** A price of 2^-8 (0.00390625), greater than zero and below half a
    cent; every other field at its zero value. *)
Definition small_price_params : QueryParams :=
  {| Page := 0; Limit := 0; Direction := ""; Sort := ""; Include := [];
     ID := []; IDIn := []; IDNotIn := []; IDMin := 0; IDMax := 0;
     IDGreater := 0; IDLess := 0; Name := ""; SKU := "";
     Price := S754_finite false 4503599627370496 (-60);
     PriceMin := S754_zero false; PriceMax := S754_zero false;
     Weight := S754_zero false; WeightMin := S754_zero false; WeightMax := S754_zero false;
     Condition := ""; IsVisible := None; IsFeatured := None;
     CategoryID := []; BrandID := []; Keywords := ""; IsActive := None;
     DateCreated := ""; DateModified := "" |}.

(** ** [ErrorResponse.Error] *)

(** What [%v] writes for a [[]string]: the elements with a space between
    them, in square brackets. *)
Definition fmt_strings (l : list string) : string :=
  "[" +:+ String.concat " " l +:+ "]".

(** [func (e *ErrorResponse) Error() string]. The arguments of
    [fmt.Sprintf] go through [e.Response] and [e.Response.Request]: a nil
    pointer there is dereferenced. [%v] writes the method as it is and the
    URL by its [String] method, [%d] the status code of the response in
    decimal. *)
Definition ErrorResponse_Error (e : ErrorResponse) : outcome string :=
  and_then (deref (Response e)) (λ r,
  and_then (deref (http.Response.Request r)) (λ req,
  Ok (http.Request.Method req +:+ " " +:+ http.Request.URL req +:+ ": " +:+
      strconv.Itoa (http.Response.StatusCode r) +:+ " " +:+ Title e +:+ " - " +:+
      fmt_strings (Errors e)))).

(** The message for a request, a status code, a title and a list of
    details. *)
Definition error_message (req : http.Request.t) (code : Z) (title : string)
    (details : list string) : string :=
  http.Request.Method req +:+ " " +:+ http.Request.URL req +:+ ": " +:+
  strconv.Itoa code +:+ " " +:+ title +:+ " - " +:+ fmt_strings details.

(** ** The resource services: [BrandsService] *)

Section services.
Context (L : library).

Notation "x ←! c ; k" := (and_then c (λ x, k))
  (at level 100, c at next level, right associativity, only parsing).

(** The value a pointer given to [Do] as [v] leads to afterwards. *)
Definition pointee (v : option (target (Sink L) (GoValue L))) (x : GoValue L) : GoValue L :=
  match v with
  | Some (Value x') => x'
  | _ => x
  end.

(** [func (s *BrandsService) CreateContext(ctx, brand)], with
    [brandResponse] the zero value that [new(BrandResponse)] makes, a
    value that is no [io.Writer]. [Err err] is [return nil, err];
    [Ok (x, err)] is [return brandResponse, err] with [x] the value
    [brandResponse] leads to. The body handed to [NewRequest] is an
    interface value that holds a [*Brand], never the nil interface. *)
Definition BrandsService_CreateContext (c : Client L) (ctx : Context L) (brand : Payload L)
    (brandResponse : GoValue L) : outcome (GoValue L * option error) :=
  let path := "catalog/brands" in
  req ←! NewRequest L c ctx "POST" path (Some brand);
  let '(_, v, err) := Do L c req (Some (Value brandResponse)) in
  Ok (pointee v brandResponse, err).

(** [func (s *BrandsService) UpdateContext(ctx, id, brand)] *)
Definition BrandsService_UpdateContext (c : Client L) (ctx : Context L) (id : Z)
    (brand : Payload L) (brandResponse : GoValue L) : outcome (GoValue L * option error) :=
  let path := "catalog/brands/" +:+ strconv.Itoa id in
  req ←! NewRequest L c ctx "PUT" path (Some brand);
  let '(_, v, err) := Do L c req (Some (Value brandResponse)) in
  Ok (pointee v brandResponse, err).

(** [func (s *BrandsService) DeleteContext(ctx, id) error]: [Ok tt] is
    [return nil], [Err err] the error returned. *)
Definition BrandsService_DeleteContext (c : Client L) (ctx : Context L) (id : Z) :
    outcome unit :=
  let path := "catalog/brands/" +:+ strconv.Itoa id in
  req ←! NewRequest L c ctx "DELETE" path None;
  match Do L c req None with
  | (_, _, Some err) => Err err
  | (_, _, None) => Ok tt
  end.

(** What a method that decodes into a fresh response returns, [request]
    being what its call of [NewRequest] gave and [x0] the fresh response:
    nil and the error when there is no request; else the response,
    untouched together with the error of sending or of [CheckResponse],
    or as the decoder left it together with the decoder's error. *)
Definition returns_decoded (c : Client L) (x0 : GoValue L) (request : outcome http.Request.t)
    (result : outcome (GoValue L * option error)) : Prop :=
  match request with
  | Panic => result = Panic
  | Err err => result = Err err
  | Ok req =>
      match client_Do L (client L c) req with
      | inr err => result = Ok (x0, Some (LibError err))
      | inl resp =>
          if bool_decide (200 ≤ http.Response.StatusCode resp ≤ 299) then
            result = Ok ((json_Decode L (http.Response.Body resp) x0).1,
                         LibError <$> (json_Decode L (http.Response.Body resp) x0).2)
          else
            ∃ err, (CheckResponse L resp).2 = Some err ∧ result = Ok (x0, Some err)
      end
  end.

End services.

(** A library that differs from [example_library] in its HTTP client,
    which answers every request with the given status and body. *)
Definition answering_library (status : Z) (body : string) : library :=
  {| URL := string;
     Context := unit;
     Payload := string;
     Sink := string;
     GoValue := string;
     url_Parse := url_Parse example_library;
     ResolveReference := ResolveReference example_library;
     URL_String := URL_String example_library;
     json_Encode := json_Encode example_library;
     http_NewRequestWithContext := http_NewRequestWithContext example_library;
     client_Do _ req :=
       inl (http.Response.mk status
              {| io.data := body; io.read_err := None; io.close_err := None |} (Some req));
     io_Copy := io_Copy example_library;
     json_Decode := json_Decode example_library;
     json_Unmarshal_other := json_Unmarshal_other example_library |}.

(** A response made by hand, without its request. *)
Definition response_without_request : http.Response.t :=
  http.Response.mk 404 {| io.data := ""; io.read_err := None; io.close_err := None |} None.

(** ** The generator script ([main.go]): the records of the catalog

    Each struct the script fills is a record in a module of its name, with
    [zero] the zero value of the type. A field named [Type] is written
    [Type_]. *)

(** The [float64] nearest to [num / den], as Go converts a constant, and
    the [float32]. *)
Definition float64_const (num den : Z) : spec_float :=
  SFdiv 53 1024 (binary_normalize 53 1024 num 0 false) (binary_normalize 53 1024 den 0 false).

Definition float32_const (num den : Z) : spec_float :=
  SFdiv 24 128 (binary_normalize 24 128 num 0 false) (binary_normalize 24 128 den 0 false).

Module Links.
Record t := {
  Current : string;
  Previous : string;
  Next : string
}.

Definition zero : t := {| Current := ""; Previous := ""; Next := "" |}.
End Links.

Module Pagination.
Record t := {
  Total : Z;
  Count : Z;
  PerPage : Z;
  CurrentPage : Z;
  TotalPages : Z;
  Links : Links.t
}.

Definition zero : t :=
  {| Total := 0; Count := 0; PerPage := 0; CurrentPage := 0; TotalPages := 0;
     Links := Links.zero |}.
End Pagination.

Module Meta.
Record t := { Pagination : Pagination.t }.

Definition zero : t := {| Pagination := Pagination.zero |}.
End Meta.

Module CustomURL.
Record t := {
  URL : string;
  IsCustomized : bool
}.

Definition zero : t :=
  {| URL := ""; IsCustomized := false |}.
End CustomURL.

Module Category.
Record t := {
  ID : Z;
  ParentID : Z;
  Name : string;
  Description : string;
  Views : Z;
  SortOrder : Z;
  PageTitle : string;
  MetaKeywords : list string;
  MetaDescription : string;
  LayoutFile : string;
  IsVisible : bool;
  DefaultProductSort : string;
  ImageURL : string;
  CustomURL : option CustomURL.t
}.

Definition zero : t :=
  {| ID := 0; ParentID := 0; Name := ""; Description := ""; Views := 0; SortOrder := 0;
     PageTitle := ""; MetaKeywords := []; MetaDescription := ""; LayoutFile := "";
     IsVisible := false; DefaultProductSort := ""; ImageURL := ""; CustomURL := None |}.
End Category.

Module Brand.
Record t := {
  ID : Z;
  Name : string;
  PageTitle : string;
  MetaKeywords : list string;
  MetaDescription : string;
  ImageURL : string;
  SearchKeywords : string;
  CustomURL : option CustomURL.t
}.

Definition zero : t :=
  {| ID := 0; Name := ""; PageTitle := ""; MetaKeywords := []; MetaDescription := "";
     ImageURL := ""; SearchKeywords := ""; CustomURL := None |}.
End Brand.

Module ProductImage.
Record t := {
  ID : Z;
  ProductID : Z;
  IsThumbnail : bool;
  SortOrder : Z;
  Description : string;
  ImageFile : string;
  URLZoom : string;
  URLStandard : string;
  URLThumbnail : string;
  URLTiny : string;
  DateModified : string
}.

Definition zero : t :=
  {| ID := 0; ProductID := 0; IsThumbnail := false; SortOrder := 0; Description := "";
     ImageFile := ""; URLZoom := ""; URLStandard := ""; URLThumbnail := ""; URLTiny := "";
     DateModified := "" |}.
End ProductImage.

Module ProductVideo.
Record t := {
  ID : Z;
  ProductID : Z;
  Title : string;
  Description : string;
  SortOrder : Z;
  Type_ : string;
  VideoID : string;
  URL : string
}.

Definition zero : t :=
  {| ID := 0; ProductID := 0; Title := ""; Description := ""; SortOrder := 0; Type_ := "";
     VideoID := ""; URL := "" |}.
End ProductVideo.

Module CustomField.
Record t := {
  ID : Z;
  Name : string;
  Value : string;
  ProductID : Z
}.

Definition zero : t :=
  {| ID := 0; Name := ""; Value := ""; ProductID := 0 |}.
End CustomField.

Module PricingRule.
Record t := {
  ID : Z;
  QuantityMin : Z;
  QuantityMax : Z;
  Type_ : string;
  Amount : spec_float;
  ProductID : Z
}.

Definition zero : t :=
  {| ID := 0; QuantityMin := 0; QuantityMax := 0; Type_ := ""; Amount := S754_zero false;
     ProductID := 0 |}.
End PricingRule.

Module OptionValue.
Record t := {
  ID : Z;
  OptionID : Z;
  Label : string;
  SortOrder : Z;
  Value : string;
  IsDefault : bool
}.

Definition zero : t :=
  {| ID := 0; OptionID := 0; Label := ""; SortOrder := 0; Value := ""; IsDefault := false |}.
End OptionValue.

Module Variant.
Record t := {
  ID : Z;
  ProductID : Z;
  SKU : string;
  Price : spec_float;
  CostPrice : spec_float;
  SalePrice : spec_float;
  RetailPrice : spec_float;
  Weight : spec_float;
  Width : spec_float;
  Height : spec_float;
  Depth : spec_float;
  IsFree : bool;
  FixedCostShippingPrice : spec_float;
  PurchasingDisabled : bool;
  PurchasingDisabledMsg : string;
  ImageURL : string;
  UPC : string;
  MPN : string;
  GTIN : string;
  InventoryLevel : Z;
  InventoryWarningLevel : Z;
  BinPickingNumber : string;
  OptionValues : list OptionValue.t
}.

Definition zero : t :=
  {| ID := 0; ProductID := 0; SKU := ""; Price := S754_zero false;
     CostPrice := S754_zero false; SalePrice := S754_zero false;
     RetailPrice := S754_zero false; Weight := S754_zero false; Width := S754_zero false;
     Height := S754_zero false; Depth := S754_zero false; IsFree := false;
     FixedCostShippingPrice := S754_zero false; PurchasingDisabled := false;
     PurchasingDisabledMsg := ""; ImageURL := ""; UPC := ""; MPN := ""; GTIN := "";
     InventoryLevel := 0; InventoryWarningLevel := 0; BinPickingNumber := "";
     OptionValues := [] |}.
End Variant.

Module OptionConfig.
Record t := {
  DefaultValue : string;
  CheckedByDefault : bool;
  CheckboxLabel : string;
  DateLimited : bool;
  DateLimitMode : string;
  DateEarliestValue : string;
  DateLatestValue : string;
  FileTypes : list string;
  FileMaxSize : Z;
  TextMinLength : Z;
  TextMaxLength : Z;
  TextCharsLimit : Z;
  NumberLimited : bool;
  NumberLimitMode : string;
  NumberMin : spec_float;
  NumberMax : spec_float;
  NumberIntOnly : bool
}.

Definition zero : t :=
  {| DefaultValue := ""; CheckedByDefault := false; CheckboxLabel := ""; DateLimited := false;
     DateLimitMode := ""; DateEarliestValue := ""; DateLatestValue := ""; FileTypes := [];
     FileMaxSize := 0; TextMinLength := 0; TextMaxLength := 0; TextCharsLimit := 0;
     NumberLimited := false; NumberLimitMode := ""; NumberMin := S754_zero false;
     NumberMax := S754_zero false; NumberIntOnly := false |}.
End OptionConfig.

Module ProductOption.
Record t := {
  ID : Z;
  ProductID : Z;
  DisplayName : string;
  Type_ : string;
  Config : OptionConfig.t;
  OptionValues : list OptionValue.t
}.

Definition zero : t :=
  {| ID := 0; ProductID := 0; DisplayName := ""; Type_ := ""; Config := OptionConfig.zero;
     OptionValues := [] |}.
End ProductOption.

Module ModifierConfig.
Record t := {
  DefaultValue : string;
  CheckedByDefault : bool;
  CheckboxLabel : string;
  DateLimited : bool;
  DateLimitMode : string;
  DateEarliestValue : string;
  DateLatestValue : string;
  FileTypes : list string;
  FileMaxSize : Z;
  TextMinLength : Z;
  TextMaxLength : Z;
  TextCharsLimit : Z;
  NumberLimited : bool;
  NumberLimitMode : string;
  NumberMin : spec_float;
  NumberMax : spec_float;
  NumberIntOnly : bool;
  ProductListAdjuster : string;
  ProductListAdjustName : string
}.

Definition zero : t :=
  {| DefaultValue := ""; CheckedByDefault := false; CheckboxLabel := ""; DateLimited := false;
     DateLimitMode := ""; DateEarliestValue := ""; DateLatestValue := ""; FileTypes := [];
     FileMaxSize := 0; TextMinLength := 0; TextMaxLength := 0; TextCharsLimit := 0;
     NumberLimited := false; NumberLimitMode := ""; NumberMin := S754_zero false;
     NumberMax := S754_zero false; NumberIntOnly := false; ProductListAdjuster := "";
     ProductListAdjustName := "" |}.
End ModifierConfig.

Module Modifier.
Record t := {
  ID : Z;
  ProductID : Z;
  Name : string;
  DisplayName : string;
  Type_ : string;
  Required : bool;
  Config : ModifierConfig.t;
  OptionValues : list OptionValue.t
}.

Definition zero : t :=
  {| ID := 0; ProductID := 0; Name := ""; DisplayName := ""; Type_ := ""; Required := false;
     Config := ModifierConfig.zero; OptionValues := [] |}.
End Modifier.

Module Review.
Record t := {
  ID : Z;
  ProductID : Z;
  Title : string;
  Text : string;
  Status : string;
  Rating : Z;
  Email : string;
  Name : string;
  DateCreated : string;
  DateModified : string
}.

Definition zero : t :=
  {| ID := 0; ProductID := 0; Title := ""; Text := ""; Status := ""; Rating := 0; Email := "";
     Name := ""; DateCreated := ""; DateModified := "" |}.
End Review.

Module RuleAdjusters.
Record t := {
  Type_ : string;
  Amount : spec_float
}.

Definition zero : t :=
  {| Type_ := ""; Amount := S754_zero false |}.
End RuleAdjusters.

Module RuleCondition.
Record t := {
  OptionID : Z;
  ValueID : Z;
  Rule : string
}.

Definition zero : t :=
  {| OptionID := 0; ValueID := 0; Rule := "" |}.
End RuleCondition.

Module ComplexRule.
Record t := {
  ID : Z;
  ProductID : Z;
  Enabled : bool;
  Stop : bool;
  Purchasing : bool;
  PurchasingMsg : string;
  Adjusters : RuleAdjusters.t;
  Conditions : list RuleCondition.t;
  SortOrder : Z
}.

Definition zero : t :=
  {| ID := 0; ProductID := 0; Enabled := false; Stop := false; Purchasing := false;
     PurchasingMsg := ""; Adjusters := RuleAdjusters.zero; Conditions := []; SortOrder := 0 |}.
End ComplexRule.

Module Product.
Record t := {
  ID : Z;
  Name : string;
  Type_ : string;
  SKU : string;
  Description : string;
  Weight : spec_float;
  Width : spec_float;
  Depth : spec_float;
  Height : spec_float;
  Price : spec_float;
  CostPrice : spec_float;
  RetailPrice : spec_float;
  SalePrice : spec_float;
  MapPrice : spec_float;
  TaxClassID : Z;
  ProductTaxCode : string;
  Categories : list Z;
  BrandID : Z;
  InventoryLevel : Z;
  InventoryWarning : Z;
  InventoryTracking : string;
  FixedCostShipping : spec_float;
  IsFreeShipping : bool;
  IsVisible : bool;
  IsFeatured : bool;
  RelatedProducts : list Z;
  Warranty : string;
  BinPickingNumber : string;
  Layout : string;
  UPC : string;
  MPN : string;
  GTIN : string;
  SearchKeywords : string;
  Availability : string;
  AvailabilityDesc : string;
  GiftWrappingOpts : string;
  SortOrder : Z;
  Condition : string;
  IsConditionShown : bool;
  OrderQuantityMin : Z;
  OrderQuantityMax : Z;
  PageTitle : string;
  MetaKeywords : list string;
  MetaDescription : string;
  DateCreated : string;
  DateModified : string;
  ViewCount : Z;
  PreorderReleaseDate : string;
  PreorderMessage : string;
  IsPreorderOnly : bool;
  IsPriceHidden : bool;
  PriceHiddenLabel : string;
  CustomURL : option CustomURL.t;
  BaseVariantID : Z;
  OpenGraphType : string;
  OpenGraphTitle : string;
  OpenGraphDesc : string;
  Images : list ProductImage.t;
  Videos : list ProductVideo.t;
  CustomFields : list CustomField.t;
  BulkPricingRules : list PricingRule.t;
  Variants : list Variant.t;
  Options : list ProductOption.t;
  Modifiers : list Modifier.t;
  Reviews : list Review.t;
  ComplexRules : list ComplexRule.t
}.

Definition zero : t :=
  {| ID := 0; Name := ""; Type_ := ""; SKU := ""; Description := "";
     Weight := S754_zero false; Width := S754_zero false; Depth := S754_zero false;
     Height := S754_zero false; Price := S754_zero false; CostPrice := S754_zero false;
     RetailPrice := S754_zero false; SalePrice := S754_zero false;
     MapPrice := S754_zero false; TaxClassID := 0; ProductTaxCode := ""; Categories := [];
     BrandID := 0; InventoryLevel := 0; InventoryWarning := 0; InventoryTracking := "";
     FixedCostShipping := S754_zero false; IsFreeShipping := false; IsVisible := false;
     IsFeatured := false; RelatedProducts := []; Warranty := ""; BinPickingNumber := "";
     Layout := ""; UPC := ""; MPN := ""; GTIN := ""; SearchKeywords := ""; Availability := "";
     AvailabilityDesc := ""; GiftWrappingOpts := ""; SortOrder := 0; Condition := "";
     IsConditionShown := false; OrderQuantityMin := 0; OrderQuantityMax := 0; PageTitle := "";
     MetaKeywords := []; MetaDescription := ""; DateCreated := ""; DateModified := "";
     ViewCount := 0; PreorderReleaseDate := ""; PreorderMessage := "";
     IsPreorderOnly := false; IsPriceHidden := false; PriceHiddenLabel := "";
     CustomURL := None; BaseVariantID := 0; OpenGraphType := ""; OpenGraphTitle := "";
     OpenGraphDesc := ""; Images := []; Videos := []; CustomFields := [];
     BulkPricingRules := []; Variants := []; Options := []; Modifiers := []; Reviews := [];
     ComplexRules := [] |}.
End Product.

Module CategoryResponse.
Record t := {
  Data : Category.t;
  Meta : Meta.t
}.

Definition zero : t :=
  {| Data := Category.zero; Meta := Meta.zero |}.
End CategoryResponse.

Module BrandResponse.
Record t := {
  Data : Brand.t;
  Meta : Meta.t
}.

Definition zero : t :=
  {| Data := Brand.zero; Meta := Meta.zero |}.
End BrandResponse.

Module ProductResponse.
Record t := {
  Data : Product.t;
  Meta : Meta.t
}.

Definition zero : t :=
  {| Data := Product.zero; Meta := Meta.zero |}.
End ProductResponse.

Module CustomFieldResponse.
Record t := {
  Data : CustomField.t;
  Meta : Meta.t
}.

Definition zero : t :=
  {| Data := CustomField.zero; Meta := Meta.zero |}.
End CustomFieldResponse.

Module ProductImageResponse.
Record t := {
  Data : ProductImage.t;
  Meta : Meta.t
}.

Definition zero : t :=
  {| Data := ProductImage.zero; Meta := Meta.zero |}.
End ProductImageResponse.

Module ProductVideoResponse.
Record t := {
  Data : ProductVideo.t;
  Meta : Meta.t
}.

Definition zero : t :=
  {| Data := ProductVideo.zero; Meta := Meta.zero |}.
End ProductVideoResponse.

Module ProductOptionResponse.
Record t := {
  Data : ProductOption.t;
  Meta : Meta.t
}.

Definition zero : t :=
  {| Data := ProductOption.zero; Meta := Meta.zero |}.
End ProductOptionResponse.

Module OptionValueResponse.
Record t := {
  Data : OptionValue.t;
  Meta : Meta.t
}.

Definition zero : t :=
  {| Data := OptionValue.zero; Meta := Meta.zero |}.
End OptionValueResponse.

Module VariantResponse.
Record t := {
  Data : Variant.t;
  Meta : Meta.t
}.

Definition zero : t :=
  {| Data := Variant.zero; Meta := Meta.zero |}.
End VariantResponse.

Module ReviewResponse.
Record t := {
  Data : Review.t;
  Meta : Meta.t
}.

Definition zero : t :=
  {| Data := Review.zero; Meta := Meta.zero |}.
End ReviewResponse.

Module PricingRuleResponse.
Record t := {
  Data : PricingRule.t;
  Meta : Meta.t
}.

Definition zero : t :=
  {| Data := PricingRule.zero; Meta := Meta.zero |}.
End PricingRuleResponse.

(** ** The generator script: its effects

    The script draws from [math/rand] and from [gofakeit], calls the
    client, and writes to the log. What the random sources and the server
    answer is taken as it comes: each is a function of a world [W] that
    the script threads through its calls in the order it makes them. What
    the script does to the outside, the calls of the client and the lines
    of the log, is kept in order as a list of events. *)

(** An error made by [fmt.Errorf] from a text and, under [%v], another
    error: a new error that holds only the text. *)
Inductive script_error :=
  | Errorf (text : string) (cause : error).

Inductive event :=
  (** [log.Printf] and [log.Println]: the line *)
  | Printf (line : string)
  (** [log.Printf] of a text followed by an error under [%v] *)
  | PrintfError (text : string) (err : script_error)
  (** [log.Fatalf] of a text followed by an error under [%v] *)
  | Fatalf (text : string) (err : script_error)
  (** the calls of the client, each with its arguments *)
  | CreateCategory (category : Category.t)
  | CreateBrand (brand : Brand.t)
  | CreateProduct (product : Product.t)
  | CreateCustomField (productID : Z) (field : CustomField.t)
  | CreateProductImage (productID : Z) (image : ProductImage.t)
  | CreateProductVideo (productID : Z) (video : ProductVideo.t)
  | CreateOption (productID : Z) (option : ProductOption.t)
  | CreateOptionValue (productID optionID : Z) (value : OptionValue.t)
  | CreateVariant (productID : Z) (variant : Variant.t)
  | CreateReview (productID : Z) (review : Review.t)
  | CreateBulkPricingRule (productID : Z) (rule : PricingRule.t).

(** The sources and the server. A method of a service that decodes into a
    fresh response answers as [BrandsService.CreateContext] does: [Err]
    is a nil response with an error, [Ok] the response with the error of
    [Do], nil or not. The client is the one [main] makes with [NewClient]:
    the methods here are those of its services. *)
Record environment (W : Type) := {
  time_Now_UnixNano : W → Z * W;
  gofakeit_Seed : Z → W → W;
  rand_Seed : Z → W → W;
  (** the integer that [rand.Intn] reduces into its range *)
  rand_source : W → Z * W;
  rand_Float32 : W → spec_float * W;
  gofakeit_ProductCategory : W → string * W;
  gofakeit_ProductDescription : W → string * W;
  gofakeit_ProductName : W → string * W;
  gofakeit_Sentence : Z → W → string * W;
  gofakeit_Word : W → string * W;
  gofakeit_Paragraph : Z → Z → Z → string → W → string * W;
  gofakeit_Company : W → string * W;
  gofakeit_Price : spec_float → spec_float → W → spec_float * W;
  gofakeit_Float64Range : spec_float → spec_float → W → spec_float * W;
  gofakeit_UUID : W → string * W;
  gofakeit_DigitN : Z → W → string * W;
  gofakeit_Color : W → string * W;
  gofakeit_Name : W → string * W;
  gofakeit_Email : W → string * W;
  Categories_CreateContext :
    Category.t → W → outcome (CategoryResponse.t * option error) * W;
  Brands_CreateContext :
    Brand.t → W → outcome (BrandResponse.t * option error) * W;
  Products_CreateContext :
    Product.t → W → outcome (ProductResponse.t * option error) * W;
  CustomFields_CreateContext :
    Z → CustomField.t → W → outcome (CustomFieldResponse.t * option error) * W;
  ProductImages_CreateContext :
    Z → ProductImage.t → W → outcome (ProductImageResponse.t * option error) * W;
  ProductVideos_CreateContext :
    Z → ProductVideo.t → W → outcome (ProductVideoResponse.t * option error) * W;
  Options_CreateContext :
    Z → ProductOption.t → W → outcome (ProductOptionResponse.t * option error) * W;
  Options_CreateOptionValueContext :
    Z → Z → OptionValue.t → W → outcome (OptionValueResponse.t * option error) * W;
  Variants_CreateContext :
    Z → Variant.t → W → outcome (VariantResponse.t * option error) * W;
  Reviews_CreateContext :
    Z → Review.t → W → outcome (ReviewResponse.t * option error) * W;
  BulkPricingRules_CreateContext :
    Z → PricingRule.t → W → outcome (PricingRuleResponse.t * option error) * W
}.
Arguments time_Now_UnixNano {W} _ _.
Arguments gofakeit_Seed {W} _ _ _.
Arguments rand_Seed {W} _ _ _.
Arguments rand_source {W} _ _.
Arguments rand_Float32 {W} _ _.
Arguments gofakeit_ProductCategory {W} _ _.
Arguments gofakeit_ProductDescription {W} _ _.
Arguments gofakeit_ProductName {W} _ _.
Arguments gofakeit_Sentence {W} _ _ _.
Arguments gofakeit_Word {W} _ _.
Arguments gofakeit_Paragraph {W} _ _ _ _ _ _.
Arguments gofakeit_Company {W} _ _.
Arguments gofakeit_Price {W} _ _ _ _.
Arguments gofakeit_Float64Range {W} _ _ _ _.
Arguments gofakeit_UUID {W} _ _.
Arguments gofakeit_DigitN {W} _ _ _.
Arguments gofakeit_Color {W} _ _.
Arguments gofakeit_Name {W} _ _.
Arguments gofakeit_Email {W} _ _.
Arguments Categories_CreateContext {W} _ _ _.
Arguments Brands_CreateContext {W} _ _ _.
Arguments Products_CreateContext {W} _ _ _.
Arguments CustomFields_CreateContext {W} _ _ _ _.
Arguments ProductImages_CreateContext {W} _ _ _ _.
Arguments ProductVideos_CreateContext {W} _ _ _ _.
Arguments Options_CreateContext {W} _ _ _ _.
Arguments Options_CreateOptionValueContext {W} _ _ _ _ _.
Arguments Variants_CreateContext {W} _ _ _ _.
Arguments Reviews_CreateContext {W} _ _ _ _.
Arguments BulkPricingRules_CreateContext {W} _ _ _ _.

(** [const ( NumCategories; ...; MaxReviews )] *)
Definition NumCategories : Z := 10.
Definition NumProducts : Z := 30.

Definition image_url : string :=
  "https://images.pexels.com/photos/45201/kitty-cat-kitten-pet-45201.jpeg".

(** The element type of [tiers] in [addBulkPricingRules]. *)
Module Tier.
Record t := { Min : Z; Max : Z; Amount : spec_float }.
End Tier.


(** [len(xs)] *)
Definition len {A} (xs : list A) : Z := Z.of_nat (length xs).

Section script.
Context {W : Type} (env : environment W).

(** A run from a world and the events so far: the result with the world
    and the events after it, or [None] for a panic. *)
Definition script (A : Type) : Type := W * list event → option (A * (W * list event)).

Definition ret {A} (a : A) : script A := λ s, Some (a, s).

Definition bind {A B} (m : script A) (k : A → script B) : script B :=
  λ s, match m s with
       | Some (a, s') => k a s'
       | None => None
       end.

Definition panic {A} : script A := λ _, None.

Notation "x ←$ c ; k" := (bind c (λ x, k))
  (at level 100, c at next level, right associativity, only parsing).

(** A draw from one of the sources. *)
Definition draw {A} (f : W → A * W) : script A :=
  λ s, let '(a, w) := f s.1 in Some (a, (w, s.2)).






(** [rand.Intn(n)]: a number from 0 up to [n - 1]; panics unless
    [n > 0]. *)
Definition rand_Intn (n : Z) : script Z :=
  if n <=? 0 then panic
  else r ←$ draw (rand_source env); ret (r mod n).

(** [xs[i]] and [xs[i] = x]: out of range is a panic. *)
Definition index {A} (xs : list A) (i : Z) : script A :=
  if (0 <=? i) && (i <? len xs) then
    match xs !! Z.to_nat i with
    | Some x => ret x
    | None => panic
    end
  else panic.

Definition store {A} (i : Z) (x : A) (xs : list A) : script (list A) :=
  if (0 <=? i) && (i <? len xs) then ret (<[Z.to_nat i := x]> xs)
  else panic.

(** [for _, x := range xs { body }] over the variables [s] that the body
    assigns. *)
Fixpoint for_each {A S} (xs : list A) (body : A → S → script S) (s : S) : script S :=
  match xs with
  | [] => ret s
  | x :: xs => s' ←$ body x s; for_each xs body s'
  end.


(** [for i := lo; i < hi; i++ { body }], without and with a [return] in
    the body. *)
Definition for_upto {S} (lo hi : Z) (body : Z → S → script S) (s : S) : script S :=
  for_each (seqZ lo (hi - lo)) body s.


(** [func generateCategories() []Category] *)
Definition generateCategories : script (list Category.t) :=
  let categories := replicate (Z.to_nat NumCategories) Category.zero in
  name ←$ draw (gofakeit_ProductCategory env);
  description ←$ draw (gofakeit_ProductDescription env);
  pageTitle ←$ draw (gofakeit_Sentence env 3);
  keyword1 ←$ draw (gofakeit_Word env);
  keyword2 ←$ draw (gofakeit_Word env);
  keyword3 ←$ draw (gofakeit_Word env);
  metaDescription ←$ draw (gofakeit_Paragraph env 1 2 3 " ");
  categories ←$ store 0
    {| Category.ID := 0;
       Category.ParentID := 0;
       Category.Name := name;
       Category.Description := description;
       Category.Views := 0;
       Category.SortOrder := 0;
       Category.PageTitle := pageTitle;
       Category.MetaKeywords := [keyword1; keyword2; keyword3];
       Category.MetaDescription := metaDescription;
       Category.LayoutFile := "category.html";
       Category.IsVisible := true;
       Category.DefaultProductSort := "";
       Category.ImageURL := image_url;
       Category.CustomURL := None |} categories;
  for_upto 1 NumCategories (λ i categories,
    parentID ←$ (if 2 <? i then rand_Intn i else ret 0);
    name ←$ draw (gofakeit_ProductCategory env);
    description ←$ draw (gofakeit_ProductDescription env);
    pageTitle ←$ draw (gofakeit_Sentence env 3);
    keyword1 ←$ draw (gofakeit_Word env);
    keyword2 ←$ draw (gofakeit_Word env);
    keyword3 ←$ draw (gofakeit_Word env);
    metaDescription ←$ draw (gofakeit_Paragraph env 1 2 3 " ");
    visible ←$ draw (rand_Float32 env);
    store i
      {| Category.ID := 0;
         Category.ParentID := parentID;
         Category.Name := name;
         Category.Description := description;
         Category.Views := 0;
         Category.SortOrder := i;
         Category.PageTitle := pageTitle;
         Category.MetaKeywords := [keyword1; keyword2; keyword3];
         Category.MetaDescription := metaDescription;
         Category.LayoutFile := "category.html";
         Category.IsVisible := SFltb (float32_const 1 10) visible;
         Category.DefaultProductSort := "";
         Category.ImageURL := image_url;
         Category.CustomURL := None |} categories) categories.




(** [func generateProducts(categoryIDs, brandIDs []int) []Product]. The
    inner loop over [categories] that looks for [catID] is the test
    whether it is among them. *)
Definition generateProducts (categoryIDs brandIDs : list Z) : script (list Product.t) :=
  let products := replicate (Z.to_nat NumProducts) Product.zero in
  for_upto 0 NumProducts (λ i products,
    r ←$ rand_Intn 3;
    let numCats := r + 1 in
    categories ←$ for_upto 0 numCats (λ j categories,
      r ←$ rand_Intn (len categoryIDs);
      catID ←$ index categoryIDs r;
      let alreadyAdded := existsb (λ c, c =? catID) categories in
      if negb alreadyAdded then ret (categories ++ [catID]) else ret categories) [];
    r ←$ rand_Intn (len brandIDs);
    brandID ←$ index brandIDs r;
    name ←$ draw (gofakeit_ProductName env);
    price ←$ draw (gofakeit_Price env (float64_const 10 1) (float64_const 1000 1));
    weight ←$ draw (gofakeit_Float64Range env (float64_const 1 10) (float64_const 25 1));
    inventory ←$ rand_Intn 100;
    sku ←$ draw (gofakeit_UUID env);
    description ←$ draw (gofakeit_ProductDescription env);
    width ←$ draw (gofakeit_Float64Range env (float64_const 1 1) (float64_const 50 1));
    depth ←$ draw (gofakeit_Float64Range env (float64_const 1 1) (float64_const 50 1));
    height ←$ draw (gofakeit_Float64Range env (float64_const 1 1) (float64_const 50 1));
    featured ←$ draw (rand_Float32 env);
    warranty ←$ draw (gofakeit_Sentence env 10);
    binPickingNumber ←$ draw (gofakeit_DigitN env 6);
    upc ←$ draw (gofakeit_DigitN env 12);
    mpn ←$ draw (gofakeit_DigitN env 8);
    gtin ←$ draw (gofakeit_DigitN env 14);
    search1 ←$ draw (gofakeit_Word env);
    search2 ←$ draw (gofakeit_Word env);
    search3 ←$ draw (gofakeit_Word env);
    keyword1 ←$ draw (gofakeit_Word env);
    keyword2 ←$ draw (gofakeit_Word env);
    keyword3 ←$ draw (gofakeit_Word env);
    metaDescription ←$ draw (gofakeit_Paragraph env 1 2 3 " ");
    openGraphDesc ←$ draw (gofakeit_Sentence env 5);
    store i
      {| Product.ID := 0;
         Product.Name := name;
         Product.Type_ := "physical";
         Product.SKU := sku;
         Product.Description := description;
         Product.Weight := weight;
         Product.Width := width;
         Product.Depth := depth;
         Product.Height := height;
         Product.Price := price;
         Product.CostPrice := SFmul 53 1024 price (float64_const 6 10);
         Product.RetailPrice := SFmul 53 1024 price (float64_const 12 10);
         Product.SalePrice := SFmul 53 1024 price (float64_const 9 10);
         Product.MapPrice := S754_zero false;
         Product.TaxClassID := 0;
         Product.ProductTaxCode := "";
         Product.Categories := categories;
         Product.BrandID := brandID;
         Product.InventoryLevel := inventory;
         Product.InventoryWarning := 10;
         Product.InventoryTracking := "product";
         Product.FixedCostShipping := S754_zero false;
         Product.IsFreeShipping := false;
         Product.IsVisible := true;
         Product.IsFeatured := SFltb featured (float32_const 2 10);
         Product.RelatedProducts := [];
         Product.Warranty := warranty;
         Product.BinPickingNumber := binPickingNumber;
         Product.Layout := "";
         Product.UPC := upc;
         Product.MPN := "MPN-" +:+ mpn;
         Product.GTIN := gtin;
         Product.SearchKeywords := search1 +:+ ", " +:+ search2 +:+ ", " +:+ search3;
         Product.Availability := "available";
         Product.AvailabilityDesc := "Usually ships in 1-2 business days";
         Product.GiftWrappingOpts := "";
         Product.SortOrder := i;
         Product.Condition := "New";
         Product.IsConditionShown := true;
         Product.OrderQuantityMin := 1;
         Product.OrderQuantityMax := 10;
         Product.PageTitle := name;
         Product.MetaKeywords := [keyword1; keyword2; keyword3];
         Product.MetaDescription := metaDescription;
         Product.DateCreated := "";
         Product.DateModified := "";
         Product.ViewCount := 0;
         Product.PreorderReleaseDate := "";
         Product.PreorderMessage := "";
         Product.IsPreorderOnly := false;
         Product.IsPriceHidden := false;
         Product.PriceHiddenLabel := "";
         Product.CustomURL := None;
         Product.BaseVariantID := 0;
         Product.OpenGraphType := "product";
         Product.OpenGraphTitle := name;
         Product.OpenGraphDesc := openGraphDesc;
         Product.Images := [];
         Product.Videos := [];
         Product.CustomFields := [];
         Product.BulkPricingRules := [];
         Product.Variants := [];
         Product.Options := [];
         Product.Modifiers := [];
         Product.Reviews := [];
         Product.ComplexRules := [] |} products) products.










End script.












(** An option value as it is sent to be created: without the identifier
    that the server gives it. *)
Definition as_sent (value : OptionValue.t) : OptionValue.t :=
  {| OptionValue.ID := 0;
     OptionValue.OptionID := OptionValue.OptionID value;
     OptionValue.Label := OptionValue.Label value;
     OptionValue.SortOrder := OptionValue.SortOrder value;
     OptionValue.Value := OptionValue.Value value;
     OptionValue.IsDefault := OptionValue.IsDefault value |}.




(** Every option created so far has its values, two at least, in the map
    of [addOptionsAndVariants], and each of them was sent to be
    created. *)
Definition values_created (productID : Z) (ids : list Z) (m : gmap Z (list OptionValue.t))
    (evs : list event) : Prop :=
  ∀ oid, oid ∈ ids →
    ∃ vs, m !! oid = Some vs ∧ 2 ≤ len vs ∧
          ∀ v, v ∈ vs →
            CreateOptionValue productID (OptionValue.OptionID v) (as_sent v) ∈ evs.








(** A world that is a counter. Every draw gives a value made from the
    counter and moves it on; the server creates what it is asked to and
    answers with the zero response. *)
Definition counting_environment : environment Z :=
  {| time_Now_UnixNano w := (w, w + 1);
     gofakeit_Seed _ w := w;
     rand_Seed _ w := w;
     rand_source w := (w, w + 1);
     rand_Float32 w := (S754_zero false, w + 1);
     gofakeit_ProductCategory w := ("category " +:+ strconv.Itoa w, w + 1);
     gofakeit_ProductDescription w := ("description " +:+ strconv.Itoa w, w + 1);
     gofakeit_ProductName w := ("product " +:+ strconv.Itoa w, w + 1);
     gofakeit_Sentence _ w := ("sentence " +:+ strconv.Itoa w, w + 1);
     gofakeit_Word w := ("word" +:+ strconv.Itoa w, w + 1);
     gofakeit_Paragraph _ _ _ _ w := ("paragraph " +:+ strconv.Itoa w, w + 1);
     gofakeit_Company w := ("company " +:+ strconv.Itoa w, w + 1);
     gofakeit_Price _ _ w := (float64_const 1999 100, w + 1);
     gofakeit_Float64Range lo _ w := (lo, w + 1);
     gofakeit_UUID w := ("uuid-" +:+ strconv.Itoa w, w + 1);
     gofakeit_DigitN _ w := (strconv.Itoa w, w + 1);
     gofakeit_Color w := ("color " +:+ strconv.Itoa w, w + 1);
     gofakeit_Name w := ("name " +:+ strconv.Itoa w, w + 1);
     gofakeit_Email w := ("mail" +:+ strconv.Itoa w +:+ "@example.com", w + 1);
     Categories_CreateContext _ w := (Ok (CategoryResponse.zero, None), w + 1);
     Brands_CreateContext _ w := (Ok (BrandResponse.zero, None), w + 1);
     Products_CreateContext _ w := (Ok (ProductResponse.zero, None), w + 1);
     CustomFields_CreateContext _ _ w := (Ok (CustomFieldResponse.zero, None), w + 1);
     ProductImages_CreateContext _ _ w := (Ok (ProductImageResponse.zero, None), w + 1);
     ProductVideos_CreateContext _ _ w := (Ok (ProductVideoResponse.zero, None), w + 1);
     Options_CreateContext _ _ w := (Ok (ProductOptionResponse.zero, None), w + 1);
     Options_CreateOptionValueContext _ _ _ w := (Ok (OptionValueResponse.zero, None), w + 1);
     Variants_CreateContext _ _ w := (Ok (VariantResponse.zero, None), w + 1);
     Reviews_CreateContext _ _ w := (Ok (ReviewResponse.zero, None), w + 1);
     BulkPricingRules_CreateContext _ _ w := (Ok (PricingRuleResponse.zero, None), w + 1) |}.

(** * Proofs *)

Ltac each_byte c := destruct c as [[] [] [] [] [] [] [] []].

(** * The library functions at known values *)

Example Itoa_values :
  strconv.Itoa 0 = "0" ∧ strconv.Itoa 50 = "50" ∧ strconv.Itoa (-120) = "-120".
Proof. by vm_compute. Qed.

(** 19.99, 0.125 (a tie, to the even digit), 0.375 (a tie, upwards), 2.675
    (below the tie as a [float64]), 1e21, and the values that are no
    numbers. *)
Example FormatFloat_values :
  strconv.FormatFloat_f2 (S754_finite false 5626588057045565 (-48)) = "19.99" ∧
  strconv.FormatFloat_f2 (S754_finite false 1 (-3)) = "0.12" ∧
  strconv.FormatFloat_f2 (S754_finite false 3 (-3)) = "0.38" ∧
  strconv.FormatFloat_f2 (S754_finite false 6023500225067745 (-51)) = "2.67" ∧
  strconv.FormatFloat_f2 (S754_finite false 7629394531250000 17) = "1000000000000000000000.00" ∧
  strconv.FormatFloat_f2 (S754_infinity false) = "+Inf" ∧
  strconv.FormatFloat_f2 S754_nan = "NaN".
Proof. by vm_compute. Qed.

Example float64_gt0_values :
  float64_gt0 (S754_finite false 1 (-1074)) = true ∧
  float64_gt0 (S754_infinity false) = true ∧
  float64_gt0 (S754_zero false) = false ∧
  float64_gt0 (S754_zero true) = false ∧
  float64_gt0 (S754_finite true 1 0) = false ∧
  float64_gt0 S754_nan = false.
Proof. by vm_compute. Qed.

Example QueryEscape_values :
  url.QueryEscape "id:in" = "id%3Ain" ∧
  url.QueryEscape "a b&c=d/e~f_g-h.i" = "a+b%26c%3Dd%2Fe~f_g-h.i" ∧
  url.QueryUnescape "a+b%26c%3dd" = Some "a b&c=d" ∧
  url.QueryUnescape "100%" = None.
Proof. by vm_compute. Qed.

Example parse_entries_values :
  url.parse_entries "a=1&&b=%zz&c;d=1&id%3Ain=1+2&x&=y" =
    [("a", "1"); ("id:in", "1 2"); ("x", ""); ("", "y")].
Proof. by vm_compute. Qed.

Example json_parse_values :
  json.parse (quoted " [1, -2.5e+3, true, null, {'a' : {}}, [], 'xé\n'] ") =
    Some (json.Array [json.Number "1"; json.Number "-2.5e+3"; json.Bool true; json.Null;
                      json.Object [("a", json.Object [])]; json.Array [];
                      json.Str ("x" +:+ json.from_bytes [195; 169; 10])]) ∧
  json.parse "[1,]" = None ∧
  json.parse (quoted "{'a':1,}") = None ∧
  json.parse "01" = None ∧
  json.parse "nul" = None ∧
  json.parse "1 2" = None ∧
  json.parse "" = None ∧
  json.parse "<html>Not Found</html>" = None.
Proof. by vm_compute. Qed.

Example field_of_key_values :
  field_of_key "status" = Some fStatus ∧
  field_of_key "STATUS" = Some fStatus ∧
  field_of_key "Errors" = Some fErrors ∧
  field_of_key "response" = Some fResponse ∧
  field_of_key "detail" = None.
Proof. by vm_compute. Qed.

(** A price of 19.99 and a visibility set to false, with two categories. *)
Example price_query :
  encode {| Page := 0; Limit := 0; Direction := ""; Sort := ""; Include := [];
            ID := []; IDIn := []; IDNotIn := []; IDMin := 0; IDMax := 0;
            IDGreater := 0; IDLess := 0; Name := ""; SKU := "";
            Price := S754_finite false 5626588057045565 (-48);
            PriceMin := S754_zero false; PriceMax := S754_zero false;
            Weight := S754_zero false; WeightMin := S754_zero false;
            WeightMax := S754_zero false;
            Condition := ""; IsVisible := Some false; IsFeatured := None;
            CategoryID := [7; 3; 7]; BrandID := []; Keywords := ""; IsActive := None;
            DateCreated := ""; DateModified := "" |}
  = "categories=7&categories=3&categories=7&is_visible=false&price=19.99".
Proof. by vm_compute. Qed.

(** * The order [Encode] sorts the keys by *)

Section string_order.

Lemma ascii_compare_refl (a : ascii) : Ascii.compare a a = Eq.
Proof. unfold Ascii.compare. apply N.compare_refl. Qed.

Lemma ascii_compare_trans (c : comparison) (a b d : ascii) :
  Ascii.compare a b = c → Ascii.compare b d = c → Ascii.compare a d = c.
Proof.
  unfold Ascii.compare. destruct c; intros H1 H2.
  - apply N.compare_eq_iff in H1. apply N.compare_eq_iff in H2.
    apply N.compare_eq_iff. congruence.
  - apply N.compare_lt_iff in H1. apply N.compare_lt_iff in H2.
    apply N.compare_lt_iff. by etransitivity.
  - apply N.compare_gt_iff in H1. apply N.compare_gt_iff in H2.
    apply N.compare_gt_iff. by etransitivity.
Qed.

Lemma string_compare_Lt_trans (s t u : string) :
  String.compare s t = Lt → String.compare t u = Lt → String.compare s u = Lt.
Proof.
  revert t u. induction s as [|a s IH]; intros [|b t] [|d u]; simpl; try done.
  destruct (Ascii.compare a b) eqn:Hab; try done;
    destruct (Ascii.compare b d) eqn:Hbd; try done; intros H1 H2.
  - rewrite (ascii_compare_trans Eq a b d) by done. eauto.
  - apply Ascii.compare_eq_iff in Hab. subst. by rewrite Hbd.
  - apply Ascii.compare_eq_iff in Hbd. subst. by rewrite Hab.
  - by rewrite (ascii_compare_trans Lt a b d).
Qed.

Lemma string_compare_refl (s : string) : String.compare s s = Eq.
Proof. induction s as [|a s IH]; simpl; [done|]. by rewrite ascii_compare_refl. Qed.

Lemma string_le_cases (s t : string) :
  url.string_le s t ↔ s = t ∨ String.compare s t = Lt.
Proof.
  unfold url.string_le, String.leb. split.
  - destruct (String.compare s t) eqn:H; try done.
    + left. by apply String.compare_eq_iff.
    + by right.
  - intros [-> | ->]; [|done]. by rewrite string_compare_refl.
Qed.

#[export] Instance string_le_refl : Reflexive url.string_le.
Proof. intros s. apply string_le_cases. by left. Qed.

#[export] Instance string_le_trans : Transitive url.string_le.
Proof.
  intros s t u [->|H1]%string_le_cases [->|H2]%string_le_cases;
    apply string_le_cases; eauto using string_compare_Lt_trans.
Qed.

#[export] Instance string_le_total : Total url.string_le.
Proof. intros s t. apply String.leb_total. Qed.

#[export] Instance string_le_antisym : AntiSymm (=) url.string_le.
Proof. intros s t. apply String.leb_antisym. Qed.

End string_order.

(** * [Values.Encode]: which entries it writes, and in which order *)

Section entries.
Implicit Types (v : url.Values) (k x : string).

Lemma elem_of_sorted_keys v k : k ∈ url.sorted_keys v ↔ is_Some (v !! k).
Proof.
  unfold url.sorted_keys. rewrite merge_sort_Permutation, list_elem_of_fmap. split.
  - intros [[k' l] [-> Hin]]. apply elem_of_map_to_list in Hin. by exists l.
  - intros [l Hl]. exists (k, l). split; [done|]. by apply elem_of_map_to_list.
Qed.

Lemma NoDup_sorted_keys v : NoDup (url.sorted_keys v).
Proof.
  unfold url.sorted_keys. rewrite merge_sort_Permutation. apply NoDup_fst_map_to_list.
Qed.

Lemma sorted_keys_sorted v : StronglySorted url.string_le (url.sorted_keys v).
Proof. apply StronglySorted_merge_sort; apply _. Qed.

Lemma lookup_total_absent v k : k ∉ url.sorted_keys v → v !!! k = [].
Proof.
  rewrite elem_of_sorted_keys, <- eq_None_not_Some. intros H.
  by rewrite lookup_total_alt, H.
Qed.

Lemma entries_of_fmap_eq k (l : list string) :
  entries_of k ((λ x, (k, x)) <$> l) = (λ x, (k, x)) <$> l.
Proof.
  unfold entries_of. induction l as [|x l IHl]; [done|].
  rewrite fmap_cons, filter_cons_True by done. by f_equal.
Qed.

Lemma entries_of_fmap_ne k k0 (l : list string) :
  k0 ≠ k → entries_of k ((λ x, (k0, x)) <$> l) = [].
Proof.
  intros Hne. unfold entries_of. induction l as [|x l IHl]; [done|].
  by rewrite fmap_cons, filter_cons_False.
Qed.

Lemma entries_of_app k (es1 es2 : list (string * string)) :
  entries_of k (es1 ++ es2) = entries_of k es1 ++ entries_of k es2.
Proof. apply filter_app. Qed.

Lemma entries_of_bind (g : string → list string) k (ks : list string) :
  NoDup ks →
  entries_of k (k' ← ks; (λ x, (k', x)) <$> g k') =
  if decide (k ∈ ks) then (λ x, (k, x)) <$> g k else [].
Proof.
  induction 1 as [|k0 ks Hk0 Hnd IH]; [done|].
  cbn [mbind list_bind]. rewrite entries_of_app, IH.
  destruct (decide (k0 = k)) as [->|Hne].
  - rewrite entries_of_fmap_eq.
    rewrite (decide_False (P := k ∈ ks)) by done.
    rewrite (decide_True (P := k ∈ k :: ks)) by left.
    apply app_nil_r.
  - rewrite entries_of_fmap_ne by done. simpl.
    destruct (decide (k ∈ ks)).
    + rewrite decide_True; [done|]. by right.
    + rewrite decide_False; [done|]. intros [?|?]%elem_of_cons; by subst.
Qed.

Lemma entries_of_entries v k :
  entries_of k (url.entries v) = (λ x, (k, x)) <$> (v !!! k).
Proof.
  unfold url.entries. rewrite (entries_of_bind (λ k, v !!! k)) by apply NoDup_sorted_keys.
  case_decide as Hk; [done|]. by rewrite lookup_total_absent.
Qed.

Lemma elem_of_entries v k x : (k, x) ∈ url.entries v ↔ x ∈ v !!! k.
Proof.
  transitivity ((k, x) ∈ entries_of k (url.entries v)).
  - unfold entries_of. rewrite list_elem_of_filter. simpl. tauto.
  - rewrite entries_of_entries, list_elem_of_fmap. split.
    + by intros [y [[= ->] Hy]].
    + intros Hx. by exists x.
Qed.

Lemma keys_bind_sorted (g : string → list string) (ks : list string) :
  StronglySorted url.string_le ks →
  StronglySorted url.string_le (k' ← ks; (λ x, (k', x)) <$> g k').*1.
Proof.
  induction 1 as [|k0 ks Hs IH Hall]; [constructor|].
  cbn [mbind list_bind]. rewrite fmap_app.
  assert (Hle : Forall (url.string_le k0) (k' ← ks; (λ x, (k', x)) <$> g k').*1).
  { apply Forall_forall. intros k [[k1 x] [-> Hin]]%list_elem_of_fmap.
    apply list_elem_of_bind in Hin as [k2 [Hin Hk2]].
    apply list_elem_of_fmap in Hin as [y [[= -> ->] _]].
    simpl. by eapply Forall_forall in Hall. }
  induction (g k0) as [|x l IHl]; [done|].
  rewrite fmap_cons. simpl. constructor; [done|].
  apply Forall_app. split; [|done].
  apply Forall_forall. intros k [[k1 y] [-> Hin]]%list_elem_of_fmap.
  apply list_elem_of_fmap in Hin as [z [[= -> ->] _]]. simpl. reflexivity.
Qed.

Lemma entries_keys_sorted v : StronglySorted url.string_le (url.entries v).*1.
Proof. apply keys_bind_sorted, sorted_keys_sorted. Qed.

End entries.

(** * What each statement of [ToValues] does to the list of one key *)

Section steps.
Implicit Types (v : url.Values) (k x : string).

Lemma Add_lookup_total_eq k x v : url.Add k x v !!! k = v !!! k ++ [x].
Proof. unfold url.Add. by rewrite lookup_total_insert_eq. Qed.

Lemma Add_lookup_total_ne k k' x v : k ≠ k' → url.Add k x v !!! k' = v !!! k'.
Proof. intros. unfold url.Add. by rewrite lookup_total_insert_ne. Qed.

Lemma if_then_eq (c : bool) k x v :
  if_then c (url.Add k x) v !!! k = v !!! k ++ (if c then [x] else []).
Proof. destruct c; simpl; [apply Add_lookup_total_eq | by rewrite app_nil_r]. Qed.

Lemma if_then_ne (c : bool) k k' x v :
  k ≠ k' → if_then c (url.Add k x) v !!! k' = v !!! k'.
Proof. intros. destruct c; simpl; [by apply Add_lookup_total_ne | done]. Qed.

Lemma if_not_nil_eq {A} (p : option A) (f : A → string) k v :
  if_not_nil p (λ a, url.Add k (f a)) v !!! k =
  v !!! k ++ match p with Some a => [f a] | None => [] end.
Proof. destruct p; simpl; [apply Add_lookup_total_eq | by rewrite app_nil_r]. Qed.

Lemma if_not_nil_ne {A} (p : option A) (f : A → string) k k' v :
  k ≠ k' → if_not_nil p (λ a, url.Add k (f a)) v !!! k' = v !!! k'.
Proof. intros. destruct p; simpl; [by apply Add_lookup_total_ne | done]. Qed.

Lemma for_range_eq {A} (xs : list A) (f : A → string) k v :
  for_range xs (λ a, url.Add k (f a)) v !!! k = v !!! k ++ (f <$> xs).
Proof.
  unfold for_range. revert v. induction xs as [|a xs IH]; intros v; simpl.
  - by rewrite app_nil_r.
  - rewrite IH, Add_lookup_total_eq, <- app_assoc. done.
Qed.

Lemma for_range_ne {A} (xs : list A) (f : A → string) k k' v :
  k ≠ k' → for_range xs (λ a, url.Add k (f a)) v !!! k' = v !!! k'.
Proof.
  intros Hne. unfold for_range. revert v. induction xs as [|a xs IH]; intros v; simpl.
  - done.
  - by rewrite IH, Add_lookup_total_ne.
Qed.

End steps.

Ltac other_key :=
  first [ rewrite if_then_ne by done
        | rewrite if_not_nil_ne by done
        | rewrite for_range_ne by done ].

Ltac this_key :=
  first [ rewrite if_then_eq | rewrite if_not_nil_eq | rewrite for_range_eq ].

Ltac read_key :=
  repeat other_key; this_key; repeat other_key;
  rewrite lookup_total_empty, app_nil_l.

(** [ToValues] computes the table: under each field's name, the field's
    contribution, and nothing else. *)
Lemma ToValues_lookup (q : QueryParams) (f : Field) :
  ToValues q !!! param_name f = contribution (field_value q f).
Proof.
  unfold contribution.
  destruct f; unfold ToValues; cbv zeta; cbn [param_name field_value present render];
    read_key; try done.
  all: try rewrite list_fmap_id.
  all: match goal with |- context [match ?x with _ => _ end] => by destruct x end.
Qed.

(** * Reading back what [Encode] wrote *)

Section round_trip.

Lemma unescape_escape_byte (c : ascii) (s : string) :
  url.QueryUnescape (url.escape_byte c +:+ s) = String c <$> url.QueryUnescape s.
Proof. each_byte c; reflexivity. Qed.

Lemma QueryUnescape_QueryEscape (s : string) :
  url.QueryUnescape (url.QueryEscape s) = Some s.
Proof.
  induction s as [|c s IH]; [done|].
  cbn [url.QueryEscape]. by rewrite unescape_escape_byte, IH.
Qed.

Lemma Contains_append (c : ascii) (s t : string) :
  url.Contains c (s +:+ t) = (url.Contains c s || url.Contains c t)%bool.
Proof. induction s as [|a s IH]; simpl; [done|]. by rewrite IH, orb_assoc. Qed.

Lemma Contains_escape_byte (c b : ascii) :
  structural c → url.Contains c (url.escape_byte b) = false.
Proof. intros [->|[->| ->]]; each_byte b; reflexivity. Qed.

Lemma Contains_QueryEscape (c : ascii) (s : string) :
  structural c → url.Contains c (url.QueryEscape s) = false.
Proof.
  intros Hc. induction s as [|b s IH]; [done|].
  cbn [url.QueryEscape]. by rewrite Contains_append, Contains_escape_byte, IH.
Qed.

Lemma Contains_write_entry (c : ascii) (e : string * string) :
  c = "&"%char ∨ c = ";"%char → url.Contains c (url.write_entry e) = false.
Proof.
  intros Hc. unfold url.write_entry.
  rewrite !Contains_append, !Contains_QueryEscape by (unfold structural; tauto).
  destruct Hc as [-> | ->]; reflexivity.
Qed.

Lemma Cut_append (sep : ascii) (s t : string) :
  url.Contains sep s = false →
  url.Cut sep (s +:+ String sep t) = (s, t).
Proof.
  induction s as [|a s IH]; simpl.
  - by rewrite Ascii.eqb_refl.
  - intros [Ha Hs]%orb_false_iff. rewrite Ha, IH by done. done.
Qed.

Lemma Split_no_sep (sep : ascii) (s : string) :
  url.Contains sep s = false → url.Split sep s = [s].
Proof.
  induction s as [|a s IH]; simpl; [done|].
  intros [Ha Hs]%orb_false_iff. by rewrite Ha, IH.
Qed.

Lemma Split_append (sep : ascii) (s t : string) :
  url.Contains sep s = false →
  url.Split sep (s +:+ String sep t) = s :: url.Split sep t.
Proof.
  induction s as [|a s IH]; simpl.
  - by rewrite Ascii.eqb_refl.
  - intros [Ha Hs]%orb_false_iff. by rewrite Ha, IH.
Qed.

Lemma write_entry_nonempty (e : string * string) : String.eqb (url.write_entry e) "" = false.
Proof.
  unfold url.write_entry. destruct (url.QueryEscape e.1); reflexivity.
Qed.

Lemma parse_piece_write_entry (e : string * string) :
  url.parse_piece (url.write_entry e) = [e].
Proof.
  unfold url.parse_piece.
  rewrite Contains_write_entry by tauto. rewrite write_entry_nonempty.
  unfold url.write_entry.
  change ("=" +:+ url.QueryEscape e.2) with (String "=" (url.QueryEscape e.2)).
  rewrite Cut_append by (apply Contains_QueryEscape; unfold structural; tauto).
  rewrite !QueryUnescape_QueryEscape. by destruct e.
Qed.

Lemma parse_entries_concat (es : list (string * string)) :
  url.parse_entries (String.concat "&" (url.write_entry <$> es)) = es.
Proof.
  unfold url.parse_entries.
  induction es as [|e es IH]; [done|].
  destruct es as [|e' es].
  - simpl. rewrite Split_no_sep by (apply Contains_write_entry; tauto).
    simpl. by rewrite parse_piece_write_entry.
  - change (String.concat "&" (url.write_entry <$> e :: e' :: es))
      with (url.write_entry e +:+ String "&" (String.concat "&" (url.write_entry <$> e' :: es))).
    rewrite Split_append by (apply Contains_write_entry; tauto).
    cbn [mbind list_bind]. fold (@mbind list _ _ _ url.parse_piece).
    rewrite IH, parse_piece_write_entry. done.
Qed.

(** [ParseQuery] reads from [Encode]'s output exactly the entries that
    [Encode] wrote, in the order it wrote them. *)
Lemma parse_entries_Encode (v : url.Values) :
  url.parse_entries (url.Encode v) = url.entries v.
Proof. apply parse_entries_concat. Qed.

End round_trip.

(** * The encoded entries of [ToValues], exactly *)

Section exact.
Implicit Types (v : url.Values) (k x : string).

Lemma entries_of_cons_eq k x (es : list (string * string)) :
  entries_of k ((k, x) :: es) = (k, x) :: entries_of k es.
Proof. unfold entries_of. by rewrite filter_cons_True. Qed.

Lemma entries_of_cons_ne k k' x (es : list (string * string)) :
  k' ≠ k → entries_of k ((k', x) :: es) = entries_of k es.
Proof. intros Hne. unfold entries_of. by rewrite filter_cons_False. Qed.

(** Two lists of entries with ascending keys that agree on the entries
    of every key are the same list. *)
Lemma sorted_entries_ext (es1 es2 : list (string * string)) :
  StronglySorted url.string_le es1.*1 →
  StronglySorted url.string_le es2.*1 →
  (∀ k, entries_of k es1 = entries_of k es2) →
  es1 = es2.
Proof.
  revert es2. induction es1 as [|[k1 x1] es1 IH]; intros es2 Hs1 Hs2 Heq.
  - destruct es2 as [|[k2 x2] es2]; [done|].
    specialize (Heq k2). rewrite entries_of_cons_eq in Heq. done.
  - destruct es2 as [|[k2 x2] es2].
    { specialize (Heq k1). rewrite entries_of_cons_eq in Heq. done. }
    rewrite !fmap_cons in Hs1, Hs2. simpl in Hs1, Hs2.
    apply StronglySorted_inv in Hs1 as [Hs1 Hle1].
    apply StronglySorted_inv in Hs2 as [Hs2 Hle2].
    assert (Hk : k1 = k2).
    { destruct (decide (k1 = k2)) as [|Hne]; [done|].
      apply (anti_symm url.string_le).
      - pose proof (Heq k2) as H2.
        rewrite entries_of_cons_ne, entries_of_cons_eq in H2 by done.
        assert (Hin : k2 ∈ es1.*1).
        { apply list_elem_of_fmap. exists (k2, x2). split; [done|].
          assert (Hin' : (k2, x2) ∈ entries_of k2 es1) by (rewrite H2; left).
          by apply list_elem_of_filter in Hin' as [_ ?]. }
        by eapply Forall_forall in Hle1.
      - pose proof (Heq k1) as H1.
        rewrite entries_of_cons_eq, entries_of_cons_ne in H1 by done.
        assert (Hin : k1 ∈ es2.*1).
        { apply list_elem_of_fmap. exists (k1, x1). split; [done|].
          assert (Hin' : (k1, x1) ∈ entries_of k1 es2) by (rewrite <- H1; left).
          by apply list_elem_of_filter in Hin' as [_ ?]. }
        by eapply Forall_forall in Hle2. }
    subst k2.
    pose proof (Heq k1) as H1. rewrite !entries_of_cons_eq in H1.
    injection H1 as -> Htl. f_equal.
    apply IH; [done|done|]. intros k.
    destruct (decide (k1 = k)) as [<-|Hne]; [done|].
    specialize (Heq k). by rewrite !entries_of_cons_ne in Heq.
Qed.

(** The entries of a map whose keys all stand in an ascending list. *)
Lemma entries_over v (ks : list string) :
  StronglySorted url.string_le ks → NoDup ks →
  (∀ k, k ∉ ks → v !!! k = []) →
  url.entries v = k ← ks; (λ x, (k, x)) <$> v !!! k.
Proof.
  intros Hs Hnd Hdom. apply sorted_entries_ext.
  - apply entries_keys_sorted.
  - by apply (keys_bind_sorted (λ k, v !!! k)).
  - intros k. rewrite entries_of_entries.
    rewrite (entries_of_bind (λ k, v !!! k)) by done.
    case_decide as Hk; [done|]. by rewrite Hdom.
Qed.

Lemma fields_by_name_sorted : StronglySorted url.string_le (param_name <$> fields_by_name).
Proof.
  apply Sorted_StronglySorted; [apply _|]. cbn.
  repeat (constructor; [|first [ by constructor | constructor; reflexivity ]]).
  constructor.
Qed.

Lemma fields_by_name_NoDup : NoDup (param_name <$> fields_by_name).
Proof. apply (bool_decide_unpack _). vm_compute. reflexivity. Qed.

Lemma bind_fmap {A B C} (f : A → B) (g : B → list C) (l : list A) :
  (f <$> l) ≫= g = l ≫= (λ a, g (f a)).
Proof. induction l as [|a l IH]; [done|]. cbn [fmap list_fmap mbind list_bind]. by f_equal. Qed.

(** No key but the 29 parameter names. *)
Lemma ToValues_lookup_other (q : QueryParams) k :
  k ∉ param_name <$> fields_by_name → ToValues q !!! k = [].
Proof.
  intros Hk. cbn in Hk. rewrite !not_elem_of_cons in Hk. destruct_and!.
  unfold ToValues. cbv zeta.
  repeat first [ rewrite if_then_ne by congruence
               | rewrite if_not_nil_ne by congruence
               | rewrite for_range_ne by congruence ].
  by rewrite lookup_total_empty.
Qed.

(** What [Encode] writes for [ToValues]: field after field in the order
    of the names, each with its contribution. *)
Lemma entries_ToValues (q : QueryParams) :
  url.entries (ToValues q) =
  f ← fields_by_name; (λ x, (param_name f, x)) <$> contribution (field_value q f).
Proof.
  rewrite (entries_over _ (param_name <$> fields_by_name)).
  - rewrite bind_fmap. generalize fields_by_name. intros fs.
    induction fs as [|f fs IH]; [done|].
    cbn [mbind list_bind]. by rewrite ToValues_lookup, IH.
  - apply fields_by_name_sorted.
  - apply fields_by_name_NoDup.
  - apply ToValues_lookup_other.
Qed.

End exact.

(** * The entries of an encoded query *)

Section encoder.
Implicit Types (q : QueryParams) (f : Field).

Lemma query_entries_eq q : query_entries q = url.entries (ToValues q).
Proof. apply parse_entries_Encode. Qed.

(** Under each field's name stand the values the field contributes, in
    their order, and nothing else. *)
Lemma entries_of_field q f :
  entries_of (param_name f) (query_entries q) =
  (λ x, (param_name f, x)) <$> contribution (field_value q f).
Proof. by rewrite query_entries_eq, entries_of_entries, ToValues_lookup. Qed.

Lemma is_zero_not_present (v : FieldValue) : is_zero v → present v = false.
Proof.
  destruct v as [x|s|x|l|l|p]; simpl; try (by intros ->).
  destruct x; simpl; intros H; by try destruct H.
Qed.

Lemma present_render_nonempty (v : FieldValue) : present v = true → render v ≠ [].
Proof. destruct v as [x|s|x|[|? ?]|[|? ?]|[?|]]; simpl; intros H [=]; discriminate H. Qed.

End encoder.

(** C6. The parameters page 2, limit 50, sort name, direction asc, all
    other fields zero, encode to exactly
    direction=asc&limit=50&page=2&sort=name: these four entries and no
    other. *)
Theorem scenario_encoding :
  encode scenario_params = "direction=asc&limit=50&page=2&sort=name" ∧
  query_entries scenario_params =
    [("direction", "asc"); ("limit", "50"); ("page", "2"); ("sort", "name")].
Proof. split; vm_compute; reflexivity. Qed.

(** C1, as the claim states it, fails: in the scenario's query string the
    names stand as direction, limit, page, sort, while the record declares
    Page, Limit, Direction, Sort. *)
Lemma declared_order_counterexample :
  (query_entries scenario_params).*1 = ["direction"; "limit"; "page"; "sort"] ∧
  ¬ in_declared_order (query_entries scenario_params).*1.
Proof.
  assert (H : (query_entries scenario_params).*1 = ["direction"; "limit"; "page"; "sort"])
    by (vm_compute; reflexivity).
  split; [done|]. rewrite H. unfold in_declared_order. intros Hs.
  inversion Hs as [|? ? _ Hhd]; subst. inversion Hhd as [|? ? Hle]; subst.
  vm_compute in Hle. lia.
Qed.

(** C1, amended. For every [QueryParams] value the parameter names of the
    encoded query string stand in ascending byte-wise order of the names
    (the order in which [Encode] sorts the keys), whatever the order of
    the fields in the record: the entries are those of brand_id, then of
    categories, condition, date_created, and so on to weight:min, each
    field with its values in their order. *)
Theorem names_ascending (q : QueryParams) :
  StronglySorted url.string_le (query_entries q).*1 ∧
  query_entries q =
    f ← fields_by_name; (λ x, (param_name f, x)) <$> contribution (field_value q f).
Proof.
  rewrite query_entries_eq. split.
  - apply entries_keys_sorted.
  - apply entries_ToValues.
Qed.

(** C3, as the claim states it, fails: Page = -1 is not the zero value of
    its type, and [ToValues] adds nothing under page: the query string
    has no entry of that name (it is empty). *)
Lemma negative_number_counterexample :
  ¬ is_zero (field_value page_minus_one FPage) ∧
  ToValues page_minus_one !! param_name FPage = None ∧
  entries_of (param_name FPage) (query_entries page_minus_one) = [] ∧
  encode page_minus_one = "".
Proof. split_and!; [by simpl | vm_compute; reflexivity ..]. Qed.

(** C3, amended. For every field that passes its guard in [ToValues] (a
    number greater than zero, a string that is not empty, a list that is
    not empty, an optional boolean that is not nil), [ToValues] adds
    under the field's fixed name exactly the field's rendered values, at
    least one, and these are the entries of that name in the query
    string; a field that does not pass it (a zero or a negative number
    among them) has no entry. *)
Theorem present_field_has_entries (q : QueryParams) (f : Field) :
  (present (field_value q f) = true →
     ToValues q !!! param_name f = render (field_value q f) ∧
     entries_of (param_name f) (query_entries q) =
       (λ x, (param_name f, x)) <$> render (field_value q f) ∧
     render (field_value q f) ≠ []) ∧
  (present (field_value q f) = false →
     ToValues q !!! param_name f = [] ∧
     entries_of (param_name f) (query_entries q) = []).
Proof.
  rewrite entries_of_field, ToValues_lookup. unfold contribution.
  split; intros H; rewrite H.
  - split_and!; [done|done|]. by apply present_render_nonempty.
  - done.
Qed.

Lemma present_field_has_entries_witness :
  present (field_value scenario_params FLimit) = true ∧
  entries_of "limit" (query_entries scenario_params) = [("limit", "50")].
Proof.
  split; [reflexivity|].
  apply (proj1 (present_field_has_entries scenario_params FLimit) eq_refl).
Defined.

(** C7. A field left at the zero value of its type adds nothing in
    [ToValues], and the encoded query string has no entry under its
    parameter name. *)
Theorem zero_field_has_no_entry (q : QueryParams) (f : Field) :
  is_zero (field_value q f) →
  ToValues q !!! param_name f = [] ∧
  entries_of (param_name f) (query_entries q) = [].
Proof.
  intros Hz. rewrite entries_of_field, ToValues_lookup. unfold contribution.
  by rewrite is_zero_not_present.
Qed.

Lemma zero_field_has_no_entry_witness :
  is_zero (field_value scenario_params FName) ∧
  entries_of "name" (query_entries scenario_params) = [].
Proof.
  split; [reflexivity|].
  apply (zero_field_has_no_entry scenario_params FName). reflexivity.
Defined.

Section lists.
Implicit Types (v : url.Values) (k x : string).

Lemma entries_singleton k (l : list string) :
  url.entries {[k := l]} = (λ x, (k, x)) <$> l.
Proof.
  unfold url.entries, url.sorted_keys.
  assert (Hk : merge_sort url.string_le (map_to_list ({[k := l]} : url.Values)).*1 = [k]).
  { apply Permutation_singleton_r. rewrite merge_sort_Permutation.
    by rewrite map_to_list_singleton. }
  rewrite Hk. cbn [mbind list_bind]. rewrite lookup_total_singleton_eq.
  apply app_nil_r.
Qed.

Lemma for_range_Add_singleton {A} (f : A → string) k (l : list string) (xs : list A) :
  for_range xs (λ a, url.Add k (f a)) {[k := l]} = {[k := l ++ (f <$> xs)]}.
Proof.
  unfold for_range. revert l. induction xs as [|a xs IH]; intros l; simpl.
  - by rewrite app_nil_r.
  - unfold url.Add at 2. rewrite lookup_total_singleton_eq, insert_singleton_eq.
    rewrite IH, <- app_assoc. done.
Qed.

Lemma for_range_Add_empty {A} (f : A → string) k (a : A) (xs : list A) :
  for_range (a :: xs) (λ a, url.Add k (f a)) ∅ = {[k := f <$> a :: xs]}.
Proof.
  unfold for_range. simpl.
  replace (url.Add k (f a) ∅) with ({[k := [f a]]} : url.Values).
  - apply (for_range_Add_singleton f k [f a] xs).
  - unfold url.Add. by rewrite lookup_total_empty, insert_empty.
Qed.

(** The query of [ListContext]: one [id:in] entry per identifier, in
    their order. *)
Lemma ListContext_entries (productIDs : list Z) :
  url.parse_entries (InventoryService_ListContext_query productIDs) =
  (λ id, ("id:in", strconv.Itoa id)) <$> productIDs.
Proof.
  unfold InventoryService_ListContext_query. cbv zeta.
  rewrite parse_entries_Encode.
  destruct productIDs as [|id ids].
  - unfold for_range at 2. simpl. by rewrite map_fold_empty.
  - rewrite for_range_Add_empty, map_fold_singleton, fmap_cons.
    rewrite (for_range_Add_empty (λ x, x)), list_fmap_id, entries_singleton.
    by rewrite <- fmap_cons, <- list_fmap_compose.
Qed.

Lemma one_entry_per_element_field q f {A} (show : A → string) (l : list A) :
  contribution (field_value q f) = show <$> l →
  one_entry_per_element (param_name f) show l (query_entries q).
Proof.
  intros Hc. unfold one_entry_per_element.
  rewrite entries_of_field, Hc, <- list_fmap_compose. split; [done|].
  by rewrite length_fmap.
Qed.

End lists.

(** C8. For every list-valued field holding n elements the encoded query
    string has exactly n entries under the field's name, in the order of
    the list and with nothing merged; the query of the inventory listing
    for the product identifiers 1, 2, 3 has exactly the three entries
    id:in = 1, 2, 3, in that order. *)
Theorem list_fields_repeat (q : QueryParams) (productIDs : list Z) :
  one_entry_per_element "include" (λ x, x) (Include q) (query_entries q) ∧
  one_entry_per_element "id" strconv.Itoa (ID q) (query_entries q) ∧
  one_entry_per_element "id:in" strconv.Itoa (IDIn q) (query_entries q) ∧
  one_entry_per_element "id:not_in" strconv.Itoa (IDNotIn q) (query_entries q) ∧
  one_entry_per_element "categories" strconv.Itoa (CategoryID q) (query_entries q) ∧
  one_entry_per_element "brand_id" strconv.Itoa (BrandID q) (query_entries q) ∧
  url.parse_entries (InventoryService_ListContext_query productIDs) =
    (λ id, ("id:in", strconv.Itoa id)) <$> productIDs ∧
  InventoryService_ListContext_query [1; 2; 3] = "id%3Ain=1&id%3Ain=2&id%3Ain=3" ∧
  url.parse_entries (InventoryService_ListContext_query [1; 2; 3]) =
    [("id:in", "1"); ("id:in", "2"); ("id:in", "3")].
Proof.
  split_and!.
  - by apply (one_entry_per_element_field q FInclude); unfold contribution; simpl;
      rewrite list_fmap_id; destruct (Include q).
  - by apply (one_entry_per_element_field q FID); unfold contribution; simpl; destruct (ID q).
  - by apply (one_entry_per_element_field q FIDIn); unfold contribution; simpl; destruct (IDIn q).
  - by apply (one_entry_per_element_field q FIDNotIn); unfold contribution; simpl;
      destruct (IDNotIn q).
  - by apply (one_entry_per_element_field q FCategoryID); unfold contribution; simpl;
      destruct (CategoryID q).
  - by apply (one_entry_per_element_field q FBrandID); unfold contribution; simpl;
      destruct (BrandID q).
  - apply ListContext_entries.
  - vm_compute; reflexivity.
  - vm_compute; reflexivity.
Qed.

(** C9. Each of the optional booleans IsVisible, IsFeatured and IsActive
    has an entry in the encoded query string exactly when it is set, and
    the entry's value is then the token true or false of the value
    pointed to. *)
Theorem optional_booleans (q : QueryParams) :
  entries_of "is_visible" (query_entries q) =
    optional_boolean_entries "is_visible" (IsVisible q) ∧
  entries_of "is_featured" (query_entries q) =
    optional_boolean_entries "is_featured" (IsFeatured q) ∧
  entries_of "is_active" (query_entries q) =
    optional_boolean_entries "is_active" (IsActive q).
Proof.
  pose proof (entries_of_field q FIsVisible) as Hv.
  pose proof (entries_of_field q FIsFeatured) as Hf.
  pose proof (entries_of_field q FIsActive) as Ha.
  unfold contribution in *. simpl in *. rewrite Hv, Hf, Ha.
  by destruct (IsVisible q) as [[]|], (IsFeatured q) as [[]|], (IsActive q) as [[]|].
Qed.

(** * A document that is written is read back *)

Section strings.

Lemma append_cons (c : ascii) (s t : string) : String c s +:+ t = String c (s +:+ t).
Proof. reflexivity. Qed.

Lemma append_nil_r (s : string) : s +:+ "" = s.
Proof. induction s as [|c s IH]; [done|]. by rewrite append_cons, IH. Qed.

Lemma append_assoc (s t u : string) : (s +:+ t) +:+ u = s +:+ (t +:+ u).
Proof. induction s as [|c s IH]; [done|]. by rewrite !append_cons, IH. Qed.

Lemma byte_range (c : ascii) : 0 ≤ json.byte c < 256.
Proof.
  unfold json.byte. pose proof (nat_ascii_bounded c). lia.
Qed.

(** A byte below 128 is read back from what it is written as. *)
Lemma unquote_escape (c : ascii) (t : string) :
  (json.byte c <? 128) = true →
  json.unquote (document.escape c +:+ t) = String c <$> json.unquote t.
Proof. each_byte c; intros H; try discriminate H; reflexivity. Qed.

Lemma escape_high (c : ascii) : (json.byte c <? 128) = false → document.escape c = String c "".
Proof. each_byte c; intros H; try discriminate H; reflexivity. Qed.

Lemma in_range_high lo hi (c : ascii) :
  128 ≤ lo → json.in_range lo hi c = true → (json.byte c <? 128) = false.
Proof.
  unfold json.in_range. intros Hlo [H1%Z.leb_le _]%andb_true_iff.
  apply Z.ltb_ge. lia.
Qed.

(** The length of a sequence is read off its own bytes. *)
Lemma utf8_len_2 (c : ascii) (s1 : string) :
  json.utf8_len (String c s1) = 2%nat →
  ∃ c1 s2, s1 = String c1 s2 ∧ (json.byte c1 <? 128) = false ∧
    ∀ t, json.utf8_len (String c (String c1 t)) = 2%nat.
Proof.
  unfold json.utf8_len.
  destruct s1 as [|c1 s2]; [by repeat case_match|].
  intros H. exists c1, s2. split; [done|].
  repeat case_match; try done; simplify_eq;
    (split; [by eapply in_range_high; [|done]|done]).
Qed.

Lemma utf8_len_3 (c : ascii) (s1 : string) :
  json.utf8_len (String c s1) = 3%nat →
  ∃ c1 c2 s3, s1 = String c1 (String c2 s3) ∧
    (json.byte c1 <? 128) = false ∧ (json.byte c2 <? 128) = false ∧
    ∀ t, json.utf8_len (String c (String c1 (String c2 t))) = 3%nat.
Proof.
  unfold json.utf8_len.
  destruct s1 as [|c1 [|c2 s3]]; [repeat case_match; try done; congruence..|].
  intros H. exists c1, c2, s3. split; [done|].
  repeat case_match; try done; simplify_eq; try congruence;
    (split_and!; try done; by eapply in_range_high; [|done]).
Qed.

Lemma utf8_len_4 (c : ascii) (s1 : string) :
  json.utf8_len (String c s1) = 4%nat →
  ∃ c1 c2 c3 s4, s1 = String c1 (String c2 (String c3 s4)) ∧
    (json.byte c1 <? 128) = false ∧ (json.byte c2 <? 128) = false ∧
    (json.byte c3 <? 128) = false ∧
    ∀ t, json.utf8_len (String c (String c1 (String c2 (String c3 t)))) = 4%nat.
Proof.
  unfold json.utf8_len.
  destruct s1 as [|c1 [|c2 [|c3 s4]]]; [repeat case_match; try done; congruence..|].
  intros H. exists c1, c2, c3, s4. split; [done|].
  repeat case_match; try done; simplify_eq; try congruence;
    (split_and!; try done; by eapply in_range_high; [|done]).
Qed.

Lemma high_tests (c : ascii) :
  (json.byte c <? 128) = false →
  (json.byte c =? 92) = false ∧ ((json.byte c <? 32) || (json.byte c =? 34)) = false.
Proof.
  intros H%Z.ltb_ge. split; [|apply orb_false_iff; split]; first [apply Z.eqb_neq|apply Z.ltb_ge]; lia.
Qed.

(** A sequence of two to four bytes is read as it is. *)
Lemma unquote_2 (c c1 : ascii) (t : string) :
  (json.byte c <? 128) = false →
  json.utf8_len (String c (String c1 t)) = 2%nat →
  json.unquote (String c (String c1 t)) = (λ t', String c (String c1 t')) <$> json.unquote t.
Proof.
  intros Hc Hlen. destruct (high_tests c Hc) as [H1 H2].
  cbn [json.unquote]. by rewrite H1, H2, Hc, Hlen.
Qed.

Lemma unquote_3 (c c1 c2 : ascii) (t : string) :
  (json.byte c <? 128) = false →
  json.utf8_len (String c (String c1 (String c2 t))) = 3%nat →
  json.unquote (String c (String c1 (String c2 t))) =
    (λ t', String c (String c1 (String c2 t'))) <$> json.unquote t.
Proof.
  intros Hc Hlen. destruct (high_tests c Hc) as [H1 H2].
  cbn [json.unquote]. by rewrite H1, H2, Hc, Hlen.
Qed.

Lemma unquote_4 (c c1 c2 c3 : ascii) (t : string) :
  (json.byte c <? 128) = false →
  json.utf8_len (String c (String c1 (String c2 (String c3 t)))) = 4%nat →
  json.unquote (String c (String c1 (String c2 (String c3 t)))) =
    (λ t', String c (String c1 (String c2 (String c3 t')))) <$> json.unquote t.
Proof.
  intros Hc Hlen. destruct (high_tests c Hc) as [H1 H2].
  cbn [json.unquote]. by rewrite H1, H2, Hc, Hlen.
Qed.

Lemma escaped_cons_high (c : ascii) (s : string) :
  (json.byte c <? 128) = false →
  document.escaped (String c s) = String c (document.escaped s).
Proof. intros H. cbn [document.escaped]. by rewrite escape_high. Qed.

Lemma unquote_escaped_within (n : nat) (s : string) :
  document.utf8_within n s = true → json.unquote (document.escaped s) = Some s.
Proof.
  revert s. induction n as [|n IH]; intros [|c s1] H; try done.
  cbn [document.utf8_within] in H.
  destruct (json.byte c <? 128) eqn:Hc.
  - cbn [document.escaped]. by rewrite unquote_escape, IH.
  - destruct (json.utf8_len (String c s1)) as [|[|[|[|[|]]]]] eqn:Hlen; try done.
    + apply utf8_len_2 in Hlen as (c1 & s2 & -> & Hc1 & Hlen).
      rewrite !escaped_cons_high by done. by rewrite unquote_2, IH.
    + apply utf8_len_3 in Hlen as (c1 & c2 & s3 & -> & Hc1 & Hc2 & Hlen).
      rewrite !escaped_cons_high by done. by rewrite unquote_3, IH.
    + apply utf8_len_4 in Hlen as (c1 & c2 & c3 & s4 & -> & Hc1 & Hc2 & Hc3 & Hlen).
      rewrite !escaped_cons_high by done. by rewrite unquote_4, IH.
Qed.

(** A string that is UTF-8 is read back from its literal. *)
Lemma unquote_escaped (s : string) :
  document.utf8 s = true → json.unquote (document.escaped s) = Some s.
Proof. apply unquote_escaped_within. Qed.

End strings.

Section tokens.

Lemma rev_app_append (s t acc : string) :
  String.rev_app (s +:+ t) acc = String.rev_app t (String.rev_app s acc).
Proof.
  revert acc. induction s as [|c s IH]; intros acc; [done|].
  rewrite append_cons. cbn [String.rev_app]. by rewrite IH.
Qed.

Lemma rev_app_rev_app (s acc t : string) :
  String.rev_app (String.rev_app s acc) t = String.rev_app acc (s +:+ t).
Proof.
  revert acc t. induction s as [|c s IH]; intros acc t; [done|].
  cbn [String.rev_app]. by rewrite IH, append_cons.
Qed.

Lemma rev_rev (s : string) : String.rev (String.rev s) = s.
Proof. unfold String.rev. by rewrite rev_app_rev_app, append_nil_r. Qed.

Lemma text_app (ts1 ts2 : list json.token) :
  document.text (ts1 ++ ts2) = document.text ts1 +:+ document.text ts2.
Proof.
  induction ts1 as [|t ts1 IH]; [done|].
  cbn [app document.text foldr]. fold (document.text (ts1 ++ ts2)).
  fold (document.text ts1). by rewrite IH, append_assoc.
Qed.

(** ** The scanner *)

Lemma lex_escape (c : ascii) (t acc : string) (out : list json.token) :
  json.lex (document.escape c +:+ t) (json.InString acc) out =
    json.lex t (json.InString (String.rev_app (document.escape c) acc)) out.
Proof. each_byte c; reflexivity. Qed.

Lemma lex_escaped (s rest acc : string) (out : list json.token) :
  json.lex (document.escaped s +:+ String document.quote rest) (json.InString acc) out =
    json.lex rest json.Idle
      (json.TString (String.rev (String.rev_app (document.escaped s) acc)) :: out).
Proof.
  revert acc. induction s as [|c s IH]; intros acc; [done|].
  cbn [document.escaped]. by rewrite append_assoc, lex_escape, IH, rev_app_append.
Qed.

Lemma lex_literal (s rest : string) (out : list json.token) :
  json.lex (document.token_text (json.TString (document.escaped s)) +:+ rest) json.Idle out =
    json.lex rest json.Idle (json.TString (document.escaped s) :: out).
Proof.
  cbn [document.token_text]. rewrite append_cons, append_assoc, append_cons.
  change (json.lex (String document.quote ?s) json.Idle out)
    with (json.lex s (json.InString "") out).
  rewrite lex_escaped. by rewrite <- (rev_rev (document.escaped s)) at 2.
Qed.

Lemma lex_more (w rest acc : string) (out : list json.token) :
  document.word w = true →
  json.lex (w +:+ rest) (json.InWord acc) out =
    json.lex rest (json.InWord (String.rev_app w acc)) out.
Proof.
  revert acc. induction w as [|c w IH]; intros acc Hw; [done|].
  cbn [document.word] in Hw. apply andb_true_iff in Hw as [Hc Hw].
  rewrite append_cons. cbn [json.lex String.rev_app]. by rewrite Hc, IH.
Qed.

Lemma lex_end (rest acc : string) (out : list json.token) :
  document.ends_word rest →
  json.lex rest (json.InWord acc) out =
    json.lex rest json.Idle (json.TWord (String.rev acc) :: out).
Proof.
  destruct rest as [|c rest]; [done|]. cbn [document.ends_word json.lex].
  by intros ->.
Qed.

Lemma idle_step_word (c : ascii) (out : list json.token) :
  json.is_word_byte c = true → json.idle_step c out = (json.InWord (String c ""), out).
Proof. each_byte c; intros H; try discriminate H; reflexivity. Qed.

Lemma lex_word (w rest : string) (out : list json.token) :
  w ≠ "" → document.word w = true → document.ends_word rest →
  json.lex (w +:+ rest) json.Idle out = json.lex rest json.Idle (json.TWord w :: out).
Proof.
  destruct w as [|c w]; [done|]. intros _ Hw Hrest.
  cbn [document.word] in Hw. apply andb_true_iff in Hw as [Hc Hw].
  rewrite append_cons. cbn [json.lex]. rewrite idle_step_word by done.
  rewrite lex_more, lex_end by done.
  change (String.rev_app w (String c "")) with (String.rev_app (String c w) "").
  fold (String.rev (String c w)). by rewrite rev_rev.
Qed.

End tokens.

Section numbers.

Lemma digit_word (c : ascii) : json.is_digit c = true → json.is_word_byte c = true.
Proof. each_byte c; intros H; try discriminate H; reflexivity. Qed.

Lemma word_skip_digits (s : string) :
  document.word (json.skip_digits s) = true → document.word s = true.
Proof.
  induction s as [|c s IH]; [done|]. cbn [json.skip_digits document.word].
  destruct (json.is_digit c) eqn:Hc; [|done].
  intros H. by rewrite digit_word, IH.
Qed.

Lemma word_digits1 (s t : string) :
  json.digits1 s = Some t → document.word t = true → document.word s = true.
Proof.
  destruct s as [|c s]; [done|]. cbn [json.digits1 document.word].
  destruct (json.is_digit c) eqn:Hc; [|done].
  intros [= <-] H. by rewrite digit_word, word_skip_digits.
Qed.

Lemma sign_word (c : ascii) :
  (json.byte c =? 43) || (json.byte c =? 45) = true → json.is_word_byte c = true.
Proof. each_byte c; intros H; try discriminate H; reflexivity. Qed.

Lemma minus_word (c : ascii) : (json.byte c =? 45) = true → json.is_word_byte c = true.
Proof. each_byte c; intros H; try discriminate H; reflexivity. Qed.

Lemma zero_word (c : ascii) : (json.byte c =? 48) = true → json.is_word_byte c = true.
Proof. each_byte c; intros H; try discriminate H; reflexivity. Qed.

Lemma point_word (c : ascii) : (json.byte c =? 46) = true → json.is_word_byte c = true.
Proof. each_byte c; intros H; try discriminate H; reflexivity. Qed.

Lemma e_word (c : ascii) :
  (json.byte c =? 101) || (json.byte c =? 69) = true → json.is_word_byte c = true.
Proof. each_byte c; intros H; try discriminate H; reflexivity. Qed.

(** What follows the fraction of a number is made of the bytes of a
    word. *)
Lemma word_exponent (s : string) :
  match s with
  | EmptyString => true
  | String c s' =>
      if (json.byte c =? 101) || (json.byte c =? 69) then
        let s'' := match s' with
                   | String g t => if (json.byte g =? 43) || (json.byte g =? 45) then t else s'
                   | EmptyString => s'
                   end in
        match json.digits1 s'' with
        | Some EmptyString => true
        | _ => false
        end
      else false
  end = true →
  document.word s = true.
Proof.
  destruct s as [|c s']; [done|].
  destruct (_ || _) eqn:Hc; [|done]. cbn [document.word]. rewrite e_word by done.
  cbv zeta. destruct s' as [|g t]; [done|].
  destruct ((json.byte g =? 43) || (json.byte g =? 45)) eqn:Hg.
  - destruct (json.digits1 t) as [[|]|] eqn:Hd; try done.
    intros _. cbn [document.word]. rewrite sign_word by done.
    by eapply word_digits1.
  - destruct (json.digits1 (String g t)) as [[|]|] eqn:Hd; try done.
    intros _. by eapply word_digits1.
Qed.

Lemma word_fraction (s : string) :
  match
    match s with
    | String c s' => if json.byte c =? 46 then json.digits1 s' else Some s
    | EmptyString => Some s
    end
  with
  | None => false
  | Some t => bool_decide (document.word t = true)
  end = true →
  document.word s = true.
Proof.
  destruct s as [|c s']; [done|].
  destruct (json.byte c =? 46) eqn:Hc.
  - destruct (json.digits1 s') as [t|] eqn:Hd; [|done].
    intros Ht%bool_decide_eq_true. cbn [document.word]. rewrite point_word by done.
    by eapply word_digits1.
  - by intros Ht%bool_decide_eq_true.
Qed.

Lemma valid_number_word (lit : string) :
  json.valid_number lit = true → lit ≠ "" ∧ document.word lit = true.
Proof.
  unfold json.valid_number. intros H.
  split; [by intros ->|].
  revert H.
  set (s := match lit with
            | String c s' => if json.byte c =? 45 then s' else lit
            | EmptyString => lit
            end).
  assert (Hs : document.word s = true → document.word lit = true).
  { subst s. destruct lit as [|c s']; [done|].
    destruct (json.byte c =? 45) eqn:Hc; [|done].
    intros H. cbn [document.word]. by rewrite minus_word. }
  intros H. apply Hs. clear Hs. revert H. generalize s. clear. intros s.
  cbv zeta.
  destruct s as [|c s']; [done|].
  destruct (json.byte c =? 48) eqn:H0.
  - cbn [mbind option_bind]. intros H. cbn [document.word]. rewrite zero_word by done.
    apply word_fraction.
    destruct s' as [|d s'']; [done|].
    destruct (json.byte d =? 46); [|by rewrite bool_decide_eq_true_2 by (by apply word_exponent)].
    destruct (json.digits1 s'') as [t|]; [|done].
    by rewrite bool_decide_eq_true_2 by (by apply word_exponent).
  - destruct (json.is_digit c) eqn:Hd; [|done].
    cbn [mbind option_bind]. intros H. cbn [document.word]. rewrite digit_word by done.
    apply word_skip_digits, word_fraction.
    destruct (json.skip_digits s') as [|d s'']; [done|].
    destruct (json.byte d =? 46); [|by rewrite bool_decide_eq_true_2 by (by apply word_exponent)].
    destruct (json.digits1 s'') as [t|]; [|done].
    by rewrite bool_decide_eq_true_2 by (by apply word_exponent).
Qed.

Lemma valid_number_value (lit : string) :
  json.valid_number lit = true → json.word_value lit = Some (json.Number lit).
Proof.
  intros H. unfold json.word_value. rewrite H.
  destruct lit as [|c s]; [done|].
  assert (Hc : json.is_digit c = true ∨ (json.byte c =? 45) = true).
  { unfold json.valid_number in H.
    destruct (json.byte c =? 45) eqn:Hm; [by right|left].
    destruct (json.byte c =? 48) eqn:H0; [by each_byte c|].
    by destruct (json.is_digit c). }
  by destruct Hc; each_byte c.
Qed.

End numbers.

Section values.

(** Induction on a value, with the property at hand for the elements
    of an array and for the values of the members of an object. *)
Lemma value_induction (P : json.value → Prop) :
  P json.Null → (∀ b, P (json.Bool b)) → (∀ lit, P (json.Number lit)) →
  (∀ s, P (json.Str s)) →
  (∀ vs, Forall P vs → P (json.Array vs)) →
  (∀ ms, Forall (λ m, P m.2) ms → P (json.Object ms)) →
  ∀ v, P v.
Proof.
  intros HNull HBool HNumber HStr HArray HObject.
  fix IH 1. intros [ |b|lit|s|vs|ms]; [done..| |].
  - apply HArray. induction vs as [|v vs IHvs]; constructor; [apply IH|apply IHvs].
  - apply HObject. induction ms as [|[k v] ms IHms]; constructor; [apply IH|apply IHms].
Qed.

(** ** The scanner on a document *)

Lemma text_cons (t : json.token) (ts : list json.token) :
  document.text (t :: ts) = document.token_text t +:+ document.text ts.
Proof. reflexivity. Qed.

Lemma scanned_separated (items : list (list json.token)) :
  Forall document.scanned items → document.scanned (document.separated items).
Proof.
  induction 1 as [|item items Hitem _ IH]; [by intros rest out _|].
  destruct items as [|item' items]; [done|].
  intros rest out Hrest.
  change (document.separated (item :: item' :: items))
    with (item ++ json.Comma :: document.separated (item' :: items)).
  rewrite text_app, append_assoc, Hitem by done.
  rewrite text_cons, append_assoc.
  change (json.lex (document.token_text json.Comma +:+ ?s) json.Idle ?o)
    with (json.lex s json.Idle (json.Comma :: o)).
  rewrite IH by done. rewrite rev_app_distr. cbn [rev]. by rewrite <- !app_assoc.
Qed.

Lemma scanned_tokens (v : json.value) :
  document.well_formed v = true → document.scanned (document.tokens v).
Proof.
  induction v as [ |b|lit|s|vs IH|ms IH] using value_induction; intros Hv rest out Hrest.
  - by apply (lex_word "null").
  - destruct b; [by apply (lex_word "true")|by apply (lex_word "false")].
  - apply valid_number_word in Hv as [? ?].
    cbn [document.tokens document.text foldr]. rewrite append_nil_r.
    by apply lex_word.
  - cbn [document.tokens]. rewrite text_cons, append_assoc. by rewrite lex_literal.
  - cbn [document.tokens]. rewrite text_cons, append_assoc, text_app, append_assoc.
    change (json.lex (document.token_text json.LBracket +:+ ?s) json.Idle ?o)
      with (json.lex s json.Idle (json.LBracket :: o)).
    rewrite scanned_separated; [|..|done].
    + cbn [rev]. by rewrite rev_app_distr, <- !app_assoc.
    + cbn [document.well_formed] in Hv. rewrite forallb_forall in Hv.
      apply Forall_fmap, Forall_forall. intros v Hin.
      rewrite Forall_forall in IH. apply IH; [done|]. apply Hv. by apply list_elem_of_In.
  - cbn [document.tokens]. rewrite text_cons, append_assoc, text_app, append_assoc.
    change (json.lex (document.token_text json.LBrace +:+ ?s) json.Idle ?o)
      with (json.lex s json.Idle (json.LBrace :: o)).
    rewrite scanned_separated; [|..|done].
    + cbn [rev]. by rewrite rev_app_distr, <- !app_assoc.
    + cbn [document.well_formed] in Hv. rewrite forallb_forall in Hv.
      apply Forall_fmap, Forall_forall. intros [k v] Hin.
      rewrite Forall_forall in IH. specialize (IH _ Hin).
      apply list_elem_of_In, Hv, andb_true_iff in Hin as [Hk Hwf].
      intros rest' out' Hrest'. cbn [compose].
      rewrite text_cons, append_assoc, lex_literal.
      rewrite text_cons, append_assoc.
      change (json.lex (document.token_text json.Colon +:+ ?s) json.Idle ?o)
        with (json.lex s json.Idle (json.Colon :: o)).
      rewrite IH by done. cbn [rev]. by rewrite <- !app_assoc.
Qed.

Lemma lex_write (v : json.value) :
  document.well_formed v = true →
  json.lex (document.write v) json.Idle [] = Some (rev (document.tokens v)).
Proof.
  intros Hv. unfold document.write.
  rewrite <- (append_nil_r (document.text _)).
  rewrite scanned_tokens by done. by rewrite app_nil_r.
Qed.

End values.

Section parser.

Lemma run_cons (t : json.token) (ts : list json.token) stack e :
  json.run (t :: ts) stack e = '(stack', e') ← json.step t stack e; json.run ts stack' e'.
Proof. reflexivity. Qed.

Lemma push_room (f : json.frame) (stack : list json.frame) (e : json.expect) :
  Z.of_nat (length stack) + 1 ≤ json.maxNestingDepth →
  json.push f stack e = Some (f :: stack, e).
Proof.
  intros H. unfold json.push.
  destruct (_ <? _) eqn:Hd; [|done].
  apply Z.ltb_lt in Hd. cbn [length] in Hd. lia.
Qed.

Lemma depth_element (v : json.value) (vs : list json.value) :
  v ∈ vs → (document.depth v ≤ foldr max 0 (document.depth <$> vs))%nat.
Proof.
  induction 1 as [v vs|v v' vs _ IH]; cbn [fmap list_fmap foldr]; lia.
Qed.

Lemma depth_member (m : string * json.value) (ms : list (string * json.value)) :
  m ∈ ms →
  (document.depth m.2 ≤ foldr max 0 ((λ m, let '(_, v) := m in document.depth v) <$> ms))%nat.
Proof.
  induction 1 as [[k v] ms|[k v] [k' v'] ms _ IH]; cbn [fmap list_fmap foldr snd] in *; lia.
Qed.

(** The elements of an array, the first of them at hand. *)
Lemma run_elements (vs : list json.value) (v : json.value) (acc : list json.value)
    (rest : list json.token) (stack : list json.frame) (e : json.expect) :
  Forall document.parsed (v :: vs) →
  e = json.BeginValue ∨ e = json.BeginValueOrEmpty →
  Z.of_nat (length stack) + 1 +
    Z.of_nat (foldr max 0%nat (document.depth <$> v :: vs)) ≤ json.maxNestingDepth →
  json.run (document.separated (document.tokens <$> v :: vs) ++ json.RBracket :: rest)
      (json.InArray acc :: stack) e =
    '(stack', e') ← json.close_value (json.Array (rev acc ++ v :: vs)) stack;
    json.run rest stack' e'.
Proof.
  revert v acc e. induction vs as [|v' vs IH]; intros v acc e Hall He Hd.
  - apply Forall_inv in Hall.
    cbn [fmap list_fmap document.separated]. rewrite Hall; [|done|].
    + cbn [json.close_value mbind option_bind]. rewrite run_cons.
      cbn [json.step json.close_array]. by cbn [rev].
    + cbn [fmap list_fmap foldr length] in Hd |- *. lia.
  - pose proof (Forall_inv Hall) as Hv. apply Forall_inv_tail in Hall.
    change (document.separated (document.tokens <$> v :: v' :: vs))
      with (document.tokens v ++ json.Comma :: document.separated (document.tokens <$> v' :: vs)).
    rewrite <- app_assoc. rewrite Hv; [|done|].
    + cbn [json.close_value mbind option_bind]. rewrite <- app_comm_cons, run_cons.
      cbn [json.step mbind option_bind]. rewrite IH; [|done|by left|].
      * cbn [rev]. by rewrite <- app_assoc.
      * cbn [fmap list_fmap foldr] in Hd |- *. lia.
    + cbn [fmap list_fmap foldr length] in Hd |- *. lia.
Qed.

(** The members of an object, the first of them at hand. *)
Lemma run_members (ms : list (string * json.value)) (m : string * json.value)
    (acc : list (string * json.value)) (rest : list json.token) (stack : list json.frame)
    (e : json.expect) :
  Forall (λ m, document.utf8 m.1 = true ∧ document.parsed m.2) (m :: ms) →
  e = json.BeginString ∨ e = json.BeginStringOrEmpty →
  Z.of_nat (length stack) + 1 +
    Z.of_nat (foldr max 0%nat ((λ m, let '(_, v) := m in document.depth v) <$> m :: ms))
    ≤ json.maxNestingDepth →
  json.run
      (document.separated
         ((λ m, let '(k, v) := m in
                json.TString (document.escaped k) :: json.Colon :: document.tokens v)
            <$> m :: ms) ++ json.RBrace :: rest)
      (json.InObject acc None :: stack) e =
    '(stack', e') ← json.close_value (json.Object (rev acc ++ m :: ms)) stack;
    json.run rest stack' e'.
Proof.
  revert m acc e. induction ms as [|m' ms IH]; intros [k v] acc e Hall He Hd.
  - apply Forall_inv in Hall as [Hk Hv]. cbn [fst snd] in Hk, Hv.
    cbn [fmap list_fmap document.separated]. rewrite <- !app_comm_cons, run_cons.
    assert (Hstep : json.step (json.TString (document.escaped k))
                      (json.InObject acc None :: stack) e =
                    Some (json.InObject acc (Some k) :: stack, json.EndKey)).
    { destruct He as [-> | ->]; cbn [json.step json.begin_string];
        by rewrite unquote_escaped. }
    rewrite Hstep. cbn [mbind option_bind]. rewrite run_cons.
    cbn [json.step mbind option_bind]. rewrite Hv; [|by left|].
    + cbn [json.close_value mbind option_bind]. rewrite run_cons.
      cbn [json.step json.close_object]. by cbn [rev].
    + cbn [fmap list_fmap foldr length] in Hd |- *. lia.
  - pose proof (Forall_inv Hall) as [Hk Hv]. cbn [fst snd] in Hk, Hv.
    apply Forall_inv_tail in Hall.
    match goal with
    | |- json.run (document.separated (?f <$> _) ++ _) _ _ = _ =>
        change (document.separated (f <$> (k, v) :: m' :: ms))
          with ((json.TString (document.escaped k) :: json.Colon :: document.tokens v) ++
                json.Comma :: document.separated (f <$> m' :: ms))
    end.
    rewrite <- !app_comm_cons, run_cons.
    assert (Hstep : json.step (json.TString (document.escaped k))
                      (json.InObject acc None :: stack) e =
                    Some (json.InObject acc (Some k) :: stack, json.EndKey)).
    { destruct He as [-> | ->]; cbn [json.step json.begin_string];
        by rewrite unquote_escaped. }
    rewrite Hstep. cbn [mbind option_bind]. rewrite run_cons.
    cbn [json.step mbind option_bind]. rewrite <- app_assoc. rewrite Hv; [|by left|].
    + cbn [json.close_value mbind option_bind]. rewrite <- app_comm_cons, run_cons.
      cbn [json.step mbind option_bind]. rewrite IH; [|done|by left|].
      * cbn [rev]. by rewrite <- app_assoc.
      * destruct m' as [k' v']. cbn [fmap list_fmap foldr] in Hd |- *. lia.
    + destruct m' as [k' v']. cbn [fmap list_fmap foldr length] in Hd |- *. lia.
Qed.

Lemma parsed_tokens (v : json.value) :
  document.well_formed v = true → document.parsed v.
Proof.
  induction v as [ |b|lit|s|vs IH|ms IH] using value_induction;
    intros Hv rest stack e He Hd.
  - cbn [document.tokens app]. rewrite run_cons. by destruct He as [-> | ->].
  - cbn [document.tokens app]. rewrite run_cons. by destruct He as [-> | ->], b.
  - cbn [document.tokens app]. rewrite run_cons.
    pose proof (valid_number_value lit Hv) as Hw.
    destruct He as [-> | ->]; cbn [json.step json.begin_value]; by rewrite Hw.
  - cbn [document.tokens app]. rewrite run_cons.
    pose proof (unquote_escaped s Hv) as Hs.
    destruct He as [-> | ->]; cbn [json.step json.begin_value]; by rewrite Hs.
  - cbn [document.tokens]. rewrite <- app_comm_cons, run_cons.
    cbn [document.depth] in Hd.
    assert (Hstep : json.step json.LBracket stack e =
                    Some (json.InArray [] :: stack, json.BeginValueOrEmpty)).
    { destruct He as [-> | ->]; cbn [json.step json.begin_value];
        apply push_room; lia. }
    rewrite Hstep. cbn [mbind option_bind]. rewrite <- app_assoc.
    change ([?t] ++ rest) with (t :: rest).
    cbn [document.well_formed] in Hv. apply Is_true_true, forallb_True in Hv.
    destruct vs as [|v vs].
    + cbn [fmap list_fmap document.separated app]. rewrite run_cons. done.
    + rewrite run_elements; [done| |by right|lia].
      rewrite Forall_forall in IH, Hv |- *. intros x Hx.
      apply IH; [done|]. by apply Is_true_true, Hv.
  - cbn [document.tokens]. rewrite <- app_comm_cons, run_cons.
    cbn [document.depth] in Hd.
    assert (Hstep : json.step json.LBrace stack e =
                    Some (json.InObject [] None :: stack, json.BeginStringOrEmpty)).
    { destruct He as [-> | ->]; cbn [json.step json.begin_value];
        apply push_room; lia. }
    rewrite Hstep. cbn [mbind option_bind]. rewrite <- app_assoc.
    change ([?t] ++ rest) with (t :: rest).
    cbn [document.well_formed] in Hv. apply Is_true_true, forallb_True in Hv.
    destruct ms as [|m ms].
    + cbn [fmap list_fmap document.separated app]. rewrite run_cons. done.
    + rewrite run_members; [done| |by right|lia].
      rewrite Forall_forall in IH, Hv |- *. intros [k v0] Hx.
      specialize (IH _ Hx). apply Hv, Is_true_true, andb_true_iff in Hx as [H2 H3].
      split; [done|by apply IH].
Qed.

(** A value is read back from the document it is written as. *)
Lemma parse_write (v : json.value) :
  document.well_formed v = true →
  Z.of_nat (document.depth v) ≤ json.maxNestingDepth →
  json.parse (document.write v) = Some v.
Proof.
  intros Hv Hd. unfold json.parse. rewrite lex_write by done.
  cbn [mbind option_bind]. rewrite rev_involutive.
  rewrite <- (app_nil_r (document.tokens v)).
  rewrite parsed_tokens; [done..|by left|]. cbn [length]. lia.
Qed.

End parser.

(** * What [json.Unmarshal] leaves in an [ErrorResponse] *)

Section decoding.

Lemma default_last {A} (d : A) (o : option A) (l : list A) :
  default (default d o) (last l) = default d (last (option_list o ++ l)).
Proof.
  rewrite last_app. destruct (last l); [done|]. by destruct o.
Qed.

Lemma omap_cons {A B} (f : A → option B) (x : A) (l : list A) :
  omap f (x :: l) = option_list (f x) ++ omap f l.
Proof. cbn [omap list_omap]. by destruct (f x). Qed.

Lemma store_elements (vs : list json.value) (elems : list string) (saved : option lib_error) :
  foldl store_element (elems, saved) vs =
    (elems ++ ((λ v, match v with json.Str s => s | _ => "" end) <$> vs),
     match saved with
     | Some _ => saved
     | None => mistyped_element (Z.of_nat (length elems)) vs
     end).
Proof.
  revert elems saved. induction vs as [|v vs IH]; intros elems saved.
  - cbn [foldl fmap list_fmap mistyped_element]. rewrite app_nil_r. by destruct saved.
  - cbn [foldl]. cbn [fmap list_fmap]. rewrite cons_middle, app_assoc.
    assert (Hlen : ∀ x : string,
              Z.of_nat (length (elems ++ [x])) = Z.of_nat (length elems) + 1).
    { intros x. rewrite length_app. cbn [length]. lia. }
    destruct v; cbn [store_element mistyped_element]; rewrite IH, ?Hlen;
      try done; by destruct saved.
Qed.

Lemma store_member_fields (e : ErrorResponse) (saved : option lib_error)
    (m : string * json.value) :
  store_member (e, saved) m =
    ({| Response := Response e;
        Status := default (Status e) (status_in m);
        Title := default (Title e) (string_in fTitle m);
        Type_ := default (Type_ e) (string_in fType m);
        Errors := default (Errors e) (errors_in m) |},
     match saved with Some _ => saved | None => mistyped m end).
Proof.
  destruct e as [resp st ti ty errs], m as [k v].
  unfold store_member, status_in, string_in, errors_in, mistyped. cbn [fst snd].
  destruct (field_of_key k) as [[]|] eqn:Hk.
  - destruct v; by destruct saved.
  - destruct v; cbn; try (by destruct saved).
    destruct (json.int64_of_literal lit); by destruct saved.
  - destruct v; cbn; by destruct saved.
  - destruct v; cbn; by destruct saved.
  - destruct v; cbn; try (by destruct saved).
    rewrite store_elements. cbn. by destruct saved.
  - destruct v; by destruct saved.
Qed.

Lemma store_members (ms : list (string * json.value)) (e : ErrorResponse)
    (saved : option lib_error) :
  foldl store_member (e, saved) ms =
    ({| Response := Response e;
        Status := default (Status e) (last (omap status_in ms));
        Title := default (Title e) (last (omap (string_in fTitle) ms));
        Type_ := default (Type_ e) (last (omap (string_in fType) ms));
        Errors := default (Errors e) (last (omap errors_in ms)) |},
     match saved with Some _ => saved | None => head (omap mistyped ms) end).
Proof.
  revert e saved. induction ms as [|m ms IH]; intros e saved.
  - destruct e. cbn. by destruct saved.
  - cbn [foldl]. rewrite store_member_fields, IH. cbn [Response Status Title Type_ Errors].
    rewrite !default_last, <- !omap_cons. f_equal.
    rewrite (omap_cons mistyped). by destruct saved, (mistyped m).
Qed.

Lemma decode_members (r : http.Response.t) (ms : list (string * json.value)) :
  foldl store_member (new_ErrorResponse r, None) ms = (decoded r ms, type_error ms).
Proof. by rewrite store_members. Qed.

End decoding.

(** * Text that is no document *)

Section malformed.

(** The scanner adds its tokens in front of those it has; the word it
    is in the middle of comes first among them, with the bytes it had
    at its head. *)
Lemma lex_tokens (s : string) (st : json.lex_state) (out ts : list json.token) :
  json.lex s st out = Some ts →
  match st with
  | json.InWord acc =>
      ∃ w ts', ts = ts' ++ json.TWord (String.rev (String.rev_app w acc)) :: out
  | _ => ∃ ts', ts = ts' ++ out
  end.
Proof.
  revert st out. induction s as [|c s IH]; intros st out H.
  - destruct st; simplify_eq/=; first [by exists [] | by exists "", []].
  - destruct st as [|acc|acc|acc]; cbn [json.lex] in H.
    + destruct (json.idle_step c out) as [st' out'] eqn:Hstep.
      apply IH in H.
      assert (Hout : out' = out ∨ ∃ t, out' = t :: out).
      { unfold json.idle_step in Hstep. repeat case_match; simplify_eq; eauto. }
      destruct st'; [| | |destruct H as [w H]]; destruct H as [ts' ->];
        destruct Hout as [-> | [t ->]];
        first [by eexists | by eexists (_ ++ [_]); rewrite <- app_assoc
              | by eexists (_ ++ [_; _]); rewrite <- app_assoc ].
    + destruct (json.byte c =? 34); [|destruct (json.byte c =? 92)];
        apply IH in H as [ts' ->]; first [by eexists | by eexists (_ ++ [_]); rewrite <- app_assoc].
    + by apply IH in H.
    + destruct (json.is_word_byte c).
      * apply IH in H as (w & ts' & ->). by exists (String c w), ts'.
      * destruct (json.idle_step c (json.TWord (String.rev acc) :: out)) as [st' out'] eqn:Hstep.
        apply IH in H.
        assert (Hout : out' = json.TWord (String.rev acc) :: out ∨
                       ∃ t, out' = t :: json.TWord (String.rev acc) :: out).
        { unfold json.idle_step in Hstep. repeat case_match; simplify_eq; eauto. }
        exists "".
        destruct st'; [| | |destruct H as [w H]]; destruct H as [ts' ->];
          destruct Hout as [-> | [t ->]];
          first [by eexists | by eexists (_ ++ [_]); rewrite <- app_assoc
                | by eexists (_ ++ [_; _]); rewrite <- app_assoc ].
Qed.

Lemma run_first (t : json.token) (ts : list json.token) :
  json.begin_value t [] = None → json.run (t :: ts) [] json.BeginValue = None.
Proof. intros H. cbn [json.run json.step]. by rewrite H. Qed.

(** A text whose first byte is neither white space nor the first byte
    of a value is no document. *)
Lemma parse_bad_start (c : ascii) (s : string) :
  document.begins_document c = false → json.parse (String c s) = None.
Proof.
  intros Hc. unfold json.parse. cbn [json.lex].
  destruct (json.lex s (json.idle_step c []).1 (json.idle_step c []).2) as [ts|] eqn:Hlex;
    destruct (json.idle_step c []) as [st out] eqn:Hstep; cbn [fst snd] in Hlex;
    rewrite Hlex; [|done].
  cbn [mbind option_bind].
  apply lex_tokens in Hlex.
  assert (Hcases :
    (∃ t, st = json.Idle ∧ out = [t] ∧ json.begin_value t [] = None) ∨
    (st = json.InWord (String c "") ∧ out = [] ∧ ∀ w, json.word_value (String c w) = None)).
  { clear Hlex. revert Hstep.
    each_byte c; try discriminate Hc; intros [= <- <-];
      first [ left; eexists; split_and!; reflexivity
            | right; split_and!; [reflexivity..|intros w; reflexivity] ]. }
  destruct Hcases as [(t & -> & -> & Ht) | (-> & -> & Hw)].
  - destruct Hlex as [ts' ->]. rewrite rev_app_distr. cbn [rev app]. by apply run_first.
  - destruct Hlex as (w & ts' & ->). rewrite rev_app_distr. cbn [rev app].
    apply run_first. cbn [json.begin_value].
    change (String.rev_app w (String c "")) with (String.rev_app (String c w) "").
    fold (String.rev (String c w)). by rewrite rev_rev, Hw.
Qed.

End malformed.

(** * The decimal digits of an integer are a number of JSON *)

Section decimal.

Lemma skip_digits_uint (d : Decimal.uint) :
  json.skip_digits (NilEmpty.string_of_uint d) = "".
Proof. induction d; cbn [NilEmpty.string_of_uint json.skip_digits]; try done; by rewrite IHd. Qed.

Lemma valid_number_uint (d : Decimal.uint) :
  Decimal.unorm d = d → json.valid_number (NilZero.string_of_uint d) = true.
Proof.
  intros Hd. destruct d as [|d|d|d|d|d|d|d|d|d|d]; [done| |..].
  all: try (
    unfold json.valid_number; cbn [NilZero.string_of_uint NilEmpty.string_of_uint];
    match goal with
    | |- context [json.byte ?c =? 45] => change (json.byte c =? 45) with false
    end; cbv iota;
    match goal with
    | |- context [json.byte ?c =? 48] =>
        change (json.byte c =? 48) with false; change (json.is_digit c) with true
    end; cbv iota; cbn [mbind option_bind]; by rewrite skip_digits_uint).
  (* a zero at the head: the number is zero *)
  rewrite DecimalFacts.unorm_D0 in Hd. destruct d; [done|..];
      match type of Hd with
      | Decimal.unorm ?x = _ =>
          pose proof (DecimalFacts.nb_digits_unorm x ltac:(discriminate)) as Hle;
          rewrite Hd in Hle; cbn [Decimal.nb_digits] in Hle; lia
      end.
Qed.

Lemma to_int_norm (n : Z) : Decimal.norm (Z.to_int n) = Z.to_int n.
Proof. by rewrite <- (DecimalZ.of_to n) at 2; rewrite DecimalZ.to_of. Qed.

Lemma valid_number_Itoa (n : Z) : json.valid_number (strconv.Itoa n) = true.
Proof.
  unfold strconv.Itoa. pose proof (to_int_norm n) as Hn.
  destruct n as [|p|p]; [done| |].
  - cbn [Z.to_int] in *. cbn [NilZero.string_of_int].
    apply valid_number_uint. cbn [Decimal.norm] in Hn. congruence.
  - cbn [Z.to_int] in *. cbn [NilZero.string_of_int].
    cbn [Decimal.norm] in Hn.
    pose proof (DecimalPos.Unsigned.to_uint_nonzero p) as Hnz.
    pose proof (DecimalPos.Unsigned.to_uint_nonnil p) as Hnn.
    assert (Hu : Decimal.unorm (Pos.to_uint p) = Pos.to_uint p).
    { destruct (Decimal.nzhead (Pos.to_uint p)) eqn:Hh; try congruence;
        rewrite DecimalFacts.unorm_nzhead by congruence; congruence. }
    pose proof (valid_number_uint _ Hu) as Hv.
    unfold json.valid_number in Hv |- *.
    change (json.byte "-" =? 45) with true. cbv iota.
    destruct (NilZero.string_of_uint (Pos.to_uint p)) as [|c s] eqn:Hs; [done|].
    destruct (json.byte c =? 45) eqn:Hc; [|done].
    exfalso. clear Hv. destruct (Pos.to_uint p); try done; cbn in Hs; simplify_eq; done.
Qed.

Lemma int64_of_literal_Itoa (n : Z) :
  - 2 ^ 63 ≤ n < 2 ^ 63 → json.int64_of_literal (strconv.Itoa n) = Some n.
Proof.
  intros Hn. unfold json.int64_of_literal, strconv.Itoa.
  rewrite NilZero.isi.
  - simpl. rewrite DecimalZ.of_to.
    destruct (_ && _) eqn:Hr; [done|].
    apply andb_false_iff in Hr as [Hr%Z.leb_gt | Hr%Z.ltb_ge]; lia.
  - destruct n as [|p|p]; simpl; try done.
    intros [= Hp]. by apply DecimalPos.Unsigned.to_uint_nonnil in Hp.
  - destruct n as [|p|p]; simpl; try done.
    intros [= Hp]. by apply DecimalPos.Unsigned.to_uint_nonnil in Hp.
Qed.

End decimal.

(** * The members of an envelope, in any order *)

Ltac read_keys :=
  repeat (first
    [ progress change (field_of_key "status") with (Some fStatus)
    | progress change (field_of_key "title") with (Some fTitle)
    | progress change (field_of_key "type") with (Some fType)
    | progress change (field_of_key "errors") with (Some fErrors) ];
    cbv iota; simpl).

Section envelopes.
Implicit Types (status : option Z) (title type : option string)
  (errors : option (list string)) (ms : list (string * json.value)).

Lemma plain_Permutation ms ms' : ms ≡ₚ ms' → plain ms = plain ms'.
Proof.
  intros H. unfold plain, keys_of.
  assert (Hf : ∀ f, filter (λ k, field_of_key k = Some f) ms.*1 ≡ₚ
                    filter (λ k, field_of_key k = Some f) ms'.*1).
  { intros f. by rewrite H. }
  f_equal; apply bool_decide_ext.
  - split; intros Hnil; eapply Permutation_nil_r;
      [rewrite <- Hf|rewrite Hf]; by rewrite Hnil.
  - by rewrite (Hf fErrors).
Qed.

Lemma omap_nil_Permutation {A B} (f : A → option B) (l l' : list A) :
  l ≡ₚ l' → omap f l' = [] → omap f l = [].
Proof. intros H Hnil. apply Permutation_nil_r. by rewrite H, Hnil. Qed.

Lemma last_omap_Permutation {A B} (f : A → option B) (l l' : list A) (o : option B) :
  l ≡ₚ l' → omap f l' = option_list o → last (omap f l) = o.
Proof.
  intros H Hl'. assert (Hp : omap f l ≡ₚ option_list o) by (by rewrite H, Hl').
  destruct o as [x|]; cbn [option_list] in Hp.
  - apply Permutation_singleton_r in Hp. by rewrite Hp.
  - apply Permutation_nil_r in Hp. by rewrite Hp.
Qed.

Lemma strings_of_strings (l : list string) :
  (λ v, match v with json.Str s => s | _ => "" end) <$> (json.Str <$> l) = l.
Proof. induction l as [|s l IH]; [done|]. cbn [fmap list_fmap] in *. by rewrite IH. Qed.

Lemma mistyped_strings (i : Z) (l : list string) :
  mistyped_element i (json.Str <$> l) = None.
Proof. revert i. induction l as [|s l IH]; intros i; [done|]. apply IH. Qed.

Lemma envelope_status status title type errors :
  from_option (λ n, - 2 ^ 63 ≤ n < 2 ^ 63) True status →
  omap status_in (envelope status title type errors) = option_list status.
Proof.
  intros Hrange. unfold envelope.
  destruct status as [n|], title, type, errors; unfold status_in; simpl in *; read_keys;
    rewrite ?int64_of_literal_Itoa by done; done.
Qed.

Lemma envelope_title status title type errors :
  omap (string_in fTitle) (envelope status title type errors) = option_list title.
Proof. by destruct status, title, type, errors. Qed.

Lemma envelope_type status title type errors :
  omap (string_in fType) (envelope status title type errors) = option_list type.
Proof. by destruct status, title, type, errors. Qed.

Lemma envelope_errors status title type errors :
  omap errors_in (envelope status title type errors) = option_list errors.
Proof.
  destruct status, title, type, errors as [l|]; try done;
    unfold envelope, errors_in; simpl; read_keys; by rewrite strings_of_strings.
Qed.

Lemma envelope_typed status title type errors :
  from_option (λ n, - 2 ^ 63 ≤ n < 2 ^ 63) True status →
  omap mistyped (envelope status title type errors) = [].
Proof.
  intros Hrange. unfold envelope.
  destruct status as [n|], title, type, errors; unfold mistyped; simpl in *; read_keys;
    rewrite ?int64_of_literal_Itoa by done; simpl; read_keys;
    rewrite ?mistyped_strings; done.
Qed.

Lemma envelope_plain status title type errors :
  plain (envelope status title type errors) = true.
Proof. by destruct status, title, type, errors. Qed.

Lemma well_formed_strings (l : list string) :
  forallb document.well_formed (json.Str <$> l) = forallb document.utf8 l.
Proof. induction l as [|s l IH]; [done|]. cbn [fmap list_fmap forallb] in *. by rewrite IH. Qed.

Lemma depth_strings (l : list string) :
  foldr max 0%nat (document.depth <$> (json.Str <$> l)) = 0%nat.
Proof. induction l as [|s l IH]; [done|]. cbn [fmap list_fmap foldr] in *. by rewrite IH. Qed.

Lemma envelope_well_formed status title type errors :
  envelope_utf8 title type errors = true →
  Forall (λ m, (let '(k, v) := m in document.utf8 k && document.well_formed v) = true ∧
               (document.depth m.2 ≤ 1)%nat)
    (envelope status title type errors).
Proof.
  unfold envelope_utf8, envelope.
  intros [[Hti Hty]%andb_true_iff Herr]%andb_true_iff.
  repeat apply Forall_app_2.
  - destruct status as [n|]; [|constructor]. apply Forall_singleton. split.
    + cbn [document.well_formed]. by rewrite valid_number_Itoa.
    + cbn [snd document.depth]. lia.
  - destruct title; simpl in Hti; [|constructor]. apply Forall_singleton. split.
    + cbn [document.well_formed]. by rewrite Hti.
    + cbn [snd document.depth]. lia.
  - destruct type; simpl in Hty; [|constructor]. apply Forall_singleton. split.
    + cbn [document.well_formed]. by rewrite Hty.
    + cbn [snd document.depth]. lia.
  - destruct errors as [l|]; simpl in Herr; [|constructor]. apply Forall_singleton. split.
    + cbn [document.well_formed]. by rewrite well_formed_strings, Herr.
    + cbn [snd document.depth]. rewrite depth_strings. lia.
Qed.

(** The members of an envelope in any order: what they are written as
    is read, and decoded to the values of the envelope. *)
Lemma envelope_members r status title type errors ms :
  ms ≡ₚ envelope status title type errors →
  from_option (λ n, - 2 ^ 63 ≤ n < 2 ^ 63) True status →
  envelope_utf8 title type errors = true →
  document.well_formed (json.Object ms) = true ∧
  Z.of_nat (document.depth (json.Object ms)) ≤ json.maxNestingDepth ∧
  plain ms = true ∧
  type_error ms = None ∧
  decoded r ms =
    {| Response := Some r; Status := default 0 status; Title := default "" title;
       Type_ := default "" type; Errors := default [] errors |}.
Proof.
  intros Hp Hrange Hutf8.
  pose proof (envelope_well_formed status title type errors Hutf8) as Hwf.
  rewrite <- Hp in Hwf. apply Forall_and in Hwf as [Hwf Hdepth].
  split_and!.
  - cbn [document.well_formed]. apply Is_true_true, forallb_True.
    eapply Forall_impl; [exact Hwf|]. intros [k v] H. by apply Is_true_true.
  - cbn [document.depth].
    assert (Hd : (foldr max 0 ((λ m, let '(_, v) := m in document.depth v) <$> ms) ≤ 1)%nat).
    { clear -Hdepth. induction Hdepth as [|[k v] ms Hm _ IH]; cbn [fmap list_fmap foldr snd] in *; lia. }
    unfold json.maxNestingDepth. lia.
  - rewrite (plain_Permutation _ _ Hp). apply envelope_plain.
  - unfold type_error. by rewrite (omap_nil_Permutation _ _ _ Hp (envelope_typed _ _ _ _ Hrange)).
  - unfold decoded.
    rewrite (last_omap_Permutation _ _ _ _ Hp (envelope_status _ _ _ _ Hrange)).
    rewrite (last_omap_Permutation _ _ _ _ Hp (envelope_title _ _ _ _)).
    rewrite (last_omap_Permutation _ _ _ _ Hp (envelope_type _ _ _ _)).
    by rewrite (last_omap_Permutation _ _ _ _ Hp (envelope_errors _ _ _ _)).
Qed.

End envelopes.

(** * [CheckResponse] *)

Section check_response.
Context (L : library).
Implicit Types (r : http.Response.t) (e : ErrorResponse).

Lemma success_test r :
  (200 <=? http.Response.StatusCode r) && (http.Response.StatusCode r <=? 299) = true ↔ success r.
Proof. unfold success. rewrite andb_true_iff, !Z.leb_le. tauto. Qed.

Lemma CheckResponse_success r : success r → CheckResponse L r = (r, None).
Proof. intros H%success_test. unfold CheckResponse. cbv zeta. by rewrite H. Qed.

(** Outside of success, with a body that was read and is not empty:
    the result follows what [Unmarshal] gives. *)
Lemma CheckResponse_decoded r (data : string) :
  ¬ success r →
  io.ReadAll (http.Response.Body r) = (data, None) →
  data ≠ "" →
  CheckResponse L r =
    match Unmarshal L data r (new_ErrorResponse r) with
    | (r', _, Some err) => (r', Some (LibError err))
    | (r', e', None) => (r', Some (APIError e'))
    end.
Proof.
  intros Hs Hread Hdata. unfold CheckResponse. cbv zeta.
  destruct ((200 <=? _) && _) eqn:Ht; [by apply success_test in Ht|].
  rewrite Hread. destruct data as [|c data]; [done|]. reflexivity.
Qed.

(** Outside of success, with a body that is empty or was not read to its
    end: the [ErrorResponse] as it was made. *)
Lemma CheckResponse_undecoded r :
  ¬ success r →
  io.data (http.Response.Body r) = "" ∨ io.read_err (http.Response.Body r) ≠ None →
  CheckResponse L r = (r, Some (APIError (new_ErrorResponse r))).
Proof.
  intros Hs Hbody. unfold CheckResponse. cbv zeta.
  destruct ((200 <=? _) && _) eqn:Ht; [by apply success_test in Ht|].
  unfold io.ReadAll. destruct Hbody as [-> | Herr].
  - by rewrite andb_false_r.
  - by rewrite bool_decide_eq_false_2.
Qed.

Lemma body_cases r :
  (io.data (http.Response.Body r) = "" ∨ io.read_err (http.Response.Body r) ≠ None) ∨
  (io.read_err (http.Response.Body r) = None ∧ io.data (http.Response.Body r) ≠ "").
Proof.
  destruct (io.read_err (http.Response.Body r)) as [err|]; [left; by right|].
  destruct (decide (io.data (http.Response.Body r) = "")); [left; by left|by right].
Qed.

Lemma CheckResponse_failure r : ¬ success r → is_Some (CheckResponse L r).2.
Proof.
  intros Hs. destruct (body_cases r) as [Hb | [Herr Hdata]].
  - by rewrite CheckResponse_undecoded.
  - rewrite (CheckResponse_decoded r (io.data (http.Response.Body r)));
      [|done|unfold io.ReadAll; by rewrite Herr|done].
    by destruct (Unmarshal _ _ _ _) as [[r' e'] [err|]].
Qed.

(** A plain document leaves the pointer [Response] as it is. *)
Lemma store_member_Response (st : ErrorResponse * option lib_error) (m : string * json.value) :
  Response (store_member st m).1 = Response st.1.
Proof.
  destruct st as [e saved], m as [key v]. unfold store_member.
  destruct (field_of_key key) as [[]|]; try done; destruct v; try done.
  - by destruct (json.int64_of_literal lit).
  - by destruct (foldl store_element _ _).
Qed.

Lemma store_members_Response (ms : list (string * json.value)) (st : ErrorResponse * option lib_error) :
  Response (foldl store_member st ms).1 = Response st.1.
Proof.
  revert st. induction ms as [|m ms IH]; intros st; simpl; [done|].
  by rewrite IH, store_member_Response.
Qed.

Lemma parse_empty : json.parse "" = None.
Proof. reflexivity. Qed.

Lemma Unmarshal_plain (data : string) r e (ms : list (string * json.value)) :
  json.parse data = Some (json.Object ms) → plain ms = true →
  Unmarshal L data r e =
    (r, (foldl store_member (e, None) ms).1, (foldl store_member (e, None) ms).2).
Proof.
  intros Hp Hpl. unfold Unmarshal. rewrite Hp, Hpl.
  by destruct (foldl store_member _ _).
Qed.

(** What [Unmarshal] gives for each kind of document. *)
Lemma Unmarshal_members (data : string) r (ms : list (string * json.value)) :
  json.parse data = Some (json.Object ms) → plain ms = true →
  Unmarshal L data r (new_ErrorResponse r) = (r, decoded r ms, type_error ms).
Proof.
  intros Hp Hpl. rewrite (Unmarshal_plain data r _ ms) by done.
  by rewrite decode_members.
Qed.

Lemma CheckResponse_syntax r (data : string) :
  ¬ success r →
  io.ReadAll (http.Response.Body r) = (data, None) →
  data ≠ "" →
  json.parse data = None →
  CheckResponse L r = (r, Some (LibError SyntaxError)).
Proof.
  intros Hs Hread Hdata Hp. rewrite (CheckResponse_decoded r data) by done.
  unfold Unmarshal. by rewrite Hp.
Qed.

Lemma CheckResponse_value r (data : string) (v : json.value) :
  ¬ success r →
  io.ReadAll (http.Response.Body r) = (data, None) →
  json.parse data = Some v →
  match v with
  | json.Null => CheckResponse L r = (r, Some (APIError (new_ErrorResponse r)))
  | json.Object ms =>
      if plain ms then
        CheckResponse L r =
          (r, Some (match type_error ms with
                    | Some err => LibError err
                    | None => APIError (decoded r ms)
                    end))
      else
        CheckResponse L r =
          match json_Unmarshal_other L data r (new_ErrorResponse r) with
          | (r', _, Some err) => (r', Some (LibError err))
          | (r', e', None) => (r', Some (APIError e'))
          end
  | _ => CheckResponse L r = (r, Some (LibError (UnmarshalTypeError (json.kind v) "")))
  end.
Proof.
  intros Hs Hread Hp.
  assert (Hdata : data ≠ "") by (intros ->; by rewrite parse_empty in Hp).
  rewrite (CheckResponse_decoded r data) by done.
  destruct v as [ |b|lit|s|vs|ms]; try (unfold Unmarshal; by rewrite Hp).
  destruct (plain ms) eqn:Hpl.
  - rewrite (Unmarshal_members data r ms) by done. by destruct (type_error ms).
  - unfold Unmarshal. by rewrite Hp, Hpl.
Qed.

(** A document that is written is decoded to what it holds. *)
Lemma CheckResponse_written r (ms : list (string * json.value)) :
  ¬ success r →
  io.ReadAll (http.Response.Body r) = (document.write (json.Object ms), None) →
  document.well_formed (json.Object ms) = true →
  Z.of_nat (document.depth (json.Object ms)) ≤ json.maxNestingDepth →
  plain ms = true →
  type_error ms = None →
  CheckResponse L r = (r, Some (APIError (decoded r ms))).
Proof.
  intros Hs Hread Hwf Hdepth Hpl Hty.
  pose proof (CheckResponse_value r _ _ Hs Hread (parse_write _ Hwf Hdepth)) as H.
  cbv iota in H. by rewrite Hpl, Hty in H.
Qed.

End check_response.

(** C4. [CheckResponse] returns no error exactly when the status code is
    in 200..299. Outside of it the error is, for a body that is empty or
    was not read to its end, the [ErrorResponse] as it was made; for a
    body that is no JSON document, and so for one whose first byte can
    begin none, the syntax error of [json.Unmarshal]; for a document that
    is null, the [ErrorResponse] as it was made; for a document that is
    an object, the [ErrorResponse] with the fields the members give, or
    the type error of the first member whose value its field cannot
    hold (or what [json.Unmarshal] gives for an object that names the
    field Response or names errors twice); for any other document, the
    type error of [json.Unmarshal]. The HTML body of a 502 gives the
    syntax error, the 422 response of the scenario the [ErrorResponse]
    with its status, title and errors. *)
Theorem no_error_iff_success (L : library) (r : http.Response.t) :
  ((CheckResponse L r).2 = None ↔ success r) ∧
  (¬ success r →
     (io.data (http.Response.Body r) = "" ∨ io.read_err (http.Response.Body r) ≠ None →
        CheckResponse L r = (r, Some (APIError (new_ErrorResponse r)))) ∧
     (∀ data, io.ReadAll (http.Response.Body r) = (data, None) → data ≠ "" →
        (json.parse data = None → CheckResponse L r = (r, Some (LibError SyntaxError))) ∧
        (∀ c s, data = String c s → document.begins_document c = false →
           CheckResponse L r = (r, Some (LibError SyntaxError))) ∧
        (∀ v, json.parse data = Some v →
           match v with
           | json.Null => CheckResponse L r = (r, Some (APIError (new_ErrorResponse r)))
           | json.Object ms =>
               if plain ms then
                 CheckResponse L r =
                   (r, Some (match type_error ms with
                             | Some err => LibError err
                             | None => APIError (decoded r ms)
                             end))
               else
                 CheckResponse L r =
                   match json_Unmarshal_other L data r (new_ErrorResponse r) with
                   | (r', _, Some err) => (r', Some (LibError err))
                   | (r', e', None) => (r', Some (APIError e'))
                   end
           | _ =>
               CheckResponse L r =
                 (r, Some (LibError (UnmarshalTypeError (json.kind v) "")))
           end))) ∧
  CheckResponse L response_502 = (response_502, Some (LibError SyntaxError)) ∧
  CheckResponse L response_422 =
    (response_422,
     Some (APIError {| Response := Some response_422; Status := 422;
                       Title := "Validation Failed"; Type_ := "";
                       Errors := ["price is required"] |})).
Proof.
  split_and!.
  - split.
    + intros Hnone. destruct (decide (success r)) as [|Hs]; [done|].
      apply (CheckResponse_failure L) in Hs as [err Herr]. congruence.
    + intros Hs. by rewrite CheckResponse_success.
  - intros Hs. split; [by apply CheckResponse_undecoded|].
    intros data Hread Hdata. split_and!.
    + by apply CheckResponse_syntax.
    + intros c s -> Hc. apply (CheckResponse_syntax L r (String c s)); [done..|].
      by apply parse_bad_start.
    + intros v Hp. by apply (CheckResponse_value L r data).
  - vm_compute. reflexivity.
  - vm_compute. reflexivity.
Qed.

Lemma no_error_iff_success_witness :
  ¬ success response_502 ∧
  CheckResponse example_library response_502 = (response_502, Some (LibError SyntaxError)).
Proof.
  assert (Hs : ¬ success response_502) by (unfold success; simpl; lia).
  split; [done|].
  destruct (no_error_iff_success example_library response_502) as (_ & H & _).
  destruct (H Hs) as [_ Hread].
  destruct (Hread "<html>Bad Gateway</html>" eq_refl ltac:(discriminate)) as (_ & Hbad & _).
  exact (Hbad "<"%char "html>Bad Gateway</html>" eq_refl eq_refl).
Defined.

(** C5. For a response outside of success whose body is a well-formed
    error envelope, the error is the [ErrorResponse] with the decoded
    status, title, type and errors, and its [Response] is the response
    itself, which holds the request with its method and URL. This is
    shown for every body that is read as an object which names neither
    the field Response nor errors twice and gives each field a value it
    can hold: each field is as the last member that gives it one leaves
    it; for every such object as it is written, the text read by the
    scanner and the parser; for the members status, title, type and
    errors, each of them there or not, written in any order: the fields
    are the values of the members; and for the 422 response of the
    scenario, also with its members in another order and white space
    between them: its status is 422 and its errors are exactly the one,
    price is required. *)
Theorem envelope_carried (L : library) (r : http.Response.t) (data : string) :
  ¬ success r →
  io.ReadAll (http.Response.Body r) = (data, None) →
  (∀ ms,
     json.parse data = Some (json.Object ms) →
     plain ms = true →
     type_error ms = None →
     CheckResponse L r = (r, Some (APIError (decoded r ms)))) ∧
  (∀ ms,
     data = document.write (json.Object ms) →
     document.well_formed (json.Object ms) = true →
     Z.of_nat (document.depth (json.Object ms)) ≤ json.maxNestingDepth →
     plain ms = true →
     type_error ms = None →
     CheckResponse L r = (r, Some (APIError (decoded r ms)))) ∧
  (∀ status title type errors ms,
     ms ≡ₚ envelope status title type errors →
     from_option (λ n, - 2 ^ 63 ≤ n < 2 ^ 63) True status →
     envelope_utf8 title type errors = true →
     data = document.write (json.Object ms) →
     CheckResponse L r =
       (r, Some (APIError {| Response := Some r;
                             Status := default 0 status;
                             Title := default "" title;
                             Type_ := default "" type;
                             Errors := default [] errors |}))) ∧
  CheckResponse L response_422 =
    (response_422,
     Some (APIError {| Response := Some response_422; Status := 422;
                       Title := "Validation Failed"; Type_ := "";
                       Errors := ["price is required"] |})) ∧
  CheckResponse L response_422_reordered =
    (response_422_reordered,
     Some (APIError {| Response := Some response_422_reordered; Status := 422;
                       Title := "Validation Failed"; Type_ := "";
                       Errors := ["price is required"] |})).
Proof.
  intros Hs Hread. split_and!.
  - intros ms Hp Hpl Hty.
    pose proof (CheckResponse_value L r data _ Hs Hread Hp) as H.
    cbv iota in H. by rewrite Hpl, Hty in H.
  - intros ms -> Hwf Hdepth Hpl Hty. by apply CheckResponse_written.
  - intros status title type errors ms Hperm Hrange Hutf8 ->.
    destruct (envelope_members r status title type errors ms Hperm Hrange Hutf8)
      as (Hwf & Hdepth & Hpl & Hty & <-).
    by apply CheckResponse_written.
  - vm_compute. reflexivity.
  - vm_compute. reflexivity.
Qed.

Lemma envelope_carried_witness :
  ¬ success response_422_written ∧
  io.data (http.Response.Body response_422_written) =
    quoted "{'errors':['price is required'],'title':'Validation Failed','status':422}" ∧
  reordered_members ≡ₚ
    envelope (Some 422) (Some "Validation Failed") None (Some ["price is required"]) ∧
  CheckResponse example_library response_422_written =
    (response_422_written,
     Some (APIError {| Response := Some response_422_written; Status := 422;
                       Title := "Validation Failed"; Type_ := "";
                       Errors := ["price is required"] |})).
Proof.
  assert (Hs : ¬ success response_422_written) by (unfold success; simpl; lia).
  assert (Hperm : reordered_members ≡ₚ
            envelope (Some 422) (Some "Validation Failed") None (Some ["price is required"])).
  { unfold envelope, reordered_members. simpl. change (strconv.Itoa 422) with "422".
    etrans; [apply perm_swap|]. etrans; [apply perm_skip, perm_swap|]. apply perm_swap. }
  split_and!; [exact Hs|reflexivity|exact Hperm|].
  apply (proj1 (proj2 (proj2 (envelope_carried example_library response_422_written _
                                Hs eq_refl)))
           (Some 422) (Some "Validation Failed") None (Some ["price is required"])
           reordered_members Hperm).
  - simpl. lia.
  - reflexivity.
  - reflexivity.
Defined.

(** C10. For a response outside of success whose body is empty or could
    not be read, [CheckResponse] returns the [ErrorResponse] with status 0,
    empty title and type and no errors, and no error of reading or
    decoding. *)
Theorem empty_body_error (L : library) (r : http.Response.t) :
  ¬ success r →
  io.data (http.Response.Body r) = "" ∨ io.read_err (http.Response.Body r) ≠ None →
  CheckResponse L r =
    (r, Some (APIError {| Response := Some r; Status := 0; Title := "";
                          Type_ := ""; Errors := [] |})).
Proof. apply CheckResponse_undecoded. Qed.

Lemma empty_body_error_witness :
  io.read_err (http.Response.Body response_unreadable) ≠ None ∧
  CheckResponse example_library response_unreadable =
    (response_unreadable,
     Some (APIError {| Response := Some response_unreadable; Status := 0; Title := "";
                       Type_ := ""; Errors := [] |})).
Proof.
  split; [done|].
  apply (empty_body_error example_library response_unreadable).
  - unfold success. simpl. lia.
  - right. done.
Defined.

(** * Which errors the transport core returns *)

Section propagation.
Context (L : library).
Implicit Types (c : Client L) (req : http.Request.t) (resp : http.Response.t).

Lemma NewRequest_parse_error c ctx method urlStr body err :
  url_Parse L urlStr = inr err →
  NewRequest L c ctx method urlStr body = Err (LibError err).
Proof. intros H. unfold NewRequest. by rewrite H. Qed.

Lemma NewRequest_encode_error c ctx method urlStr body rel u err :
  url_Parse L urlStr = inl rel →
  ResolveReference L (baseURL L c) rel = Some u →
  json_Encode L body = inr err →
  NewRequest L c ctx method urlStr (Some body) = Err (LibError err).
Proof.
  intros H1 H2 H3. unfold NewRequest, encode_body.
  rewrite H1; simpl. rewrite H2; simpl. by rewrite H3.
Qed.

Lemma NewRequest_build_error c ctx method urlStr body rel u buf err :
  url_Parse L urlStr = inl rel →
  ResolveReference L (baseURL L c) rel = Some u →
  encode_body L body = Ok buf →
  http_NewRequestWithContext L ctx method (URL_String L u) buf = inr err →
  NewRequest L c ctx method urlStr body = Err (LibError err).
Proof.
  intros H1 H2 H3 H4. unfold NewRequest.
  rewrite H1; simpl. rewrite H2; simpl. rewrite H3; simpl. by rewrite H4.
Qed.

Lemma NewRequest_nil_base c ctx method urlStr body rel :
  url_Parse L urlStr = inl rel →
  ResolveReference L (baseURL L c) rel = None →
  NewRequest L c ctx method urlStr body = Panic.
Proof. intros H1 H2. unfold NewRequest. rewrite H1; simpl. by rewrite H2. Qed.

Lemma Do_send_error c req v err :
  client_Do L (client L c) req = inr err →
  Do L c req v = (None, v, Some (LibError err)).
Proof. intros H. unfold Do. by rewrite H. Qed.

Lemma Do_check_error c req v resp resp' (err : error) :
  client_Do L (client L c) req = inl resp →
  CheckResponse L resp = (resp', Some err) →
  Do L c req v = (Some resp', v, Some err).
Proof. intros H1 H2. unfold Do. by rewrite H1, H2. Qed.

Lemma Do_copy c req resp w w' (err : option lib_error) :
  client_Do L (client L c) req = inl resp →
  success resp →
  io_Copy L w (http.Response.Body resp) = (w', err) →
  Do L c req (Some (Writer w)) = (Some resp, Some (Writer w'), LibError <$> err).
Proof.
  intros H1 H2 H3. unfold Do. by rewrite H1, CheckResponse_success, H3.
Qed.

Lemma Do_decode c req resp x x' (err : option lib_error) :
  client_Do L (client L c) req = inl resp →
  success resp →
  json_Decode L (http.Response.Body resp) x = (x', err) →
  Do L c req (Some (Value x)) = (Some resp, Some (Value x'), LibError <$> err).
Proof.
  intros H1 H2 H3. unfold Do. by rewrite H1, CheckResponse_success, H3.
Qed.

Lemma CheckResponse_decode_error resp (data : string) resp' e' err :
  ¬ success resp →
  io.ReadAll (http.Response.Body resp) = (data, None) →
  data ≠ "" →
  Unmarshal L data resp (new_ErrorResponse resp) = (resp', e', Some err) →
  CheckResponse L resp = (resp', Some (LibError err)).
Proof.
  intros Hs Hread Hdata Hu. rewrite (CheckResponse_decoded L resp data) by done.
  by rewrite Hu.
Qed.

Lemma NewClient_parse_error (storeHash authToken : string) err :
  url_Parse L (defaultBaseURL +:+ storeHash +:+ "/" +:+ apiVersion +:+ "/") = inr err →
  NewClient L storeHash authToken =
    {| client := {| http.Timeout := 30000000000 |}; baseURL := None;
       storeHash := storeHash; authToken := authToken;
       userAgent := "bigcommerce-go-sdk/1.0" |}.
Proof. intros H. unfold NewClient. cbv zeta. by rewrite H. Qed.

End propagation.

(** C2, as the claim states it, fails on two of the errors it lists. The
    URL that [NewClient] builds from a store hash holding the byte 127
    does not parse, and [NewClient] returns a client (with a nil base URL:
    the first [NewRequest] on it panics) and no error. The body of a 500
    response breaks off while it is read, and [CheckResponse] returns the
    [ErrorResponse] as it was made, not the error of reading. *)
Lemma discarded_errors_counterexample :
  url_Parse example_library (defaultBaseURL +:+ bad_store_hash +:+ "/" +:+ apiVersion +:+ "/")
    = inr (OtherError "net/url: invalid control character in URL") ∧
  NewClient example_library bad_store_hash "token" =
    {| client := {| http.Timeout := 30000000000 |}; baseURL := None;
       storeHash := bad_store_hash; authToken := "token";
       userAgent := "bigcommerce-go-sdk/1.0" |} ∧
  NewRequest example_library (NewClient example_library bad_store_hash "token")
    tt "GET" "catalog/products" None = Panic ∧
  io.ReadAll (http.Response.Body response_unreadable)
    = (io.data (http.Response.Body response_unreadable), Some (OtherError "unexpected EOF")) ∧
  (CheckResponse example_library response_unreadable).2
    = Some (APIError (new_ErrorResponse response_unreadable)).
Proof. split_and!; vm_compute; reflexivity. Qed.

(** C2, amended. [NewRequest] returns to its caller the error of parsing
    the URL, of encoding the body and of making the request; [Do] returns
    the error of sending, the error of [CheckResponse], and the error of
    copying or decoding the body; [CheckResponse] returns the error of
    decoding an error body that was read and is not empty. [NewClient]
    returns no error: when the base URL does not parse, the client has a
    nil base URL. When the body of a response outside of success is not
    read to its end, [CheckResponse] returns the [ErrorResponse] as it was
    made. *)
Theorem errors_returned (L : library) :
  (∀ c ctx method urlStr body err,
     url_Parse L urlStr = inr err →
     NewRequest L c ctx method urlStr body = Err (LibError err)) ∧
  (∀ c ctx method urlStr body rel u err,
     url_Parse L urlStr = inl rel →
     ResolveReference L (baseURL L c) rel = Some u →
     json_Encode L body = inr err →
     NewRequest L c ctx method urlStr (Some body) = Err (LibError err)) ∧
  (∀ c ctx method urlStr body rel u buf err,
     url_Parse L urlStr = inl rel →
     ResolveReference L (baseURL L c) rel = Some u →
     encode_body L body = Ok buf →
     http_NewRequestWithContext L ctx method (URL_String L u) buf = inr err →
     NewRequest L c ctx method urlStr body = Err (LibError err)) ∧
  (∀ c req v err,
     client_Do L (client L c) req = inr err →
     Do L c req v = (None, v, Some (LibError err))) ∧
  (∀ c req v resp resp' err,
     client_Do L (client L c) req = inl resp →
     CheckResponse L resp = (resp', Some err) →
     Do L c req v = (Some resp', v, Some err)) ∧
  (∀ c req resp w w' err,
     client_Do L (client L c) req = inl resp →
     success resp →
     io_Copy L w (http.Response.Body resp) = (w', err) →
     Do L c req (Some (Writer w)) = (Some resp, Some (Writer w'), LibError <$> err)) ∧
  (∀ c req resp x x' err,
     client_Do L (client L c) req = inl resp →
     success resp →
     json_Decode L (http.Response.Body resp) x = (x', err) →
     Do L c req (Some (Value x)) = (Some resp, Some (Value x'), LibError <$> err)) ∧
  (∀ resp data resp' e' err,
     ¬ success resp →
     io.ReadAll (http.Response.Body resp) = (data, None) →
     data ≠ "" →
     Unmarshal L data resp (new_ErrorResponse resp) = (resp', e', Some err) →
     CheckResponse L resp = (resp', Some (LibError err))) ∧
  (∀ storeHash authToken err,
     url_Parse L (defaultBaseURL +:+ storeHash +:+ "/" +:+ apiVersion +:+ "/") = inr err →
     baseURL L (NewClient L storeHash authToken) = None) ∧
  (∀ resp,
     ¬ success resp →
     io.read_err (http.Response.Body resp) ≠ None →
     CheckResponse L resp = (resp, Some (APIError (new_ErrorResponse resp)))).
Proof.
  split_and!.
  - apply NewRequest_parse_error.
  - apply NewRequest_encode_error.
  - apply NewRequest_build_error.
  - apply Do_send_error.
  - apply Do_check_error.
  - apply Do_copy.
  - apply Do_decode.
  - apply CheckResponse_decode_error.
  - intros storeHash authToken err H. by rewrite (NewClient_parse_error L _ _ err).
  - intros resp Hs Herr. apply CheckResponse_undecoded; [done|by right].
Qed.

Lemma errors_returned_witness :
  client_Do example_library {| http.Timeout := 30000000000 |} create_product
    = inr (OtherError "dial tcp: connection refused") ∧
  Do example_library (NewClient example_library "abc123" "token") create_product None
    = (None, None, Some (LibError (OtherError "dial tcp: connection refused"))).
Proof.
  split; [reflexivity|].
  apply (proj1 (proj2 (proj2 (proj2 (errors_returned example_library))))).
  reflexivity.
Defined.

(** * The query string as a whole *)

Section query_string.
Implicit Types (q : QueryParams) (f : Field) (v : url.Values).

Lemma concat_empty_iff (sep : string) (l : list string) :
  Forall (λ x, x ≠ "") l → String.concat sep l = "" ↔ l = [].
Proof.
  intros Hl. split; [|by intros ->].
  destruct l as [|x l]; [done|]. apply Forall_cons in Hl as [Hx _].
  destruct l, x; simpl; intros H; try done; by destruct Hx.
Qed.

Lemma Encode_empty_iff v : url.Encode v = "" ↔ url.entries v = [].
Proof.
  unfold url.Encode. rewrite concat_empty_iff.
  - split; [apply fmap_nil_inv|by intros ->].
  - apply Forall_fmap, Forall_forall. intros e _ He.
    pose proof (write_entry_nonempty e) as Hn. simpl in He. rewrite He in Hn. done.
Qed.

Lemma bind_nil_iff {A B} (g : A → list B) (l : list A) :
  l ≫= g = [] ↔ Forall (λ a, g a = []) l.
Proof.
  induction l as [|a l IH]; cbn [mbind list_bind].
  - split; [constructor|done].
  - fold (@mbind list _ _ _ g). rewrite Forall_cons, <- IH. apply app_nil.
Qed.

Lemma every_field f : f ∈ fields_by_name.
Proof. destruct f; unfold fields_by_name; set_solver. Qed.

Lemma contribution_nil_iff (x : FieldValue) : contribution x = [] ↔ present x = false.
Proof.
  unfold contribution. destruct (present x) eqn:Hp; [|done].
  split; [|done]. intros Hr. by apply present_render_nonempty in Hp.
Qed.

Lemma Encode_entries v1 v2 : url.entries v1 = url.entries v2 → url.Encode v1 = url.Encode v2.
Proof. unfold url.Encode. by intros ->. Qed.

Lemma all_bytes_app (p : ascii → bool) (s t : string) :
  all_bytes p (s +:+ t) = all_bytes p s && all_bytes p t.
Proof. induction s as [|c s IH]; simpl; [done|]. by rewrite IH, andb_assoc. Qed.

Lemma escape_byte_bytes (c : ascii) : all_bytes query_byte (url.escape_byte c) = true.
Proof. each_byte c; reflexivity. Qed.

Lemma QueryEscape_bytes (s : string) : all_bytes query_byte (url.QueryEscape s) = true.
Proof.
  induction s as [|c s IH]; [done|].
  cbn [url.QueryEscape]. by rewrite all_bytes_app, escape_byte_bytes, IH.
Qed.

Lemma Encode_bytes v : all_bytes query_byte (url.Encode v) = true.
Proof.
  unfold url.Encode. generalize (url.entries v). intros es.
  induction es as [|e es IH]; [done|].
  assert (He : all_bytes query_byte (url.write_entry e) = true).
  { unfold url.write_entry. by rewrite !all_bytes_app, !QueryEscape_bytes. }
  destruct es as [|e' es]; [done|].
  change (String.concat "&" (url.write_entry <$> e :: e' :: es))
    with (url.write_entry e +:+ "&" +:+ String.concat "&" (url.write_entry <$> e' :: es)).
  by rewrite !all_bytes_app, He, IH.
Qed.

Lemma hundredths_small (m : positive) (e : Z) :
  Z.pos m * 200 < 2 ^ (- e) → strconv.hundredths m e = 0.
Proof.
  intros Hm. unfold strconv.hundredths.
  destruct (Z.leb_spec 0 e) as [He|He].
  - assert (2 ^ (- e) ≤ 1); [|lia].
    destruct (decide (e = 0)) as [->|]; [done|].
    rewrite Z.pow_neg_r by lia. lia.
  - cbv zeta. rewrite Z.div_small, Z.mod_small by lia.
    destruct (Z.ltb_spec (2 * (Z.pos m * 100)) (2 ^ (- e))); [done|lia].
Qed.

End query_string.

(** X1. The encoded query string is empty exactly when no field passes its
    guard in [ToValues]: a request with such parameters has the empty
    query, and any field that passes leaves something in the string. *)
Theorem empty_query_iff (q : QueryParams) :
  encode q = "" ↔ ∀ f, present (field_value q f) = false.
Proof.
  unfold encode. rewrite Encode_empty_iff, entries_ToValues, bind_nil_iff, Forall_forall.
  split.
  - intros H f. apply contribution_nil_iff.
    specialize (H f (every_field f)). by apply fmap_nil_inv in H.
  - intros H f _. simpl. specialize (H f). apply contribution_nil_iff in H. by rewrite H.
Qed.

(** X2. Two parameter records encode to the same query string exactly
    when every field contributes the same values in both: the string
    loses nothing of the parameters but what the guards leave out. *)
Theorem encode_eq_iff (q1 q2 : QueryParams) :
  encode q1 = encode q2 ↔
  ∀ f, contribution (field_value q1 f) = contribution (field_value q2 f).
Proof.
  split.
  - intros Heq f.
    pose proof (entries_of_field q1 f) as H1. pose proof (entries_of_field q2 f) as H2.
    unfold query_entries in H1, H2. rewrite Heq, H2 in H1.
    eapply (inj (fmap (λ x, (param_name f, x)))). exact (eq_sym H1).
  - intros H. apply Encode_entries. rewrite !entries_ToValues.
    generalize fields_by_name. intros fs. induction fs as [|f fs IH]; [done|].
    cbn [mbind list_bind]. by rewrite H, IH.
Qed.

(** X3. Whatever bytes the strings of the parameters hold, the encoded
    query string, and the one [InventoryService.ListContext] builds, is
    written with unreserved characters, percent and plus signs, and the
    separators [=] and [&] only: no space, no control byte, no [#], [?],
    [/] or semicolon. *)
Theorem query_string_bytes (q : QueryParams) (productIDs : list Z) :
  all_bytes query_byte (encode q) = true ∧
  all_bytes query_byte (InventoryService_ListContext_query productIDs) = true.
Proof. split; apply Encode_bytes. Qed.

(** X4. The query that [InventoryService.ListContext] builds by hand for
    a list of product identifiers is the string that [ToValues] and
    [Encode] give for parameters with [IDIn] set to that list. *)
Theorem ListContext_query_agrees (productIDs : list Z) :
  InventoryService_ListContext_query productIDs = encode (id_in_params productIDs).
Proof.
  assert (H1 : url.parse_entries (InventoryService_ListContext_query productIDs) =
               (λ id, ("id:in", strconv.Itoa id)) <$> productIDs)
    by apply ListContext_entries.
  unfold InventoryService_ListContext_query in *. cbv zeta in *.
  rewrite parse_entries_Encode in H1.
  apply Encode_entries. rewrite H1, entries_ToValues.
  unfold fields_by_name, contribution. cbn [mbind list_bind field_value id_in_params
    IDIn present render fmap list_fmap app param_name].
  destruct productIDs as [|id ids]; cbn; [done|].
  rewrite app_nil_r. f_equal. by rewrite <- list_fmap_compose.
Qed.

(** X5. A decimal field holding a positive amount below 0.005 passes the
    guard [> 0] and is written with two fractional digits: its entry has
    the value 0.00. *)
Theorem small_amount_written_as_zero (q : QueryParams) (f : Field) (m : positive) (e : Z) :
  field_value q f = VFloat (S754_finite false m e) →
  Z.pos m * 200 < 2 ^ (- e) →
  entries_of (param_name f) (query_entries q) = [(param_name f, "0.00")].
Proof.
  intros Hf Hm. rewrite entries_of_field, Hf. unfold contribution.
  cbn [present render]. change (float64_gt0 (S754_finite false m e)) with true.
  cbn [strconv.FormatFloat_f2]. by rewrite hundredths_small.
Qed.

Lemma small_amount_written_as_zero_witness :
  float64_gt0 (Price small_price_params) = true ∧
  entries_of "price" (query_entries small_price_params) = [("price", "0.00")].
Proof.
  split; [reflexivity|].
  apply (small_amount_written_as_zero small_price_params FPrice 4503599627370496 (-60));
    [reflexivity|reflexivity].
Defined.

(** * Requests, responses and error messages *)

Section requests.
Context (L : library).
Implicit Types (c : Client L) (req : http.Request.t) (resp r : http.Response.t).

Lemma NewRequest_Ok c ctx method urlStr body req :
  NewRequest L c ctx method urlStr body = Ok req →
  ∃ rel u buf req0,
    url_Parse L urlStr = inl rel ∧
    ResolveReference L (baseURL L c) rel = Some u ∧
    encode_body L body = Ok buf ∧
    http_NewRequestWithContext L ctx method (URL_String L u) buf = inl req0 ∧
    req = set_headers L c req0.
Proof.
  unfold NewRequest. intros H.
  destruct (url_Parse L urlStr) as [rel|] eqn:H1; [|done]. simpl in H.
  destruct (ResolveReference L (baseURL L c) rel) as [u|] eqn:H2; [|done]. simpl in H.
  destruct (encode_body L body) as [buf| |] eqn:H3; [|done..]. simpl in H.
  destruct (http_NewRequestWithContext L ctx method (URL_String L u) buf) as [req0|] eqn:H4;
    [|done]. simpl in H. injection H as <-.
  by exists rel, u, buf, req0.
Qed.

Lemma success_dec r : success r ∨ ¬ success r.
Proof. unfold success. lia. Qed.

Lemma Do_success c req v resp :
  client_Do L (client L c) req = inl resp → success resp →
  Do L c req v =
    match v with
    | Some (Writer w) =>
        (Some resp, Some (Writer (io_Copy L w (http.Response.Body resp)).1),
         LibError <$> (io_Copy L w (http.Response.Body resp)).2)
    | Some (Value x) =>
        (Some resp, Some (Value (json_Decode L (http.Response.Body resp) x).1),
         LibError <$> (json_Decode L (http.Response.Body resp) x).2)
    | None => (Some resp, None, None)
    end.
Proof.
  intros H1 H2. unfold Do. rewrite H1, CheckResponse_success by done.
  destruct v as [[w|x]|]; [| |done].
  - by destruct (io_Copy L w (http.Response.Body resp)).
  - by destruct (json_Decode L (http.Response.Body resp) x).
Qed.

Lemma Do_failure c req v resp :
  client_Do L (client L c) req = inl resp → ¬ success resp →
  ∃ err, (CheckResponse L resp).2 = Some err ∧
         Do L c req v = (Some (CheckResponse L resp).1, v, Some err).
Proof.
  intros H1 H2. destruct (CheckResponse_failure L resp H2) as [err Herr].
  exists err. split; [done|]. unfold Do. rewrite H1.
  destruct (CheckResponse L resp) as [resp' o]. simpl in *. by subst o.
Qed.

Lemma Do_results_aux c req :
  (Do L c req None).2 = None ↔
  ∃ resp, client_Do L (client L c) req = inl resp ∧ success resp.
Proof.
  destruct (client_Do L (client L c) req) as [resp|err] eqn:Hsend.
  - destruct (success_dec resp) as [Hs|Hs].
    + rewrite (Do_success c req None resp) by done. split; [by exists resp|done].
    + destruct (Do_failure c req None resp Hsend Hs) as (err & _ & ->).
      split; [done|]. by intros (resp' & [= <-] & ?).
  - rewrite (Do_send_error L c req None err) by done.
    split; [done|]. by intros (? & ? & _).
Qed.

End requests.

(** X6. Every request [NewRequest] returns carries the four headers
    X-Auth-Token (the client's token), User-Agent, Content-Type and Accept
    (application/json, also when there is no body), each with exactly one
    value that replaces what the request had under that name; its method,
    URL, body and other headers are those of the request the library
    built from the resolved URL. *)
Theorem request_headers (L : library) (c : Client L) (ctx : Context L) (method urlStr : string)
    (body : option (Payload L)) (req : http.Request.t) :
  NewRequest L c ctx method urlStr body = Ok req →
  http.Request.Header req !! "X-Auth-Token" = Some [authToken L c] ∧
  http.Request.Header req !! "User-Agent" = Some [userAgent L c] ∧
  http.Request.Header req !! "Content-Type" = Some ["application/json"] ∧
  http.Request.Header req !! "Accept" = Some ["application/json"] ∧
  ∃ rel u buf req0,
    url_Parse L urlStr = inl rel ∧
    ResolveReference L (baseURL L c) rel = Some u ∧
    encode_body L body = Ok buf ∧
    http_NewRequestWithContext L ctx method (URL_String L u) buf = inl req0 ∧
    http.Request.Method req = http.Request.Method req0 ∧
    http.Request.URL req = http.Request.URL req0 ∧
    http.Request.Body req = http.Request.Body req0 ∧
    ∀ k, k ∉ ["X-Auth-Token"; "User-Agent"; "Content-Type"; "Accept"] →
         http.Request.Header req !! k = http.Request.Header req0 !! k.
Proof.
  intros H. apply NewRequest_Ok in H as (rel & u & buf & req0 & H1 & H2 & H3 & H4 & ->).
  unfold set_headers, http.Header_Set. cbn [http.Request.Header].
  split_and!.
  - by rewrite !lookup_insert_ne, lookup_insert_eq by done.
  - by rewrite !lookup_insert_ne, lookup_insert_eq by done.
  - by rewrite !lookup_insert_ne, lookup_insert_eq by done.
  - by rewrite lookup_insert_eq.
  - exists rel, u, buf, req0. split_and!; try done.
    intros k Hk. rewrite !not_elem_of_cons in Hk. destruct_and!.
    by rewrite !lookup_insert_ne by done.
Qed.

Lemma request_headers_witness :
  ∃ req,
    NewRequest example_library (NewClient example_library "abc123" "token") tt
      "GET" "catalog/products" None = Ok req ∧
    http.Request.URL req = "https://api.bigcommerce.com/stores/abc123/v3/catalog/products" ∧
    http.Request.Header req !! "X-Auth-Token" = Some ["token"] ∧
    http.Request.Header req !! "User-Agent" = Some ["bigcommerce-go-sdk/1.0"] ∧
    http.Request.Header req !! "Content-Type" = Some ["application/json"].
Proof.
  eexists. split; [reflexivity|]. split; [reflexivity|].
  pose proof (request_headers example_library (NewClient example_library "abc123" "token") tt
                "GET" "catalog/products" None _ eq_refl) as (H1 & H2 & H3 & _).
  split_and!; [exact H1|exact H2|exact H3].
Defined.

(** X7. [Do] returns a nil response exactly when sending failed, and a
    nil error exactly when the request was sent, the status is one of
    success, and writing or decoding the body into [v] (when [v] is not
    nil) gave no error; unless the status is one of success, [v] is left
    as it was given. *)
Theorem Do_results (L : library) (c : Client L) (req : http.Request.t)
    (v : option (target (Sink L) (GoValue L))) :
  ((Do L c req v).1.1 = None ↔ ∃ err, client_Do L (client L c) req = inr err) ∧
  ((Do L c req v).2 = None ↔
     ∃ resp, client_Do L (client L c) req = inl resp ∧ success resp ∧
       match v with
       | Some (Writer w) => (io_Copy L w (http.Response.Body resp)).2 = None
       | Some (Value x) => (json_Decode L (http.Response.Body resp) x).2 = None
       | None => True
       end) ∧
  ((∀ resp, client_Do L (client L c) req = inl resp → ¬ success resp) →
     (Do L c req v).1.2 = v).
Proof.
  destruct (client_Do L (client L c) req) as [resp|err] eqn:Hsend.
  - destruct (success_dec resp) as [Hs|Hs].
    + rewrite (Do_success L c req v resp) by done. split_and!.
      * split; [by destruct v as [[]|]|]. by intros [? ?].
      * split.
        -- intros H. exists resp. split_and!; [done..|].
           destruct v as [[w|x]|]; simpl in *; [| |done].
           ++ by destruct (io_Copy L w (http.Response.Body resp)).2.
           ++ by destruct (json_Decode L (http.Response.Body resp) x).2.
        -- intros (resp' & [= <-] & _ & H). destruct v as [[w|x]|]; simpl in *; [| |done].
           ++ by rewrite H.
           ++ by rewrite H.
      * intros H. by destruct (H resp eq_refl).
    + destruct (Do_failure L c req v resp Hsend Hs) as (err & _ & ->). split_and!.
      * split; [done|]. by intros [? ?].
      * split; [done|]. by intros (resp' & [= <-] & ? & _).
      * done.
  - rewrite (Do_send_error L c req v err) by done. split_and!.
    + split; [by exists err|done].
    + split; [done|]. by intros (? & ? & _).
    + done.
Qed.

(** * The message of an [ErrorResponse], and the brand service *)

Section messages.
Context (L : library).
Implicit Types (c : Client L) (req : http.Request.t) (resp r : http.Response.t).

Lemma Error_of_response r (title : string) (type : string) (status : Z) (errors : list string) :
  ErrorResponse_Error {| Response := Some r; Status := status; Title := title;
                         Type_ := type; Errors := errors |} =
  match http.Response.Request r with
  | Some req => Ok (error_message req (http.Response.StatusCode r) title errors)
  | None => Panic
  end.
Proof. unfold ErrorResponse_Error. simpl. by destruct (http.Response.Request r). Qed.

Lemma service_returns_decoded c (x0 : GoValue L) (request : outcome http.Request.t) :
  returns_decoded L c x0 request
    (and_then request (λ req,
       let '(_, v, err) := Do L c req (Some (Value x0)) in Ok (pointee L v x0, err))).
Proof.
  unfold returns_decoded. destruct request as [req| |]; simpl; [|done..].
  destruct (client_Do L (client L c) req) as [resp|err] eqn:Hsend.
  - case_bool_decide as Hs.
    + by rewrite (Do_success L c req _ resp).
    + destruct (Do_failure L c req (Some (Value x0)) resp Hsend Hs) as (err & Herr & ->).
      by exists err.
  - by rewrite (Do_send_error L c req _ err).
Qed.

End messages.

(** X8. For the error [CheckResponse] returns on a response whose body is
    empty or not read to its end, or is read as an object that gives
    each field a value it can hold, [Error] gives the request's method
    and URL, the status code of the response (not the status the body
    names), the title, and the details in brackets with spaces between
    them; on a response that holds no request it dereferences a nil
    pointer. *)
Theorem message_of_error_response (L : library) (r : http.Response.t) :
  ¬ success r →
  (io.data (http.Response.Body r) = "" ∨ io.read_err (http.Response.Body r) ≠ None →
     ∃ e, CheckResponse L r = (r, Some (APIError e)) ∧
          ErrorResponse_Error e =
            match http.Response.Request r with
            | Some req => Ok (error_message req (http.Response.StatusCode r) "" [])
            | None => Panic
            end) ∧
  (∀ ms,
     io.read_err (http.Response.Body r) = None →
     json.parse (io.data (http.Response.Body r)) = Some (json.Object ms) →
     plain ms = true →
     type_error ms = None →
     ∃ e, CheckResponse L r = (r, Some (APIError e)) ∧
          ErrorResponse_Error e =
            match http.Response.Request r with
            | Some req =>
                Ok (error_message req (http.Response.StatusCode r)
                      (default "" (last (omap (string_in fTitle) ms)))
                      (default [] (last (omap errors_in ms))))
            | None => Panic
            end).
Proof.
  intros Hs. split.
  - intros Hbody. eexists. split; [by apply CheckResponse_undecoded|].
    apply Error_of_response.
  - intros ms Herr Hparse Hpl Hty.
    assert (Hread : io.ReadAll (http.Response.Body r) =
                      (io.data (http.Response.Body r), None)).
    { unfold io.ReadAll. by rewrite Herr. }
    pose proof (CheckResponse_value L r _ _ Hs Hread Hparse) as H.
    cbv iota in H. rewrite Hpl, Hty in H.
    eexists. split; [exact H|]. apply Error_of_response.
Qed.

Lemma message_of_error_response_witness :
  ∃ e, CheckResponse example_library response_422 = (response_422, Some (APIError e)) ∧
       ErrorResponse_Error e =
         Ok ("POST https://api.bigcommerce.com/stores/abc123/v3/catalog/products: " +:+
             "422 Validation Failed - [price is required]").
Proof.
  assert (Hs : ¬ success response_422) by (unfold success; simpl; lia).
  exact (proj2 (message_of_error_response example_library response_422 Hs)
           [("status", json.Number "422"); ("title", json.Str "Validation Failed");
            ("errors", json.Array [json.Str "price is required"])]
           eq_refl ltac:(vm_compute; reflexivity) eq_refl eq_refl).
Defined.

(** X9. [BrandsService.CreateContext] and [UpdateContext] return a nil
    response only together with the error of [NewRequest]. Once there is
    a request the response returned is not nil: it is the fresh, zero
    [BrandResponse] when sending fails or the status is none of success
    (with that error), and otherwise what the decoder made of the body,
    with the decoder's error. [UpdateContext] sends PUT to
    catalog/brands/ followed by the identifier in decimal. *)
Theorem BrandsService_results (L : library) (c : Client L) (ctx : Context L) (id : Z)
    (brand : Payload L) (x0 : GoValue L) :
  returns_decoded L c x0
    (NewRequest L c ctx "POST" "catalog/brands" (Some brand))
    (BrandsService_CreateContext L c ctx brand x0) ∧
  returns_decoded L c x0
    (NewRequest L c ctx "PUT" ("catalog/brands/" +:+ strconv.Itoa id) (Some brand))
    (BrandsService_UpdateContext L c ctx id brand x0).
Proof. split; apply service_returns_decoded. Qed.

(** X10. [BrandsService.DeleteContext] returns nil exactly when the DELETE
    request for catalog/brands/ followed by the identifier was built and
    sent and the status of the response is one of success: the body of
    the response plays no part. *)
Theorem DeleteContext_nil_iff (L : library) (c : Client L) (ctx : Context L) (id : Z) :
  BrandsService_DeleteContext L c ctx id = Ok tt ↔
  ∃ req resp,
    NewRequest L c ctx "DELETE" ("catalog/brands/" +:+ strconv.Itoa id) None = Ok req ∧
    client_Do L (client L c) req = inl resp ∧
    success resp.
Proof.
  unfold BrandsService_DeleteContext. cbv zeta.
  destruct (NewRequest L c ctx "DELETE" ("catalog/brands/" +:+ strconv.Itoa id) None)
    as [req| |] eqn:Hreq; simpl.
  - pose proof (Do_results_aux L c req) as H.
    destruct (Do L c req None) as [[resp' v'] err] eqn:HDo. simpl in H.
    destruct err as [err|].
    + split; [done|]. intros (req' & resp & [= <-] & Hsend & Hs).
      assert (Some err = None); [|done]. apply H. by exists resp.
    + split; [|done]. intros _. destruct H as [(resp & ? & ?) _]; [done|].
      by exists req, resp.
  - split; [done|]. by intros (? & ? & ? & _).
  - split; [done|]. by intros (? & ? & ? & _).
Qed.

(** * The generator script *)

Section script_steps.
Context {W : Type} (env : environment W).
Implicit Types (st : W * list event).

Lemma bind_ret {A B} (a : A) (k : A → script B) st : bind (ret a) k st = k a st.
Proof. done. Qed.

Lemma bind_draw {A B} (f : W → A * W) (k : A → script B) st :
  bind (draw f) k st = k (f st.1).1 ((f st.1).2, st.2).
Proof. unfold bind, draw. by destruct (f st.1). Qed.





Lemma bind_assoc {A B C} (m : script A) (k : A → script B) (k' : B → script C) st :
  bind (bind m k) k' st = bind m (λ a, bind (k a) k') st.
Proof. unfold bind. by destruct (m st) as [[a st']|]. Qed.

Lemma bind_rand_Intn {B} (n : Z) (k : Z → script B) st :
  0 < n →
  bind (rand_Intn env n) k st =
    k ((rand_source env st.1).1 mod n) ((rand_source env st.1).2, st.2).
Proof.
  intros Hn. unfold rand_Intn. destruct (Z.leb_spec n 0); [lia|].
  by rewrite bind_assoc, bind_draw.
Qed.

Lemma bind_rand_Intn_panic {B} (n : Z) (k : Z → script B) st :
  n ≤ 0 → bind (rand_Intn env n) k st = None.
Proof. intros Hn. unfold rand_Intn. by destruct (Z.leb_spec n 0); [|lia]. Qed.

Lemma store_in_range {A} (i : Z) (x : A) (xs : list A) st :
  0 ≤ i < len xs → store i x xs st = Some (<[Z.to_nat i := x]> xs, st).
Proof.
  intros Hi. unfold store.
  destruct (Z.leb_spec 0 i); [|lia]. by destruct (Z.ltb_spec i (len xs)); [|lia].
Qed.

Lemma index_in_range {A} (xs : list A) (i : Z) st :
  0 ≤ i < len xs →
  ∃ x, xs !! Z.to_nat i = Some x ∧ index xs i st = Some (x, st).
Proof.
  intros Hi. unfold index.
  destruct (Z.leb_spec 0 i); [|lia]. destruct (Z.ltb_spec i (len xs)); [|lia].
  destruct (lookup_lt_is_Some_2 xs (Z.to_nat i)) as [x Hx]; [unfold len in *; lia|].
  exists x. by rewrite Hx.
Qed.

(** A counted loop keeps what each round keeps. *)
Lemma for_upto_invariant {S} (I : Z → S → W * list event → Prop) (lo hi : Z)
    (body : Z → S → script S) (s : S) st :
  lo ≤ hi →
  I lo s st →
  (∀ i s st, lo ≤ i < hi → I i s st →
     ∃ s' st', body i s st = Some (s', st') ∧ I (i + 1) s' st') →
  ∃ s' st', for_upto lo hi body s st = Some (s', st') ∧ I hi s' st'.
Proof.
  intros Hle H0 Hstep. unfold for_upto.
  remember (Z.to_nat (hi - lo)) as n eqn:Hn.
  revert lo s st Hle H0 Hstep Hn. induction n as [|n IH]; intros lo s st Hle H0 Hstep Hn.
  - assert (hi = lo) as -> by lia. rewrite Z.sub_diag. simpl. by exists s, st.
  - rewrite seqZ_cons by lia. cbn [for_each].
    destruct (Hstep lo s st) as (s1 & st1 & Hbody & H1); [lia|done|].
    unfold bind at 1. rewrite Hbody.
    replace (Z.pred (hi - lo)) with (hi - Z.succ lo) by lia.
    replace (Z.succ lo) with (lo + 1) by lia.
    apply IH; [lia|done| |lia].
    intros i s' st' Hi. apply Hstep. lia.
Qed.

End script_steps.

Lemma generateCategories_invariants_spec {W : Type} (env : environment W) (st : W * list event) :
  ∃ categories st',
    generateCategories env st = Some (categories, st') ∧
    st'.2 = st.2 ∧
    length categories = 10%nat ∧
    ∀ (i : nat) (c : Category.t), categories !! i = Some c →
      Category.SortOrder c = Z.of_nat i ∧
      Category.ID c = 0 ∧
      ((i ≤ 2)%nat → Category.ParentID c = 0) ∧
      0 ≤ Category.ParentID c ∧
      ((0 < i)%nat → Category.ParentID c < Z.of_nat i) ∧
      Category.LayoutFile c = "category.html" ∧
      Category.ImageURL c = image_url ∧
      (i = 0%nat → Category.IsVisible c = true).
Proof.
  set (P := λ (i : nat) (c : Category.t),
    Category.SortOrder c = Z.of_nat i ∧
    Category.ID c = 0 ∧
    ((i ≤ 2)%nat → Category.ParentID c = 0) ∧
    0 ≤ Category.ParentID c ∧
    ((0 < i)%nat → Category.ParentID c < Z.of_nat i) ∧
    Category.LayoutFile c = "category.html" ∧
    Category.ImageURL c = image_url ∧
    (i = 0%nat → Category.IsVisible c = true)).
  set (I := λ (n : Z) (cs : list Category.t) (st' : W * list event),
    st'.2 = st.2 ∧ length cs = 10%nat ∧
    ∀ (i : nat) c, (Z.of_nat i < n) → cs !! i = Some c → P i c).
  unfold generateCategories. cbv zeta.
  rewrite !bind_draw. cbn [fst snd].
  unfold bind at 1. rewrite store_in_range by (unfold len; simpl; lia).
  match goal with |- context [for_upto 1 NumCategories ?b ?s ?st0] =>
    destruct (for_upto_invariant I 1 NumCategories b s st0) as (cs & st' & Hrun & Hst & Hlen & HP)
  end.
  - unfold NumCategories. lia.
  - split_and!; [done|done|].
    intros i c Hi Hc. assert (i = 0%nat) as -> by lia.
    simpl in Hc. injection Hc as <-. unfold P. simpl. split_and!; done || lia.
  - intros i cs st1 Hi (Hst1 & Hlen1 & HP1). unfold NumCategories in Hi.
    pose proof (Z.mod_pos_bound (rand_source env st1.1).1 i ltac:(lia)) as Hmod.
    destruct (Z.ltb_spec 2 i) as [H2|H2].
    + rewrite bind_rand_Intn by lia. cbn [fst snd]. rewrite !bind_draw. cbn [fst snd].
      rewrite store_in_range by (unfold len; lia). eexists _, _. split; [done|].
      split_and!; [done|by rewrite length_insert|].
      intros j c Hj Hc. destruct (decide (j = Z.to_nat i)) as [->|Hne].
      * rewrite list_lookup_insert_eq in Hc by lia. injection Hc as <-.
        unfold P. simpl. split_and!; done || lia.
      * rewrite list_lookup_insert_ne in Hc by done. apply (HP1 j c); [lia|done].
    + rewrite bind_ret, !bind_draw. cbn [fst snd].
      rewrite store_in_range by (unfold len; lia). eexists _, _. split; [done|].
      split_and!; [done|by rewrite length_insert|].
      intros j c Hj Hc. destruct (decide (j = Z.to_nat i)) as [->|Hne].
      * rewrite list_lookup_insert_eq in Hc by lia. injection Hc as <-.
        unfold P. simpl. split_and!; done || lia.
      * rewrite list_lookup_insert_ne in Hc by done. apply (HP1 j c); [lia|done].
  - exists cs, st'. split_and!; [done..|].
    intros i c Hc. apply (HP i c); [|done].
    apply lookup_lt_Some in Hc. unfold NumCategories. lia.
Qed.

(** X11. [generateCategories] never panics and writes nothing to the
    outside. It returns ten categories; the category at index i has sort
    order i and no identifier; the first three have no parent, and from
    the fourth on the parent number is at least 0 and below i; the first
    is visible. *)
Theorem generateCategories_invariants {W : Type} (env : environment W) (st : W * list event) :
  ∃ categories st',
    generateCategories env st = Some (categories, st') ∧
    st'.2 = st.2 ∧
    length categories = 10%nat ∧
    ∀ (i : nat) (c : Category.t), categories !! i = Some c →
      Category.SortOrder c = Z.of_nat i ∧
      Category.ID c = 0 ∧
      ((i ≤ 2)%nat → Category.ParentID c = 0) ∧
      0 ≤ Category.ParentID c ∧
      ((0 < i)%nat → Category.ParentID c < Z.of_nat i) ∧
      Category.LayoutFile c = "category.html" ∧
      Category.ImageURL c = image_url ∧
      (i = 0%nat → Category.IsVisible c = true).
Proof. intros; apply generateCategories_invariants_spec; assumption. Qed.

Section creation.
Context {W : Type} (env : environment W).
Implicit Types (st : W * list event).






End creation.







Section loops.
Context {W : Type} (env : environment W).
Implicit Types (st : W * list event).

(** A loop keeps what each of its rounds keeps; [Fail] is what a panic
    of a round shows. *)
Lemma for_each_invariant {A T} (I : nat → T → W * list event → Prop) (Fail : Prop)
    (xs : list A) (body : A → T → script T) (s : T) st :
  I 0%nat s st →
  (∀ n x s st, xs !! n = Some x → I n s st →
     match body x s st with
     | Some (s', st') => I (S n) s' st'
     | None => Fail
     end) →
  match for_each xs body s st with
  | Some (s', st') => I (length xs) s' st'
  | None => Fail
  end.
Proof.
  revert I s st. induction xs as [|x xs IH]; intros I s st H0 Hstep; [done|].
  cbn [for_each]. unfold bind at 1.
  pose proof (Hstep 0%nat x s st eq_refl H0) as Hx.
  destruct (body x s st) as [[s1 st1]|]; [|done].
  apply (IH (λ n, I (S n))); [done|].
  intros n y s' st' Hy. by apply Hstep.
Qed.


Lemma lookup_seqZ_Some (lo n : Z) (k : nat) (x : Z) :
  seqZ lo n !! k = Some x → x = lo + Z.of_nat k ∧ Z.of_nat k < n.
Proof. intros H. by apply lookup_seqZ in H. Qed.

Lemma for_upto_inv {T} (I : Z → T → W * list event → Prop) (Fail : Prop) (lo hi : Z)
    (body : Z → T → script T) (s : T) st :
  lo ≤ hi →
  I lo s st →
  (∀ i s st, lo ≤ i < hi → I i s st →
     match body i s st with
     | Some (s', st') => I (i + 1) s' st'
     | None => Fail
     end) →
  match for_upto lo hi body s st with
  | Some (s', st') => I hi s' st'
  | None => Fail
  end.
Proof.
  intros Hle H0 Hstep. unfold for_upto.
  pose proof (for_each_invariant (λ n, I (lo + Z.of_nat n)) Fail
                (seqZ lo (hi - lo)) body s st) as H.
  rewrite length_seqZ in H.
  replace (lo + Z.of_nat (Z.to_nat (hi - lo))) with hi in H by lia.
  apply H.
  - by replace (lo + Z.of_nat 0) with lo by lia.
  - intros n x s' st' [-> Hn]%lookup_seqZ_Some HI.
    specialize (Hstep (lo + Z.of_nat n) s' st' ltac:(lia) HI).
    destruct (body _ s' st') as [[s1 st1]|]; [|done].
    by replace (lo + Z.of_nat (S n)) with (lo + Z.of_nat n + 1) by lia.
Qed.



Lemma bind_index {A B} (xs : list A) (i : Z) (k : A → script B) st :
  0 ≤ i < len xs →
  ∃ x, xs !! Z.to_nat i = Some x ∧ bind (index xs i) k st = k x st.
Proof.
  intros Hi. destruct (index_in_range xs i st Hi) as (x & Hx & Hrun).
  exists x. split; [done|]. unfold bind. by rewrite Hrun.
Qed.

End loops.

Section products.
Context {W : Type} (env : environment W).
Implicit Types (st : W * list event).

Lemma existsb_eqb_elem_of (x : Z) (xs : list Z) :
  existsb (λ c, c =? x) xs = true ↔ x ∈ xs.
Proof.
  rewrite existsb_exists. split.
  - intros (c & Hc & ->%Z.eqb_eq). by apply list_elem_of_In.
  - intros Hx. exists x. split; [by apply list_elem_of_In|apply Z.eqb_refl].
Qed.

(** The selection of the categories of one product. *)
Lemma pick_categories (categoryIDs : list Z) (numCats : Z) st :
  0 < len categoryIDs → 0 ≤ numCats →
  match
    for_upto 0 numCats (λ (j : Z) (categories : list Z),
      bind (rand_Intn env (len categoryIDs)) (λ r,
      bind (index categoryIDs r) (λ catID,
      let alreadyAdded := existsb (λ c, c =? catID) categories in
      if negb alreadyAdded then ret (categories ++ [catID]) else ret categories))) [] st
  with
  | Some (categories, st') =>
      st'.2 = st.2 ∧ NoDup categories ∧ len categories ≤ numCats ∧
      (0 < numCats → 0 < len categories) ∧ categories ⊆ categoryIDs
  | None => False
  end.
Proof.
  intros Hlen Hn.
  apply (for_upto_inv (λ n cs st',
           st'.2 = st.2 ∧ NoDup cs ∧ len cs ≤ n ∧ (0 < n → 0 < len cs) ∧ cs ⊆ categoryIDs)
           False); [done| |].
  - split_and!; [done|constructor|done|lia|apply list_subseteq_nil].
  - intros j cs st1 Hj (Hst & Hnd & Hle & Hpos & Hsub).
    rewrite bind_rand_Intn by done. cbn [fst snd].
    pose proof (Z.mod_pos_bound (rand_source env st1.1).1 (len categoryIDs) Hlen) as Hr.
    match goal with |- context [bind (index categoryIDs ?r) ?k ?s] =>
      destruct (bind_index categoryIDs r k s Hr) as (x & Hx & ->)
    end.
    cbv zeta. apply list_elem_of_lookup_2 in Hx.
    destruct (existsb (λ c, c =? x) cs) eqn:He; simpl.
    + apply existsb_eqb_elem_of in He.
      split_and!; [done|done|lia| |done].
      intros _. destruct cs; [by apply elem_of_nil in He|unfold len; simpl; lia].
    + assert (x ∉ cs) as Hx'.
      { intros Hin. apply existsb_eqb_elem_of in Hin. congruence. }
      split_and!; [done| | | |].
      * apply NoDup_app. split_and!; [done| |apply NoDup_singleton].
        by intros y Hy ->%list_elem_of_singleton.
      * unfold len in *. rewrite length_app. simpl. lia.
      * unfold len in *. rewrite length_app. simpl. lia.
      * intros y [Hy| ->%list_elem_of_singleton]%elem_of_app; [by apply Hsub|done].
Qed.

End products.

Lemma generateProducts_invariants_spec {W : Type} (env : environment W)
    (categoryIDs brandIDs : list Z) (st : W * list event) :
  0 < len categoryIDs →
  0 < len brandIDs →
  ∃ products st',
    generateProducts env categoryIDs brandIDs st = Some (products, st') ∧
    st'.2 = st.2 ∧
    length products = 30%nat ∧
    ∀ (i : nat) (p : Product.t), products !! i = Some p →
      Product.SortOrder p = Z.of_nat i ∧
      Product.ID p = 0 ∧
      NoDup (Product.Categories p) ∧
      1 ≤ len (Product.Categories p) ≤ 3 ∧
      Product.Categories p ⊆ categoryIDs ∧
      Product.BrandID p ∈ brandIDs ∧
      0 ≤ Product.InventoryLevel p < 100 ∧
      Product.PageTitle p = Product.Name p ∧
      Product.OpenGraphTitle p = Product.Name p.
Proof.
  intros Hcats Hbrands.
  set (P := λ (i : nat) (p : Product.t),
    Product.SortOrder p = Z.of_nat i ∧
    Product.ID p = 0 ∧
    NoDup (Product.Categories p) ∧
    1 ≤ len (Product.Categories p) ≤ 3 ∧
    Product.Categories p ⊆ categoryIDs ∧
    Product.BrandID p ∈ brandIDs ∧
    0 ≤ Product.InventoryLevel p < 100 ∧
    Product.PageTitle p = Product.Name p ∧
    Product.OpenGraphTitle p = Product.Name p).
  unfold generateProducts. cbv zeta.
  match goal with |- context [for_upto 0 NumProducts ?b ?s st] =>
    assert (H : match for_upto 0 NumProducts b s st with
                | Some (ps, st') =>
                    st'.2 = st.2 ∧ length ps = 30%nat ∧
                    ∀ (i : nat) p, Z.of_nat i < NumProducts → ps !! i = Some p → P i p
                | None => False
                end);
    [|destruct (for_upto 0 NumProducts b s st) as [[ps st']|]; [|done]]
  end.
  - apply (for_upto_inv (λ n ps st',
        st'.2 = st.2 ∧ length ps = 30%nat ∧
        ∀ (i : nat) p, Z.of_nat i < n → ps !! i = Some p → P i p) False); [done| |].
    + split_and!; [done|done|]. intros i p Hi. lia.
    + intros i ps st1 Hi (Hst1 & Hlen1 & HP1). unfold NumProducts in Hi.
      rewrite bind_rand_Intn by done. cbn [fst snd].
      pose proof (Z.mod_pos_bound (rand_source env st1.1).1 3 ltac:(done)) as Hr.
      match goal with |- context [bind (for_upto 0 ?n ?b [] ) ?k ?s] =>
        pose proof (pick_categories env categoryIDs n s Hcats ltac:(lia)) as Hpick;
        unfold bind at 1;
        destruct (for_upto 0 n b [] s) as [[cs st2]|]; [|done]
      end.
      destruct Hpick as (Hst2 & Hnd & Hle & Hpos & Hsub). cbn [snd] in Hst2.
      rewrite bind_rand_Intn by done. cbn [fst snd].
      pose proof (Z.mod_pos_bound (rand_source env st2.1).1 (len brandIDs) Hbrands) as Hb.
      match goal with |- context [bind (index brandIDs ?r) ?k ?s] =>
        destruct (bind_index brandIDs r k s Hb) as (brand & Hbrand & ->)
      end.
      apply list_elem_of_lookup_2 in Hbrand.
      repeat (rewrite bind_draw; cbn [fst snd]).
      rewrite bind_rand_Intn by done. cbn [fst snd].
      repeat (rewrite bind_draw; cbn [fst snd]).
      rewrite store_in_range by (unfold len; lia).
      split_and!; [by rewrite Hst2|by rewrite length_insert|].
      intros j p Hj Hp. destruct (decide (j = Z.to_nat i)) as [->|Hne].
      * rewrite list_lookup_insert_eq in Hp by lia. injection Hp as <-.
        unfold P. cbn [Product.SortOrder Product.ID Product.Categories Product.BrandID
                       Product.InventoryLevel Product.PageTitle Product.OpenGraphTitle
                       Product.Name].
        split_and!; try done; try lia.
        -- apply Z.mod_pos_bound. done.
        -- apply Z.mod_pos_bound. done.
      * rewrite list_lookup_insert_ne in Hp by done. apply (HP1 j p); [lia|done].
  - destruct H as (Hst & Hlen & HP). exists ps, st'. split_and!; [done..|].
    intros i p Hp. apply (HP i p); [|done].
    apply lookup_lt_Some in Hp. unfold NumProducts. lia.
Qed.

(** X15. When there is at least one category identifier and one brand
    identifier, [generateProducts] does not panic and writes nothing to
    the outside. It returns thirty products with no identifier; the one at
    index i has sort order i, from one to three categories, all among the
    identifiers given and no one twice, a brand among those given, an
    inventory level from 0 to 99, and its name as page title and Open
    Graph title. *)
Theorem generateProducts_invariants {W : Type} (env : environment W)
    (categoryIDs brandIDs : list Z) (st : W * list event) :
  0 < len categoryIDs →
  0 < len brandIDs →
  ∃ products st',
    generateProducts env categoryIDs brandIDs st = Some (products, st') ∧
    st'.2 = st.2 ∧
    length products = 30%nat ∧
    ∀ (i : nat) (p : Product.t), products !! i = Some p →
      Product.SortOrder p = Z.of_nat i ∧
      Product.ID p = 0 ∧
      NoDup (Product.Categories p) ∧
      1 ≤ len (Product.Categories p) ≤ 3 ∧
      Product.Categories p ⊆ categoryIDs ∧
      Product.BrandID p ∈ brandIDs ∧
      0 ≤ Product.InventoryLevel p < 100 ∧
      Product.PageTitle p = Product.Name p ∧
      Product.OpenGraphTitle p = Product.Name p.
Proof. intros; apply generateProducts_invariants_spec; assumption. Qed.

(** X16. With no category identifier, or with no brand identifier,
    [generateProducts] panics in its first round: [rand.Intn] is called
    with the length 0. *)
Theorem generateProducts_empty {W : Type} (env : environment W)
    (categoryIDs brandIDs : list Z) (st : W * list event) :
  generateProducts env [] brandIDs st = None ∧
  generateProducts env categoryIDs [] st = None.
Proof.
  unfold generateProducts, for_upto. cbv zeta.
  rewrite seqZ_cons by done. cbn [for_each].
  split.
  - unfold bind at 1. rewrite bind_rand_Intn by done. cbn [fst snd].
    pose proof (Z.mod_pos_bound (rand_source env st.1).1 3 ltac:(done)) as Hr.
    unfold for_upto. rewrite seqZ_cons by lia. cbn [for_each].
    rewrite !bind_assoc. by rewrite bind_rand_Intn_panic.
  - unfold bind at 1. rewrite bind_rand_Intn by done. cbn [fst snd].
    match goal with |- context [bind (for_each ?xs ?b []) ?k ?s] =>
      unfold bind at 1; destruct (for_each xs b [] s) as [[cs st2]|]; [|done]
    end.
    by rewrite bind_rand_Intn_panic.
Qed.

Section additions.
Context {W : Type} (env : environment W).
Implicit Types (st : W * list event).



End additions.











Section options.
Context {W : Type} (env : environment W) (productID : Z).
Implicit Types (st : W * list event) (evs : list event).

Lemma values_created_app ids m evs evs' :
  values_created productID ids m evs → values_created productID ids m (evs ++ evs').
Proof.
  intros H oid Hoid. destruct (H oid Hoid) as (vs & Hvs & Hlen & Hin).
  exists vs. split_and!; [done..|]. intros v Hv. apply elem_of_app. left. by apply Hin.
Qed.



End options.

Section counting.





End counting.



(** * [main] *)

Section main_run.
Context {W : Type} (env : environment W).
Implicit Types (st : W * list event) (evs : list event).



















End main_run.




Lemma generateProducts_invariants_witness :
  0 < len [11; 12; 13] ∧ 0 < len [21; 22] ∧
  ∃ products st',
    generateProducts counting_environment [11; 12; 13] [21; 22] (0, []) =
      Some (products, st') ∧
    length products = 30%nat.
Proof.
  split; [reflexivity|]. split; [reflexivity|].
  destruct (generateProducts_invariants counting_environment [11; 12; 13] [21; 22] (0, []))
    as (products & st' & Hrun & _ & Hlen & _); [reflexivity|reflexivity|].
  exists products, st'. exact (conj Hrun Hlen).
Defined.

